(** * Vision3D: the Structure-from-Motion pipeline of the OpenCV photogrammetry module

    A shallow embedding of [generateModel] and the stages it runs
    (feature matching, seed-pair selection, two-view reconstruction,
    triangulation with validation, point-cloud assembly, fallback model),
    followed by the properties the design document states about them.

    Conventions of the embedding.
    - A JavaScript [number] is a real number: rounding, overflow and the
      non-finite values are not represented.  Where the source can only
      reach a comparison through a non-finite value (a division by zero,
      a read past the end of a typed array) the embedding makes that path
      explicit with [option] and gives the comparison the value [false],
      which is what JavaScript computes for NaN and for an infinite error.
    - OpenCV.js ([window.cv]), image decoding and [Math.random] are the
      environment: a record of oracles.  An oracle either returns or throws.
    - Code that calls the environment runs in a small monad that threads
      the list of OpenCV calls made so far and the number of random draws,
      and propagates exceptions the way [try]/[catch] does.  The draws are
      those of the code of the pipeline; the identifiers that the
      constructors of three.js draw for their objects are not counted. *)

From Stdlib Require Import String Ascii DecimalString DecimalNat.
From Stdlib Require Import Reals Lra Lia Bool Arith ZArith List Sorted Permutation.
Import ListNotations.

Local Open Scope R_scope.

(** ** JavaScript numbers *)

Abbreviation number := R (only parsing).

Module JS.

(** [a < b] on numbers, as a boolean. *)
Definition ltb (a b : number) : bool := if Rlt_dec a b then true else false.

(** [a > b]. *)
Definition gtb (a b : number) : bool := ltb b a.

(** [Math.pow(a, 2)]. *)
Definition pow2 (a : number) : number := a * a.

(** [Math.abs]. *)
Definition abs (a : number) : number := Rabs a.

(** [Math.sqrt] on a non-negative argument. *)
Definition sqrt (a : number) : number := R_sqrt.sqrt a.

(** [Math.min] on array lengths and small integers. *)
Definition min (a b : nat) : nat := Nat.min a b.

End JS.

(** ** three.js values used by the pipeline

    [Matrix3] stores its nine entries in the array [elements] in
    column-major order; the fields [te0] .. [te8] are [elements[0]] ..
    [elements[8]], so the entry in row [i], column [j] is [elements[3*j+i]]. *)

Module THREE.

Record Vector3 : Type := mkVector3 { x : number; y : number; z : number }.

Record Color : Type := mkColor { r : number; g : number; b : number }.

Record Matrix3 : Type := mkMatrix3 {
  te0 : number; te1 : number; te2 : number;
  te3 : number; te4 : number; te5 : number;
  te6 : number; te7 : number; te8 : number }.

(** [new THREE.Matrix3().identity()]. *)
Definition identity : Matrix3 := mkMatrix3 1 0 0 0 1 0 0 0 1.

(** [Matrix3.set(n11, n12, n13, n21, n22, n23, n31, n32, n33)]: the
    arguments come row by row and are stored column by column. *)
Definition set (n11 n12 n13 n21 n22 n23 n31 n32 n33 : number) : Matrix3 :=
  mkMatrix3 n11 n21 n31 n12 n22 n32 n13 n23 n33.

(** [Matrix3.fromArray(array)]: copies [array[i]] to [elements[i]]. *)
Definition fromArray (a0 a1 a2 a3 a4 a5 a6 a7 a8 : number) : Matrix3 :=
  mkMatrix3 a0 a1 a2 a3 a4 a5 a6 a7 a8.

(** [Matrix3.transpose()]: swaps [elements] 1/3, 2/6 and 5/7. *)
Definition transpose (m : Matrix3) : Matrix3 :=
  mkMatrix3 (te0 m) (te3 m) (te6 m) (te1 m) (te4 m) (te7 m) (te2 m) (te5 m) (te8 m).

(** [Vector3.negate()]. *)
Definition negate (v : Vector3) : Vector3 := mkVector3 (- x v) (- y v) (- z v).

(** [Vector3.add(w)]. *)
Definition add (v w : Vector3) : Vector3 :=
  mkVector3 (x v + x w) (y v + y w) (z v + z w).

(** [Vector3.sub(w)]. *)
Definition sub (v w : Vector3) : Vector3 :=
  mkVector3 (x v - x w) (y v - y w) (z v - z w).

(** [Vector3.applyMatrix3(m)]:
    [x' = e[0]*x + e[3]*y + e[6]*z], [y' = e[1]*x + e[4]*y + e[7]*z],
    [z' = e[2]*x + e[5]*y + e[8]*z]. *)
Definition applyMatrix3 (v : Vector3) (m : Matrix3) : Vector3 :=
  mkVector3 (te0 m * x v + te3 m * y v + te6 m * z v)
            (te1 m * x v + te4 m * y v + te7 m * z v)
            (te2 m * x v + te5 m * y v + te8 m * z v).

(** The entry of a [Matrix3] in row [i] and column [j] (both below 3),
    read from the column-major [elements]. *)
Definition entry (m : Matrix3) (i j : nat) : number :=
  match j, i with
  | 0%nat, 0%nat => te0 m | 0%nat, 1%nat => te1 m | 0%nat, _ => te2 m
  | 1%nat, 0%nat => te3 m | 1%nat, 1%nat => te4 m | 1%nat, _ => te5 m
  | _, 0%nat => te6 m | _, 1%nat => te7 m | _, _ => te8 m
  end.

(** The materials the pipeline creates. *)
Inductive Material : Type :=
| PointsMaterial (size : number) (vertexColors sizeAttenuation transparent : bool)
                 (opacity : number)
| MeshPhongMaterial (color : N).

(** A [BufferGeometry]: the [position] attribute, the optional [color]
    attribute and the optional index.  Normals, texture coordinates and
    the bounding sphere are not represented. *)
Record BufferGeometry : Type := mkBufferGeometry {
  position : list number;
  color : option (list number);
  index : option (list nat) }.

(** One face of a [BoxGeometry], [buildPlane(u, v, w, udir, vdir, width,
    height, depth, gridX, gridY)]: [(gridX+1)*(gridY+1)] vertices of its
    own and two triangles per grid cell.  The axes [u], [v], [w] are
    given as a function that places the three coordinates. *)
Definition planeVertices (place : number -> number -> number -> list number)
  (udir vdir width height depth : number) (gridX gridY : nat) : list number :=
  flat_map (fun iy =>
    flat_map (fun ix =>
      place ((INR ix * (width / INR gridX) - width / 2) * udir)
            ((INR iy * (height / INR gridY) - height / 2) * vdir)
            (depth / 2))
      (seq 0 (gridX + 1)))
    (seq 0 (gridY + 1)).

Definition planeIndices (numberOfVertices gridX gridY : nat) : list nat :=
  flat_map (fun iy =>
    flat_map (fun ix =>
      let a := (numberOfVertices + ix + (gridX + 1) * iy)%nat in
      let b := (numberOfVertices + ix + (gridX + 1) * (iy + 1))%nat in
      let c := (numberOfVertices + (ix + 1) + (gridX + 1) * (iy + 1))%nat in
      let d := (numberOfVertices + (ix + 1) + (gridX + 1) * iy)%nat in
      [a; b; d; b; c; d])
      (seq 0 gridX))
    (seq 0 gridY).

Definition zyx (u v w : number) : list number := [w; v; u].
Definition xzy (u v w : number) : list number := [u; w; v].
Definition xyz (u v w : number) : list number := [u; v; w].

(** [new THREE.BoxGeometry(width, height, depth)] with one segment per
    edge: the six faces px, nx, py, ny, pz, nz in this order. *)
Definition BoxGeometry (width height depth : number) : BufferGeometry :=
  let faces :=
    [ (zyx, -1, -1, depth, height, width);
      (zyx, 1, -1, depth, height, - width);
      (xzy, 1, 1, width, depth, height);
      (xzy, 1, -1, width, depth, - height);
      (xyz, 1, -1, width, height, depth);
      (xyz, -1, -1, width, height, - depth) ] in
  let build (acc : list number * list nat * nat)
            (f : (number -> number -> number -> list number)
                 * number * number * number * number * number) :=
    let '(vertices, indices, numberOfVertices) := acc in
    let '(place, udir, vdir, w, h, d) := f in
    (vertices ++ planeVertices place udir vdir w h d 1 1,
     indices ++ planeIndices numberOfVertices 1 1,
     (numberOfVertices + (1 + 1) * (1 + 1))%nat) in
  let '(vertices, indices, _) := fold_left build faces ([], [], 0%nat) in
  mkBufferGeometry vertices None (Some indices).

End THREE.

(** ** The environment: OpenCV.js, image decoding, randomness *)

(** What a call into the environment, or any JavaScript statement, does. *)
Inductive exn : Type :=
| CvException (what : string)
| ImageLoadError
| TypeError (what : string).

Inductive outcome (A : Type) : Type :=
| Returns (a : A)
| Throws (e : exn).
Arguments Returns {A} a.
Arguments Throws {A} e.

Module cv.

(** A [cv.Mat]; [data64F] is the [Float64Array] view of its buffer. *)
Record Mat : Type := mkMat {
  rows : nat; cols : nat; channels : nat; data64F : list number }.

(** A 3x3 [CV_64F] matrix, [a_ij] being [data64F[3*i+j]] (row-major). *)
Record Mat3x3 : Type := mkMat3x3 {
  a00 : number; a01 : number; a02 : number;
  a10 : number; a11 : number; a12 : number;
  a20 : number; a21 : number; a22 : number }.

(** A 3x1 [CV_64F] matrix. *)
Record Mat3x1 : Type := mkMat3x1 { b0 : number; b1 : number; b2 : number }.

Record KeyPoint : Type := mkKeyPoint {
  pt_x : number; pt_y : number; kp_response : number;
  kp_angle : number; kp_octave : number }.

Record DMatch : Type := mkDMatch {
  queryIdx : nat; trainIdx : nat; distance : number }.

Inductive ColorConversion : Type := COLOR_RGBA2GRAY | COLOR_RGB2GRAY.

Inductive Method : Type := RANSAC | LMEDS.

(** What [cv.recoverPose(E, pts1, pts2, K, R, t, mask)] returns and writes:
    the inlier count, the 3x3 rotation, the 3x1 translation and the mask,
    [maskAt i] being [mask.ucharPtr(i, 0)[0]]. *)
Record Pose : Type := mkPose {
  inlierCount : Z; poseR : Mat3x3; poseT : Mat3x1; maskAt : nat -> nat }.

(** [cv.matFromArray(rows, cols, type, array)]. *)
Definition matFromArray (rows cols channels : nat) (array : list number) : Mat :=
  mkMat rows cols channels array.

(** [cv.Mat.eye(3, 3, cv.CV_64F)] and [cv.Mat.zeros(3, 1, cv.CV_64F)]. *)
Definition eye3 : Mat3x3 := mkMat3x3 1 0 0 0 1 0 0 0 1.
Definition zeros3 : Mat3x1 := mkMat3x1 0 0 0.

End cv.

(** The calls into OpenCV.js that the pipeline makes, as recorded in the
    call log. *)
Inductive cvCall : Type :=
| ORB_create
| BFMatcher
| loadImage (src : string)
| cvtColor (code : cv.ColorConversion)
| detectAndCompute
| knnMatch (k : nat)
| findEssentialMat (pts1 pts2 K : cv.Mat) (method : cv.Method) (prob threshold : number)
| recoverPose
| hconcat
| gemm
| triangulatePoints.

(** The oracles.  [cvReady k] is [window.cvReady] as read by the [k]-th
    poll of [waitForOpenCV]; [Math_random k] is the [k]-th value returned
    by [Math.random()]. *)
Record Environment : Type := mkEnvironment {
  cvReady : nat -> bool;
  Math_random : nat -> number;
  env_ORB_create : outcome unit;
  env_BFMatcher : outcome unit;
  env_loadImageToMat : string -> outcome cv.Mat;
  env_cvtColor : cv.Mat -> cv.ColorConversion -> outcome cv.Mat;
  env_detectAndCompute : cv.Mat -> outcome (list cv.KeyPoint * cv.Mat);
  env_knnMatch : cv.Mat -> cv.Mat -> nat -> outcome (list (list cv.DMatch));
  env_findEssentialMat :
    cv.Mat -> cv.Mat -> cv.Mat -> cv.Method -> number -> number -> outcome cv.Mat;
  env_recoverPose : cv.Mat -> cv.Mat -> cv.Mat -> cv.Mat -> outcome cv.Pose;
  env_hconcat : cv.Mat3x3 -> cv.Mat3x1 -> outcome cv.Mat;
  env_gemm : cv.Mat -> cv.Mat -> outcome cv.Mat;
  env_triangulatePoints : cv.Mat -> cv.Mat -> cv.Mat -> cv.Mat -> outcome cv.Mat }.

(** ** The monad of the pipeline *)

Record World : Type := mkWorld { calls : list cvCall; draws : nat }.

Definition M (A : Type) : Type := World -> outcome A * World.

Definition ret {A} (a : A) : M A := fun w => (Returns a, w).

Definition bind {A B} (c : M A) (k : A -> M B) : M B :=
  fun w => match c w with
           | (Returns a, w') => k a w'
           | (Throws e, w') => (Throws e, w')
           end.

Definition throw {A} (e : exn) : M A := fun w => (Throws e, w).

(** [try { body } catch (error) { handler }]. *)
Definition try_catch {A} (body : M A) (handler : exn -> M A) : M A :=
  fun w => match body w with
           | (Returns a, w') => (Returns a, w')
           | (Throws e, w') => handler e w'
           end.

(** A call into OpenCV.js: recorded, then answered by the oracle. *)
Definition call {A} (c : cvCall) (answer : outcome A) : M A :=
  fun w => (answer, mkWorld (calls w ++ [c]) (draws w)).

(** [Math.random()]. *)
Definition random (env : Environment) : M number :=
  fun w => (Returns (Math_random env (draws w)), mkWorld (calls w) (S (draws w))).

Declare Scope monad_scope.
Delimit Scope monad_scope with monad.
Notation "x <- c ;; k" := (bind c (fun x => k))
  (at level 61, c at next level, right associativity) : monad_scope.
Notation "' p <- c ;; k" := (bind c (fun x => let 'p := x in k))
  (at level 61, p pattern, c at next level, right associativity) : monad_scope.
Notation "c ;;; k" := (bind c (fun _ => k))
  (at level 61, right associativity) : monad_scope.

(** ** Data model of the pipeline *)

Module ProcessedImage.
Record t : Type := mk { processed : string; success : bool }.
End ProcessedImage.

Module FeaturePoint.
Record t : Type := mk {
  x : number; y : number; response : number;
  angle : option number; octave : option number }.
End FeaturePoint.

Record ImageFeatures : Type := mkImageFeatures {
  image : ProcessedImage.t;
  features : list FeaturePoint.t;
  descriptors : cv.Mat;
  keypoints : list cv.KeyPoint;
  imageIndex : nat;
  mat : cv.Mat }.

Record MatchedFeature : Type := mkMatchedFeature {
  point1 : FeaturePoint.t;
  point2 : FeaturePoint.t;
  image1Index : nat;
  image2Index : nat;
  confidence : number;
  queryIdx : nat;
  trainIdx : nat }.

(** [projectionMatrix], always a fresh identity [Matrix4] that nothing
    reads, is left out of [CameraPose]. *)
Record CameraPose : Type := mkCameraPose {
  position : THREE.Vector3;
  rotation : THREE.Matrix3;
  translation : THREE.Vector3;
  intrinsicMatrix : THREE.Matrix3;
  isValid : bool;
  reprojectionError : number }.

Module Point3D.
Record t : Type := mk {
  position : THREE.Vector3;
  color : THREE.Color;
  confidence : number;
  reprojectionError : number;
  viewCount : nat }.
End Point3D.

Record ReconstructionResult : Type := mkReconstructionResult {
  points3D : list Point3D.t;
  cameras : list CameraPose;
  success : bool;
  errorMessage : option string }.

(** [Generated3DModel] of the store; [sourceImageCount] is optional. *)
Record Generated3DModel : Type := mkGenerated3DModel {
  geometry : THREE.BufferGeometry;
  material : THREE.Material;
  vertices : list number;
  faces : list nat;
  sourceImageCount : option nat }.

(** ** Feature matching: the pure steps of [robustFeatureMatching] *)

(** Lowe's ratio test with the absolute cutoff, as the source writes it:
    [m1.distance < 0.75 * m2.distance && m1.distance < 40]. *)
Definition ratioTest (m1 m2 : cv.DMatch) : bool :=
  JS.ltb (cv.distance m1) (0.75 * cv.distance m2) && JS.ltb (cv.distance m1) 40.

(** The loop over [knnMatches]: a row with at least two neighbours whose
    best neighbour passes the test contributes that neighbour. *)
Fixpoint goodMatchesOf (knnMatches : list (list cv.DMatch)) : list cv.DMatch :=
  match knnMatches with
  | [] => []
  | (m1 :: m2 :: _) :: rest =>
      if ratioTest m1 m2 then m1 :: goodMatchesOf rest else goodMatchesOf rest
  | _ :: rest => goodMatchesOf rest
  end.

(** The inner loop of the cross-check: some row of [backMatches] has a
    best neighbour that is the reverse of [m]. *)
Definition hasBackMatch (backMatches : list (list cv.DMatch)) (m : cv.DMatch) : bool :=
  existsb (fun backMatch =>
             match backMatch with
             | bm :: _ => (cv.queryIdx bm =? cv.trainIdx m)%nat
                          && (cv.trainIdx bm =? cv.queryIdx m)%nat
             | [] => false
             end) backMatches.

Definition crossCheck (backMatches : list (list cv.DMatch)) (goodMatches : list cv.DMatch)
  : list cv.DMatch :=
  filter (hasBackMatch backMatches) goodMatches.

(** [crossCheckMatches.length > 20 ? crossCheckMatches : goodMatches]. *)
Definition finalMatchesOf (crossCheckMatches goodMatches : list cv.DMatch) : list cv.DMatch :=
  if (20 <? length crossCheckMatches)%nat then crossCheckMatches else goodMatches.

(** [finalMatches.sort((a, b) => a.distance - b.distance)].  The sort of
    an array is stable, so with this comparator the result is the one of
    an insertion sort that puts an element before the first one that is
    not strictly closer. *)
Fixpoint insertByDistance (a : cv.DMatch) (l : list cv.DMatch) : list cv.DMatch :=
  match l with
  | [] => [a]
  | b :: l' => if JS.ltb (cv.distance b) (cv.distance a)
               then b :: insertByDistance a l'
               else a :: b :: l'
  end.

Fixpoint sortByDistance (l : list cv.DMatch) : list cv.DMatch :=
  match l with
  | [] => []
  | a :: l' => insertByDistance a (sortByDistance l')
  end.

(** [finalMatches.slice(0, Math.min(200, finalMatches.length))] after the sort. *)
Definition bestMatchesOf (finalMatches : list cv.DMatch) : list cv.DMatch :=
  firstn (JS.min 200 (length finalMatches)) (sortByDistance finalMatches).

(** The conversion loop: a match whose [queryIdx] or [trainIdx] has no
    feature ([point1 && point2] fails) is dropped. *)
Definition toMatchedFeature (featuresI featuresJ : list FeaturePoint.t) (i j : nat)
  (m : cv.DMatch) : option MatchedFeature :=
  match nth_error featuresI (cv.queryIdx m), nth_error featuresJ (cv.trainIdx m) with
  | Some point1, Some point2 =>
      Some (mkMatchedFeature point1 point2 i j (1 / (1 + cv.distance m))
                             (cv.queryIdx m) (cv.trainIdx m))
  | _, _ => None
  end.

Fixpoint convertMatches (featuresI featuresJ : list FeaturePoint.t) (i j : nat)
  (bestMatches : list cv.DMatch) : list MatchedFeature :=
  match bestMatches with
  | [] => []
  | m :: rest =>
      match toMatchedFeature featuresI featuresJ i j m with
      | Some mf => mf :: convertMatches featuresI featuresJ i j rest
      | None => convertMatches featuresI featuresJ i j rest
      end
  end.

(** ** Seed-pair selection: [findBestInitialPair] *)

(** An array index computed by [Number(...)]: [None] is NaN. *)
Definition jsindex : Type := option nat.

(** The decimal text of an image index in a template literal. *)
Definition toString (n : nat) : string := NilEmpty.string_of_uint (Nat.to_uint n).

(** [Number(s)] on the text of an index. *)
Definition Number (s : string) : jsindex :=
  match NilEmpty.uint_of_string s with
  | Some d => Some (Nat.of_uint d)
  | None => None
  end.

(** [s.split('-')]. *)
Fixpoint split_dash (s : string) : list string :=
  match s with
  | EmptyString => [EmptyString]
  | String c s' =>
      if Ascii.eqb c "-"%char then EmptyString :: split_dash s'
      else match split_dash s' with
           | hd :: tl => String c hd :: tl
           | [] => [String c EmptyString]
           end
  end.

(** The key [`${match.image1Index}-${match.image2Index}`]. *)
Definition pairKey (m : MatchedFeature) : string :=
  (toString (image1Index m) ++ "-" ++ toString (image2Index m))%string.

(** A [Map<string, MatchedFeature[]>]: its entries in insertion order. *)
Definition PairMap : Type := list (string * list MatchedFeature).

Definition Map_has (m : PairMap) (key : string) : bool :=
  existsb (fun e => String.eqb (fst e) key) m.

(** [m.set(key, [])] for a key that [m] does not have. *)
Definition Map_set_new (m : PairMap) (key : string) : PairMap := m ++ [(key, [])].

(** [m.get(key).push(v)]: the array of the entry is extended in place. *)
Fixpoint Map_push (m : PairMap) (key : string) (v : MatchedFeature) : PairMap :=
  match m with
  | [] => []
  | (k, l) :: m' =>
      if String.eqb k key then (k, l ++ [v]) :: m' else (k, l) :: Map_push m' key v
  end.

(** The grouping loop. *)
Definition groupStep (pairCounts : PairMap) (m : MatchedFeature) : PairMap :=
  let key := pairKey m in
  let pairCounts' :=
    if negb (Map_has pairCounts key) then Map_set_new pairCounts key else pairCounts in
  Map_push pairCounts' key m.

Definition groupByPair (matches : list MatchedFeature) : PairMap :=
  fold_left groupStep matches [].

Record InitialPair : Type := mkInitialPair {
  image1 : jsindex; image2 : jsindex; pair_matches : list MatchedFeature }.

(** One iteration of the selection loop over the entries; the state is
    [(bestPair, maxMatches)]. *)
Definition selectStep (st : option InitialPair * nat) (e : string * list MatchedFeature)
  : option InitialPair * nat :=
  let '(bestPair, maxMatches) := st in
  let '(key, pairMatches) := e in
  if (maxMatches <? length pairMatches)%nat && (50 <=? length pairMatches)%nat then
    let ids := map Number (split_dash key) in
    (Some (mkInitialPair (nth 0 ids None) (nth 1 ids None) pairMatches),
     length pairMatches)
  else st.

Definition findBestInitialPair (matches : list MatchedFeature) : option InitialPair :=
  fst (fold_left selectStep (groupByPair matches) (None, 0%nat)).

(** ** Two-view geometry *)

(** [projectPoint]: [None] stands for the non-finite projection computed
    when the camera-frame depth [camPoint.z] is zero. *)
Definition projectPoint (point3D : THREE.Vector3) (camera : CameraPose)
  (intrinsics : THREE.Matrix3) : option (number * number) :=
  let relativePoint := THREE.sub point3D (position camera) in
  let camPoint := THREE.applyMatrix3 relativePoint (rotation camera) in
  let fx := THREE.te0 intrinsics in
  let fy := THREE.te4 intrinsics in
  let cx := THREE.te2 intrinsics in
  let cy := THREE.te5 intrinsics in
  if Req_dec_T (THREE.z camPoint) 0 then None
  else Some ((THREE.x camPoint / THREE.z camPoint) * fx + cx,
             (THREE.y camPoint / THREE.z camPoint) * fy + cy).

(** The pixel distance between a projection and a matched feature. *)
Definition pixelDistance (proj : number * number) (p : FeaturePoint.t) : number :=
  JS.sqrt (JS.pow2 (fst proj - FeaturePoint.x p) + JS.pow2 (snd proj - FeaturePoint.y p)).

(** [calculateReprojectionError]: [(error1 + error2) / 2], non-finite
    ([None]) as soon as one projection is. *)
Definition calculateReprojectionError (point3D : THREE.Vector3) (m : MatchedFeature)
  (camera1 camera2 : CameraPose) (intrinsics : THREE.Matrix3) : option number :=
  match projectPoint point3D camera1 intrinsics, projectPoint point3D camera2 intrinsics with
  | Some proj1, Some proj2 =>
      let error1 := pixelDistance proj1 (point1 m) in
      let error2 := pixelDistance proj2 (point2 m) in
      Some ((error1 + error2) / 2)
  | _, _ => None
  end.

(** The camera poses built by [performTwoViewReconstruction] from the
    rotation [Rm] and translation [t] that [cv.recoverPose] wrote:
    [RArray] is [Rm.data64F[0..8]], [tVec] is [t.data64F[0..2]]. *)
Definition makeCamera1 (intrinsics : THREE.Matrix3) : CameraPose :=
  mkCameraPose (THREE.mkVector3 0 0 0) THREE.identity (THREE.mkVector3 0 0 0)
               intrinsics true 0.

Definition RMatOf (Rm : cv.Mat3x3) : THREE.Matrix3 :=
  THREE.fromArray (cv.a00 Rm) (cv.a01 Rm) (cv.a02 Rm)
                  (cv.a10 Rm) (cv.a11 Rm) (cv.a12 Rm)
                  (cv.a20 Rm) (cv.a21 Rm) (cv.a22 Rm).

Definition tVecOf (t : cv.Mat3x1) : THREE.Vector3 :=
  THREE.mkVector3 (cv.b0 t) (cv.b1 t) (cv.b2 t).

Definition makeCamera2 (intrinsics : THREE.Matrix3) (Rm : cv.Mat3x3) (t : cv.Mat3x1)
  : CameraPose :=
  let tVec := tVecOf t in
  let RMat := RMatOf Rm in
  let RTMat := THREE.transpose RMat in
  let camera2Position := THREE.applyMatrix3 (THREE.negate tVec) RTMat in
  mkCameraPose camera2Position RMat tVec intrinsics true 0.

(** The inlier filter of [triangulatePointsOpenCV]. *)
Fixpoint inlierMatchesOf (maskAt : nat -> nat) (i : nat) (matches : list MatchedFeature)
  : list MatchedFeature :=
  match matches with
  | [] => []
  | m :: rest =>
      if (maskAt i =? 0)%nat then inlierMatchesOf maskAt (S i) rest
      else m :: inlierMatchesOf maskAt (S i) rest
  end.

Definition flatPoints (sel : MatchedFeature -> FeaturePoint.t) (l : list MatchedFeature)
  : list number :=
  flat_map (fun m => [FeaturePoint.x (sel m); FeaturePoint.y (sel m)]) l.

(** The homogeneous point [i] as the loop reads it from [points4D.data64F];
    [None] when the read of [W] is past the end of the array. *)
Definition readPoint4D (points4D : cv.Mat) (i : nat)
  : option (number * number * number * number) :=
  match nth_error (cv.data64F points4D) (i * 4),
        nth_error (cv.data64F points4D) (i * 4 + 1),
        nth_error (cv.data64F points4D) (i * 4 + 2),
        nth_error (cv.data64F points4D) (i * 4 + 3) with
  | Some X, Some Y, Some Z, Some W => Some (X, Y, Z, W)
  | _, _, _, _ => None
  end.

(** The depth of a world point in the frame of camera 2, as the loop
    computes it: [point3D.clone().applyMatrix3(Rcam2).add(tcam2).z]. *)
Definition depthInCamera (camera : CameraPose) (point3D : THREE.Vector3) : number :=
  THREE.z (THREE.add (THREE.applyMatrix3 point3D (rotation camera)) (translation camera)).

(** The value that [performTwoViewReconstruction] resolves to. *)
Module TwoViewResult.
Record t : Type := mk {
  success : bool; points3D : list Point3D.t; cameras : list CameraPose }.
End TwoViewResult.

Section Triangulation.

Variable env : Environment.
Local Open Scope monad_scope.

(** The body of the conversion loop for index [i]: the array [points3D]
    after the iteration.  It throws when [inlierMatches[i]] is undefined
    and the error is computed. *)
Definition validatePoint (points4D : cv.Mat) (inlierMatches : list MatchedFeature)
  (camera1 camera2 : CameraPose) (intrinsics : THREE.Matrix3)
  (i : nat) (points3D : list Point3D.t) : M (list Point3D.t) :=
  match readPoint4D points4D i with
  | None => ret points3D
  | Some (X, Y, Z, W) =>
      if JS.gtb (JS.abs W) (1 / 1000000) then
        let point3D := THREE.mkVector3 (X / W) (Y / W) (Z / W) in
        let depthCam1 := Z / W in
        let depthCam2 := depthInCamera camera2 point3D in
        if JS.gtb depthCam1 0 && JS.gtb depthCam2 0 then
          match nth_error inlierMatches i with
          | None => throw (TypeError "match is undefined")
          | Some m =>
              match calculateReprojectionError point3D m camera1 camera2 intrinsics with
              | None => ret points3D
              | Some reprojError =>
                  if JS.ltb reprojError 2 then
                    r1 <- random env ;;
                    r2 <- random env ;;
                    ret (points3D ++
                         [Point3D.mk point3D
                            (THREE.mkColor (0.7 + r1 * 0.3) (0.7 + r2 * 0.3) 0.9)
                            (1 - reprojError / 2) reprojError 2])
                  else ret points3D
              end
          end
        else ret points3D
      else ret points3D
  end.

(** The conversion loop.  An exception leaves it with the points pushed
    so far; the enclosing [catch] logs it and [points3D] is returned. *)
Fixpoint validatePoints (points4D : cv.Mat) (inlierMatches : list MatchedFeature)
  (camera1 camera2 : CameraPose) (intrinsics : THREE.Matrix3)
  (indices : list nat) (points3D : list Point3D.t) : M (list Point3D.t) :=
  match indices with
  | [] => ret points3D
  | i :: rest =>
      fun w =>
        match validatePoint points4D inlierMatches camera1 camera2 intrinsics i points3D w with
        | (Returns points3D', w') =>
            validatePoints points4D inlierMatches camera1 camera2 intrinsics rest points3D' w'
        | (Throws _, w') => (Returns points3D, w')
        end
  end.

Definition triangulatePointsOpenCV (matches : list MatchedFeature)
  (camera1 camera2 : CameraPose) (intrinsics : THREE.Matrix3)
  (maskAt : nat -> nat) (pts1 pts2 K : cv.Mat) (Rm : cv.Mat3x3) (t : cv.Mat3x1)
  : M (list Point3D.t) :=
  try_catch
    (Rt1 <- call hconcat (env_hconcat env cv.eye3 cv.zeros3) ;;
     P1 <- call gemm (env_gemm env K Rt1) ;;
     Rt2 <- call hconcat (env_hconcat env Rm t) ;;
     P2 <- call gemm (env_gemm env K Rt2) ;;
     let inlierMatches := inlierMatchesOf maskAt 0 matches in
     let inlierPts1 := flatPoints point1 inlierMatches in
     let inlierPts2 := flatPoints point2 inlierMatches in
     if (length inlierPts1 <? 10)%nat then ret []
     else
       let inlierMat1 := cv.matFromArray (length inlierPts1 / 2) 1 2 inlierPts1 in
       let inlierMat2 := cv.matFromArray (length inlierPts2 / 2) 1 2 inlierPts2 in
       points4D <- call triangulatePoints
                        (env_triangulatePoints env P1 P2 inlierMat1 inlierMat2) ;;
       validatePoints points4D inlierMatches camera1 camera2 intrinsics
                      (seq 0 (cv.cols points4D)) [])
    (fun _ => ret []).

Definition twoViewFailure : TwoViewResult.t := TwoViewResult.mk false [] [].

(** [performTwoViewReconstruction]; its arguments [features1] and
    [features2] are not read by the body. *)
Definition performTwoViewReconstruction (matches : list MatchedFeature)
  (features1 features2 : option ImageFeatures) (intrinsics : THREE.Matrix3)
  : M TwoViewResult.t :=
  try_catch
    (let points1 := flatPoints point1 matches in
     let points2 := flatPoints point2 matches in
     let pts1 := cv.matFromArray (length matches) 1 2 points1 in
     let pts2 := cv.matFromArray (length matches) 1 2 points2 in
     let K := cv.matFromArray 3 3 1
                [THREE.te0 intrinsics; THREE.te1 intrinsics; THREE.te2 intrinsics;
                 THREE.te3 intrinsics; THREE.te4 intrinsics; THREE.te5 intrinsics;
                 THREE.te6 intrinsics; THREE.te7 intrinsics; THREE.te8 intrinsics] in
     essentialMatrix <- call (findEssentialMat pts1 pts2 K cv.RANSAC 0.999 1)
                             (env_findEssentialMat env pts1 pts2 K cv.RANSAC 0.999 1) ;;
     if (cv.rows essentialMatrix =? 0)%nat then ret twoViewFailure
     else
       pose <- call recoverPose (env_recoverPose env essentialMatrix pts1 pts2 K) ;;
       if (cv.inlierCount pose <? 50)%Z then ret twoViewFailure
       else
         let camera1 := makeCamera1 intrinsics in
         let camera2 := makeCamera2 intrinsics (cv.poseR pose) (cv.poseT pose) in
         points3D <- triangulatePointsOpenCV matches camera1 camera2 intrinsics
                       (cv.maskAt pose) pts1 pts2 K (cv.poseR pose) (cv.poseT pose) ;;
         ret (TwoViewResult.mk true points3D [camera1; camera2]))
    (fun _ => ret twoViewFailure).

End Triangulation.

(** ** The stages that call the environment *)

Section Pipeline.

Variable env : Environment.
Local Open Scope monad_scope.

(** [waitForOpenCV]: [window.cvReady] is read once, then once per timer
    tick.  [fuel] bounds the number of ticks; [None] means that the
    promise is still pending after [fuel] ticks. *)
Fixpoint waitForOpenCV (fuel poll : nat) : option unit :=
  if cvReady env poll then Some tt
  else match fuel with
       | O => None
       | S fuel' => waitForOpenCV fuel' (S poll)
       end.

(** The conversion of a key point to a [FeaturePoint]. *)
Definition toFeaturePoint (kp : cv.KeyPoint) : FeaturePoint.t :=
  FeaturePoint.mk (cv.pt_x kp) (cv.pt_y kp) (cv.kp_response kp)
                  (Some (cv.kp_angle kp)) (Some (cv.kp_octave kp)).

(** The body of the loop of [extractORBFeatures] for image [i]; an image
    that fails is logged and skipped. *)
Definition extractOne (i : nat) (image : ProcessedImage.t) (imageFeatures : list ImageFeatures)
  : M (list ImageFeatures) :=
  try_catch
    (mat <- call (loadImage (ProcessedImage.processed image))
                 (env_loadImageToMat env (ProcessedImage.processed image)) ;;
     gray <- (if (cv.channels mat =? 4)%nat then
                call (cvtColor cv.COLOR_RGBA2GRAY) (env_cvtColor env mat cv.COLOR_RGBA2GRAY)
              else if (cv.channels mat =? 3)%nat then
                call (cvtColor cv.COLOR_RGB2GRAY) (env_cvtColor env mat cv.COLOR_RGB2GRAY)
              else ret mat) ;;
     ' (keypoints, descriptors) <- call detectAndCompute (env_detectAndCompute env gray) ;;
     let features := map toFeaturePoint keypoints in
     ret (imageFeatures ++ [mkImageFeatures image features descriptors keypoints i gray]))
    (fun _ => ret imageFeatures).

Fixpoint extractFrom (i : nat) (images : list ProcessedImage.t) (imageFeatures : list ImageFeatures)
  : M (list ImageFeatures) :=
  match images with
  | [] => ret imageFeatures
  | image :: rest =>
      imageFeatures' <- extractOne i image imageFeatures ;;
      extractFrom (S i) rest imageFeatures'
  end.

Definition extractORBFeatures (processedImages : list ProcessedImage.t) : M (list ImageFeatures) :=
  call ORB_create (env_ORB_create env) ;;;
  extractFrom 0 processedImages [].

(** The body of the double loop of [robustFeatureMatching] for the
    images at positions [i] and [j]; a pair that fails is logged and
    contributes nothing. *)
Definition matchPair (fi fj : ImageFeatures) (i j : nat) (matches : list MatchedFeature)
  : M (list MatchedFeature) :=
  try_catch
    (knnMatches <- call (knnMatch 2) (env_knnMatch env (descriptors fi) (descriptors fj) 2) ;;
     let goodMatches := goodMatchesOf knnMatches in
     crossCheckMatches <-
       (if (0 <? length goodMatches)%nat then
          backMatches <- call (knnMatch 2)
                              (env_knnMatch env (descriptors fj) (descriptors fi) 2) ;;
          ret (crossCheck backMatches goodMatches)
        else ret []) ;;
     let finalMatches := finalMatchesOf crossCheckMatches goodMatches in
     let bestMatches := bestMatchesOf finalMatches in
     ret (matches ++ convertMatches (features fi) (features fj) i j bestMatches))
    (fun _ => ret matches).

Fixpoint matchWith (fi : ImageFeatures) (i j : nat) (others : list ImageFeatures)
  (matches : list MatchedFeature) : M (list MatchedFeature) :=
  match others with
  | [] => ret matches
  | fj :: rest =>
      matches' <- matchPair fi fj i j matches ;;
      matchWith fi i (S j) rest matches'
  end.

Fixpoint matchFrom (i : nat) (imageFeatures : list ImageFeatures)
  (matches : list MatchedFeature) : M (list MatchedFeature) :=
  match imageFeatures with
  | [] => ret matches
  | fi :: rest =>
      matches' <- matchWith fi i (S i) rest matches ;;
      matchFrom (S i) rest matches'
  end.

Definition robustFeatureMatching (imageFeatures : list ImageFeatures)
  : M (list MatchedFeature) :=
  call BFMatcher (env_BFMatcher env) ;;;
  matchFrom 0 imageFeatures [].

(** [estimateCameraIntrinsics(processedImages[0])]; reading [processed]
    of an undefined image throws. *)
Definition estimateCameraIntrinsics (image : option ProcessedImage.t)
  : M (THREE.Matrix3 * nat * nat) :=
  match image with
  | None => throw (TypeError "image is undefined")
  | Some image =>
      mat <- call (loadImage (ProcessedImage.processed image))
                  (env_loadImageToMat env (ProcessedImage.processed image)) ;;
      let width := cv.cols mat in
      let height := cv.rows mat in
      let fx := INR width * 1.2 in
      let fy := fx in
      let cx := INR width / 2 in
      let cy := INR height / 2 in
      ret (THREE.set fx 0 cx 0 fy cy 0 0 1, width, height)
  end.

Definition sfmFailure (message : string) : ReconstructionResult :=
  mkReconstructionResult [] [] false (Some message).

(** The text of [`${error}`]. *)
Definition describe (e : exn) : string :=
  match e with
  | CvException what => what
  | ImageLoadError => "[object Event]"
  | TypeError what => ("TypeError: " ++ what)%string
  end.

(** [imageFeatures[index]]. *)
Definition featuresAt (imageFeatures : list ImageFeatures) (index : jsindex)
  : option ImageFeatures :=
  match index with
  | Some i => nth_error imageFeatures i
  | None => None
  end.

Definition performSfMReconstruction (imageFeatures : list ImageFeatures)
  (matches : list MatchedFeature) (intrinsics : THREE.Matrix3) : M ReconstructionResult :=
  if (length matches <? 50)%nat then
    ret (sfmFailure "Insufficient feature matches for reconstruction")
  else
    try_catch
      (match findBestInitialPair matches with
       | None => ret (sfmFailure "Could not find suitable image pair for initialization")
       | Some initPair =>
           twoViewResult <- performTwoViewReconstruction env (pair_matches initPair)
                              (featuresAt imageFeatures (image1 initPair))
                              (featuresAt imageFeatures (image2 initPair))
                              intrinsics ;;
           if negb (TwoViewResult.success twoViewResult) then
             ret (sfmFailure "Two-view reconstruction failed")
           else
             ret (mkReconstructionResult (TwoViewResult.points3D twoViewResult)
                                         (TwoViewResult.cameras twoViewResult) true None)
       end)
      (fun error => ret (sfmFailure ("SfM reconstruction error: " ++ describe error)%string)).

(** ** Point-cloud assembly and the fallback model *)

Definition createEmptyModel : Generated3DModel :=
  let geometry := THREE.BoxGeometry 1 1 1 in
  let material := THREE.MeshPhongMaterial 8947848%N in
  let vertices := THREE.position geometry in
  let faces := match THREE.index geometry with
               | Some array => array
               | None => []
               end in
  mkGenerated3DModel geometry material vertices faces None.

Definition createFallbackModel (processedImages : list ProcessedImage.t) : Generated3DModel :=
  createEmptyModel.

(** [generateMeshFromPointCloud].  The buffers are [Float32Array]s: a
    number that is not a single-precision value is rounded when it is
    stored, which the lists of numbers below do not represent. *)
Definition generateMeshFromPointCloud (points3D : list Point3D.t) : Generated3DModel :=
  if (length points3D =? 0)%nat then createEmptyModel
  else
    let vertices :=
      flat_map (fun point => [THREE.x (Point3D.position point);
                              THREE.y (Point3D.position point);
                              THREE.z (Point3D.position point)]) points3D in
    let colors :=
      flat_map (fun point => [THREE.r (Point3D.color point);
                              THREE.g (Point3D.color point);
                              THREE.b (Point3D.color point)]) points3D in
    let geometry := THREE.mkBufferGeometry vertices (Some colors) None in
    let material := THREE.PointsMaterial 0.02 true true true 0.8 in
    let faces := [] in
    mkGenerated3DModel geometry material vertices faces None.

(** ** The top level *)

(** The body of the [try] block of [generateModel].  The console output
    and [cleanupOpenCVResources], which catches its own errors and returns
    nothing, are not represented. *)
Definition runPipeline (processedImages : list ProcessedImage.t) : M Generated3DModel :=
  imageFeatures <- extractORBFeatures processedImages ;;
  matches <- robustFeatureMatching imageFeatures ;;
  ' (intrinsics, _, _) <- estimateCameraIntrinsics (nth_error processedImages 0) ;;
  reconstruction <- performSfMReconstruction imageFeatures matches intrinsics ;;
  if negb (success reconstruction) then
    ret (createFallbackModel processedImages)
  else
    ret (generateMeshFromPointCloud (points3D reconstruction)).

(** [generateModel]: [None] while [waitForOpenCV] is pending, otherwise
    what the promise settles to and the world it leaves. *)
Definition generateModel (fuel : nat) (processedImages : list ProcessedImage.t) (w : World)
  : option (outcome Generated3DModel * World) :=
  match waitForOpenCV fuel 0 with
  | None => None
  | Some _ =>
      Some (try_catch (runPipeline processedImages)
                      (fun _ => ret (createFallbackModel processedImages)) w)
  end.

End Pipeline.

(** * Further code of the pipeline *)

(** ** Rays through a pixel *)

(** More of [Vector3]: [length()], [multiplyScalar(s)],
    [divideScalar(s)], which multiplies by [1 / s], and [normalize()],
    which divides by [length() || 1]. *)
Definition Vector3_length (v : THREE.Vector3) : number :=
  JS.sqrt (THREE.x v * THREE.x v + THREE.y v * THREE.y v + THREE.z v * THREE.z v).

Definition Vector3_multiplyScalar (v : THREE.Vector3) (s : number) : THREE.Vector3 :=
  THREE.mkVector3 (THREE.x v * s) (THREE.y v * s) (THREE.z v * s).

Definition Vector3_divideScalar (v : THREE.Vector3) (s : number) : THREE.Vector3 :=
  Vector3_multiplyScalar v (1 / s).

Definition Vector3_normalize (v : THREE.Vector3) : THREE.Vector3 :=
  Vector3_divideScalar v
    (if Req_dec_T (Vector3_length v) 0 then 1 else Vector3_length v).

Record Ray : Type := mkRay { origin : THREE.Vector3; direction : THREE.Vector3 }.

(** [unprojectPoint]: [None] stands for the non-finite ray computed
    when a focal length read from the matrix is zero. *)
Definition unprojectPoint (point : FeaturePoint.t) (camera : CameraPose)
  (intrinsics : THREE.Matrix3) : option Ray :=
  let fx := THREE.te0 intrinsics in
  let fy := THREE.te4 intrinsics in
  let cx := THREE.te2 intrinsics in
  let cy := THREE.te5 intrinsics in
  if Req_dec_T fx 0 then None
  else if Req_dec_T fy 0 then None
  else
    let x := (FeaturePoint.x point - cx) / fx in
    let y := (FeaturePoint.y point - cy) / fy in
    let direction := Vector3_normalize (THREE.mkVector3 x y 1) in
    let worldDirection := THREE.applyMatrix3 direction (THREE.transpose (rotation camera)) in
    let worldOrigin := position camera in
    Some (mkRay worldOrigin worldDirection).

(** ** Sorting an array with a comparator *)

(** [array.sort(compare)].  The sort is stable and [compare(a, b) > 0]
    puts [a] after [b]; for a comparator that is the difference of a
    numeric key this is the result of the insertion sort that puts an
    element before the first one that does not have to precede it. *)
Fixpoint Array_insert {A} (compare : A -> A -> number) (a : A) (l : list A) : list A :=
  match l with
  | [] => [a]
  | b :: l' => if JS.gtb (compare a b) 0
               then b :: Array_insert compare a l'
               else a :: b :: l'
  end.

Fixpoint Array_sort {A} (compare : A -> A -> number) (l : list A) : list A :=
  match l with
  | [] => []
  | a :: l' => Array_insert compare a (Array_sort compare l')
  end.

(** * The simplified pipeline of [photogrammetry.ts] *)

Module Simplified.

Record FeaturePoint : Type := mkFeaturePoint {
  x : number; y : number; descriptor : list number }.

Record ImageFeatures : Type := mkImageFeatures {
  image : ProcessedImage.t; features : list FeaturePoint; imageIndex : nat }.

Record MatchedFeature : Type := mkMatchedFeature {
  point1 : FeaturePoint; point2 : FeaturePoint;
  image1Index : nat; image2Index : nat; confidence : number }.

(** [new THREE.Euler(x, y, z)], in the default order. *)
Record Euler : Type := mkEuler { ex : number; ey : number; ez : number }.

Record CameraPose : Type := mkCameraPose {
  position : THREE.Vector3; rotation : Euler; focalLength : number }.

Record Point3D : Type := mkPoint3D {
  point_position : THREE.Vector3; point_color : THREE.Color; point_confidence : number }.

(** ** Descriptors *)

(** The offsets [-patchSize, -patchSize + 2, ..., patchSize] of the two
    loops of [computeDescriptor]. *)
Definition patchOffsets : list Z := [-8; -6; -4; -2; 0; 2; 4; 6; 8]%Z.

(** What is pushed for the offsets [dx] and [dy]: the grey value of the
    pixel, which is undefined ([None]) when the array has no such entry,
    or 0 when the pixel is outside the image. *)
Definition patchSample (gray : list number) (x y width height : nat) (dy dx : Z)
  : option number :=
  let nx := (Z.of_nat x + dx)%Z in
  let ny := (Z.of_nat y + dy)%Z in
  if ((0 <=? nx) && (nx <? Z.of_nat width) && (0 <=? ny) && (ny <? Z.of_nat height))%Z
  then nth_error gray (Z.to_nat (ny * Z.of_nat width + nx))
  else Some 0.

Definition patch (gray : list number) (x y width height : nat) : list (option number) :=
  flat_map (fun dy => map (patchSample gray x y width height dy) patchOffsets) patchOffsets.

(** [descriptor.reduce((sum, val) => sum + val * val, 0)]; the sum is
    not a number ([None]) once an entry is undefined. *)
Definition reduceSquares (descriptor : list (option number)) : option number :=
  fold_left (fun sum val =>
               match sum, val with
               | Some sum, Some val => Some (sum + val * val)
               | _, _ => None
               end) descriptor (Some 0).

(** [computeDescriptor]: a magnitude that is not a number is not above
    0, so every entry becomes 0. *)
Definition computeDescriptor (gray : list number) (x y width height : nat) : list number :=
  let descriptor := patch gray x y width height in
  match reduceSquares descriptor with
  | Some sum =>
      let magnitude := JS.sqrt sum in
      map (fun val => match val with
                      | Some val => if JS.gtb magnitude 0 then val / magnitude else 0
                      | None => 0
                      end) descriptor
  | None => map (fun _ => 0) descriptor
  end.

(** ** Feature matching *)

(** The loop of [computeDescriptorDistance] over the common indices of
    the two descriptors; [distance] is the sum so far. *)
Fixpoint sumOfSquares (distance : number) (desc1 desc2 : list number) : number :=
  match desc1, desc2 with
  | a :: rest1, b :: rest2 => sumOfSquares (distance + JS.pow2 (a - b)) rest1 rest2
  | _, _ => distance
  end.

Definition computeDescriptorDistance (desc1 desc2 : list number) : number :=
  JS.sqrt (sumOfSquares 0 desc1 desc2).

(** The value of [bestDistance] and [secondBestDistance]: a distance or
    the initial [Infinity]. *)
Inductive bound : Type :=
| Finite (distance : number)
| Infinity.

(** [distance < b] for a distance and a bound. *)
Definition below (distance : number) (b : bound) : bool :=
  match b with
  | Finite d => JS.ltb distance d
  | Infinity => true
  end.

Record Nearest : Type := mkNearest {
  bestMatch : option FeaturePoint; bestDistance : bound; secondBestDistance : bound }.

(** The body of the loop over [features2]. *)
Definition nearestStep (feature1 : FeaturePoint) (st : Nearest) (feature2 : FeaturePoint)
  : Nearest :=
  let distance := computeDescriptorDistance (descriptor feature1) (descriptor feature2) in
  if below distance (bestDistance st) then
    mkNearest (Some feature2) (Finite distance) (bestDistance st)
  else if below distance (secondBestDistance st) then
    mkNearest (bestMatch st) (bestDistance st) (Finite distance)
  else st.

Definition nearest (feature1 : FeaturePoint) (features2 : list FeaturePoint) : Nearest :=
  fold_left (nearestStep feature1) features2 (mkNearest None Infinity Infinity).

(** The ratio test and the push for [feature1].  With [Infinity] as the
    second distance the test [bestDistance < 0.7 * Infinity] holds and
    the quotient [bestDistance / Infinity] is 0. *)
Definition matchFeature (i j : nat) (features2 : list FeaturePoint)
  (matches : list MatchedFeature) (feature1 : FeaturePoint) : list MatchedFeature :=
  let st := nearest feature1 features2 in
  match bestMatch st, bestDistance st with
  | Some best, Finite bestDistance =>
      match secondBestDistance st with
      | Infinity => matches ++ [mkMatchedFeature feature1 best i j (1 - 0)]
      | Finite secondBestDistance =>
          if JS.ltb bestDistance (0.7 * secondBestDistance) then
            matches ++ [mkMatchedFeature feature1 best i j
                                         (1 - bestDistance / secondBestDistance)]
          else matches
      end
  | _, _ => matches
  end.

Definition matchPair (i j : nat) (fi fj : ImageFeatures) (matches : list MatchedFeature)
  : list MatchedFeature :=
  fold_left (matchFeature i j (features fj)) (features fi) matches.

Fixpoint matchWith (fi : ImageFeatures) (i j : nat) (others : list ImageFeatures)
  (matches : list MatchedFeature) : list MatchedFeature :=
  match others with
  | [] => matches
  | fj :: rest => matchWith fi i (S j) rest (matchPair i j fi fj matches)
  end.

Fixpoint matchFrom (i : nat) (imageFeatures : list ImageFeatures)
  (matches : list MatchedFeature) : list MatchedFeature :=
  match imageFeatures with
  | [] => matches
  | fi :: rest => matchFrom (S i) rest (matchWith fi i (S i) rest matches)
  end.

(** [matches.sort((a, b) => b.confidence - a.confidence).slice(0, 1000)]. *)
Definition matchFeatures (imageFeatures : list ImageFeatures) : list MatchedFeature :=
  firstn 1000 (Array_sort (fun a b => confidence b - confidence a)
                          (matchFrom 0 imageFeatures [])).

(** ** Camera poses *)

(** The pose pushed for the image [i] of [n]. *)
Definition poseOf (n : nat) (matches : list MatchedFeature) (i : nat) : CameraPose :=
  let imageMatches :=
    filter (fun m => ((image1Index m =? 0)%nat && (image2Index m =? i)%nat)
                     || ((image1Index m =? i)%nat && (image2Index m =? 0)%nat)) matches in
  if (8 <=? length imageMatches)%nat then
    let angle := INR i / INR n * 2 * PI in
    let radius := 3 in
    mkCameraPose (THREE.mkVector3 (radius * cos angle) 0 (radius * sin angle))
                 (mkEuler 0 (- angle) 0) 800
  else
    mkCameraPose (THREE.mkVector3 (INR i * 0.5 - INR n * 0.25) 0 2) (mkEuler 0 0 0) 800.

Definition estimateCameraPoses (imageFeatures : list ImageFeatures)
  (matches : list MatchedFeature) : list CameraPose :=
  mkCameraPose (THREE.mkVector3 0 0 0) (mkEuler 0 0 0) 800
  :: map (poseOf (length imageFeatures) matches) (seq 1 (length imageFeatures - 1)).

(** ** The shape of the object in an image *)

(** An [ImageData]: [data] holds four bytes per pixel, row by row. *)
Record ImageData : Type := mkImageData { data : list nat; width : nat; height : nat }.

(** The variables of the scan of [extractObjectBounds]. *)
Record Scan : Type := mkScan {
  minX : nat; maxX : nat; minY : nat; maxY : nat;
  pixelCount : nat; totalR : nat; totalG : nat; totalB : nat }.

(** The body of the inner loop for the pixel [(x, y)].  A read past the
    end of [data] gives [undefined], which is not above 128; when the
    alpha byte is defined so are the three bytes before it. *)
Definition scanPixel (imageData : ImageData) (y : nat) (st : Scan) (x : nat) : Scan :=
  let idx := ((y * width imageData + x) * 4)%nat in
  match nth_error (data imageData) (idx + 3) with
  | Some alpha =>
      if (128 <? alpha)%nat then
        mkScan (Nat.min (minX st) x) (Nat.max (maxX st) x)
               (Nat.min (minY st) y) (Nat.max (maxY st) y)
               (S (pixelCount st))
               (totalR st + nth idx (data imageData) 0)%nat
               (totalG st + nth (idx + 1) (data imageData) 0)%nat
               (totalB st + nth (idx + 2) (data imageData) 0)%nat
      else st
  | None => st
  end.

Definition scanRow (imageData : ImageData) (st : Scan) (y : nat) : Scan :=
  fold_left (scanPixel imageData y) (seq 0 (width imageData)) st.

Definition scanImage (imageData : ImageData) : Scan :=
  fold_left (scanRow imageData) (seq 0 (height imageData))
            (mkScan (width imageData) 0 (height imageData) 0 0 0 0 0)%nat.

Record Shape : Type := mkShape {
  centerX : number; centerY : number; objectWidth : number; objectHeight : number;
  density : number; avgColor : THREE.Color; aspectRatio : number }.

(** [extractObjectBounds]: [None] stands for the record with fields
    that are not numbers, computed for an image without pixels. *)
Definition extractObjectBounds (imageData : ImageData) : option Shape :=
  if ((width imageData =? 0) || (height imageData =? 0))%nat then None
  else
    let st := scanImage imageData in
    let width := INR (width imageData) in
    let height := INR (height imageData) in
    let centerX := (INR (minX st) + INR (maxX st)) / 2 / width in
    let centerY := (INR (minY st) + INR (maxY st)) / 2 / height in
    let objectWidth := (INR (maxX st) - INR (minX st)) / width in
    let objectHeight := (INR (maxY st) - INR (minY st)) / height in
    let density := INR (pixelCount st) / (width * height) in
    let avgColor :=
      if (0 <? pixelCount st)%nat then
        THREE.mkColor (INR (totalR st) / INR (pixelCount st) / 255)
                      (INR (totalG st) / INR (pixelCount st) / 255)
                      (INR (totalB st) / INR (pixelCount st) / 255)
      else THREE.mkColor 0.5 0.5 0.5 in
    Some (mkShape centerX centerY objectWidth objectHeight density avgColor
                  (if JS.gtb objectHeight 0 then objectWidth / objectHeight else 1)).

(** ** The point cloud made from the shapes *)

Section PointCloud.

Variable env : Environment.

(** [Color.offsetHSL(h, s, l)] of three.js. *)
Variable offsetHSL : THREE.Color -> number -> number -> number -> THREE.Color.

Local Open Scope monad_scope.

(** A loop that runs [body] [n] times and pushes its results. *)
Fixpoint pushTimes (n : nat) (body : M Point3D) (points3D : list Point3D)
  : M (list Point3D) :=
  match n with
  | O => ret points3D
  | S n' => point <- body ;; pushTimes n' body (points3D ++ [point])
  end.

(** The body of the loop of [createDefaultShape]. *)
Definition defaultPoint : M Point3D :=
  r1 <- random env ;;
  r2 <- random env ;;
  r3 <- random env ;;
  ret (mkPoint3D (THREE.mkVector3 ((r1 - 0.5) * 2) ((r2 - 0.5) * 2) ((r3 - 0.5) * 2))
                 (THREE.mkColor 0.6 0.6 0.7) 0.5).

Definition createDefaultShape : M (list Point3D) := pushTimes 800 defaultPoint [].

(** [shapeBounds.reduce((sum, s) => sum + s.field, 0) / shapeBounds.length]. *)
Definition average (field : Shape -> number) (shapeBounds : list Shape) : number :=
  fold_left (fun sum s => sum + field s) shapeBounds 0 / INR (length shapeBounds).

(** [shapeBounds[index]] for an index computed by [Math.floor]. *)
Definition shapeAt (shapeBounds : list Shape) (index : Z) : option Shape :=
  if (index <? 0)%Z then None else nth_error shapeBounds (Z.to_nat index).

(** The body of the loop of [generateShapeBasedPointCloud]; it throws
    when [shape] is undefined.  [Math.acos] is applied to [2 * r - 1]
    for a random number [r]. *)
Definition shapePoint (shapeBounds : list Shape) (scaleX scaleY scaleZ avgAspectRatio : number)
  : M Point3D :=
  r1 <- random env ;;
  let phi := r1 * PI * 2 in
  r2 <- random env ;;
  let theta := acos (2 * r2 - 1) in
  let x := sin theta * cos phi * scaleX in
  let y := sin theta * sin phi * scaleY in
  let z := cos theta * scaleZ in
  let position :=
    if JS.ltb avgAspectRatio 0.7 then THREE.mkVector3 x (y * 0.7) (z * 1.2)
    else if JS.gtb avgAspectRatio 1.4 then THREE.mkVector3 (x * 0.8) (y * 1.3) z
    else THREE.mkVector3 x y z in
  r3 <- random env ;;
  let shapeIndex := Zfloor (r3 * INR (length shapeBounds)) in
  match shapeAt shapeBounds shapeIndex with
  | None => throw (TypeError "shape is undefined")
  | Some shape =>
      let color := THREE.mkColor (THREE.r (avgColor shape)) (THREE.g (avgColor shape))
                                 (THREE.b (avgColor shape)) in
      r4 <- random env ;;
      r5 <- random env ;;
      r6 <- random env ;;
      let color := offsetHSL color ((r4 - 0.5) * 0.1) ((r5 - 0.5) * 0.2) ((r6 - 0.5) * 0.3) in
      r7 <- random env ;;
      ret (mkPoint3D position color (0.7 + r7 * 0.3))
  end.

(** [Math.max(500, Math.min(2000, Math.floor(avgDensity * 3000)))].  The
    product is the exact one; the product of doubles can fall just below
    an integer that the exact product reaches, and its floor is then one
    less.  The bounds 500 and 2000 do not depend on it. *)
Definition numPointsOf (avgDensity : number) : Z :=
  Z.max 500 (Z.min 2000 (Zfloor (avgDensity * 3000))).

Definition generateShapeBasedPointCloud (shapeBounds : list Shape) : M (list Point3D) :=
  if (length shapeBounds =? 0)%nat then createDefaultShape
  else
    let avgWidth := average objectWidth shapeBounds in
    let avgHeight := average objectHeight shapeBounds in
    let avgAspectRatio := average aspectRatio shapeBounds in
    let avgDensity := average density shapeBounds in
    let scaleX := Rmax 0.5 (avgWidth * 3) in
    let scaleY := Rmax 0.5 (avgHeight * 3) in
    let scaleZ := Rmax 0.5 (JS.sqrt avgDensity * 2) in
    let numPoints := numPointsOf avgDensity in
    pushTimes (Z.to_nat numPoints)
              (shapePoint shapeBounds scaleX scaleY scaleZ avgAspectRatio) [].

End PointCloud.

(** ** The mesh *)

(** [a % b] and the conversion of a number to an element of a
    [Uint32Array]; both truncate towards zero. *)
Definition truncate (a : number) : Z := if Rlt_dec a 0 then Zceil a else Zfloor a.

Definition remainder (a b : number) : number := a - b * IZR (truncate (a / b)).

Definition ToUint32 (a : number) : nat := Z.to_nat (truncate a mod 4294967296).

(** An element of [sortedPoints]. *)
Record Indexed : Type := mkIndexed { index : nat; point : Point3D; distance : number }.

(** [points3D.map((point, index) => ...)] from the index [index] on. *)
Fixpoint indexFrom (index : nat) (points3D : list Point3D) : list Indexed :=
  match points3D with
  | [] => []
  | point :: rest =>
      mkIndexed index point (Vector3_length (point_position point))
      :: indexFrom (S index) rest
  end.

Definition sortPoints (points3D : list Point3D) : list Indexed :=
  Array_sort (fun a b => distance a - distance b) (indexFrom 0 points3D).

(** The body of the inner loop over a layer; [None] stands for the
    [TypeError] of reading [index] of an undefined [sortedPoints[i]]. *)
Definition connect (sortedPoints : list Indexed) (layerSize : nat)
  (faces : option (list number)) (i : nat) : option (list number) :=
  match faces, nth_error sortedPoints i with
  | Some faces, Some current =>
      let right_ := option_map index (nth_error sortedPoints (i + 1)) in
      let down_ := option_map index (nth_error sortedPoints (i + layerSize)) in
      let diag_ := option_map index (nth_error sortedPoints (i + layerSize + 1)) in
      match right_, down_ with
      | Some r, Some d =>
          let faces := faces ++ [INR (index current); INR r; INR d] in
          match diag_ with
          | Some g => Some (faces ++ [INR r; INR g; INR d])
          | None => Some faces
          end
      | _, _ => Some faces
      end
  | _, _ => None
  end.

(** The body of the loop over the layers: [i] runs from [startIdx]
    while [i < endIdx - layerSize - 1]. *)
Definition connectLayer (sortedPoints : list Indexed) (layerSize : nat)
  (faces : option (list number)) (layer : nat) : option (list number) :=
  let startIdx := (layer * layerSize * layerSize)%nat in
  let endIdx := Nat.min ((layer + 1) * layerSize * layerSize) (length sortedPoints) in
  fold_left (connect sortedPoints layerSize)
            (seq startIdx (endIdx - layerSize - 1 - startIdx)) faces.

(** The loop of the radial connections, [i] being its counter and
    [pointCount] the number of points; it ends before [i] reaches 100 and
    [fuel] bounds the iterations left. *)
Fixpoint connectRadially (fuel i : nat) (pointCount : nat) (numRadialConnections : number)
  (faces : list number) : list number :=
  match fuel with
  | O => faces
  | S fuel' =>
      if JS.ltb (INR i) numRadialConnections then
        let next := remainder (INR (i + 1)) numRadialConnections in
        connectRadially fuel' (S i) pointCount numRadialConnections
          (if JS.ltb next (INR pointCount) then faces ++ [0; INR i; next] else faces)
      else faces
  end.

Definition generateDelaunayTriangulation (points3D : list Point3D) : option (list nat) :=
  let sortedPoints := sortPoints points3D in
  let layerSize := Z.to_nat (Zfloor (JS.sqrt (INR (length points3D) / 4))) in
  match fold_left (connectLayer sortedPoints layerSize) [0; 1; 2; 3]%nat (Some []) with
  | None => None
  | Some faces =>
      let numRadialConnections := Rmin 100 (INR (length points3D) / 10) in
      Some (map ToUint32
                (connectRadially 100 1 (length points3D) numRadialConnections faces))
  end.

(** [new THREE.MeshLambertMaterial({ vertexColors, side })]. *)
Inductive Side : Type := FrontSide | BackSide | DoubleSide.

Record MeshLambertMaterial : Type := mkMeshLambertMaterial {
  vertexColors : bool; side : Side }.

(** The [Generated3DModel] that [generateMesh] returns, with the
    material of this pipeline; the normals that [computeVertexNormals]
    adds to the geometry are not represented. *)
Record Generated3DModel : Type := mkGenerated3DModel {
  geometry : THREE.BufferGeometry;
  material : MeshLambertMaterial;
  vertices : list number;
  faces : list nat;
  sourceImageCount : option nat }.

(** [generateMesh]; [None] when the triangulation throws. *)
Definition generateMesh (points3D : list Point3D) (sourceImageCount : nat)
  : option Generated3DModel :=
  let vertices :=
    flat_map (fun point => [THREE.x (point_position point);
                            THREE.y (point_position point);
                            THREE.z (point_position point)]) points3D in
  let colors :=
    flat_map (fun point => [THREE.r (point_color point);
                            THREE.g (point_color point);
                            THREE.b (point_color point)]) points3D in
  match generateDelaunayTriangulation points3D with
  | None => None
  | Some faces =>
      let geometry := THREE.mkBufferGeometry vertices (Some colors) (Some faces) in
      let material := mkMeshLambertMaterial true DoubleSide in
      Some (mkGenerated3DModel geometry material vertices faces (Some sourceImageCount))
  end.

End Simplified.

(** * The earlier version of the simplified pipeline

    The second module of [part_005] has the matcher, the descriptors
    and the camera poses of [Simplified]; its triangulation and its mesh
    differ. *)

Module Earlier.

(** [triangulatePoint]: the two ray directions are computed and not
    used; the point is the middle of the two camera positions. *)
Definition triangulatePoint (point1 point2 : Simplified.FeaturePoint)
  (pose1 pose2 : Simplified.CameraPose) : option Simplified.Point3D :=
  let direction1 :=
    Vector3_normalize
      (THREE.mkVector3 ((Simplified.x point1 - 320) / Simplified.focalLength pose1)
                       ((Simplified.y point1 - 240) / Simplified.focalLength pose1) 1) in
  let direction2 :=
    Vector3_normalize
      (THREE.mkVector3 ((Simplified.x point2 - 320) / Simplified.focalLength pose2)
                       ((Simplified.y point2 - 240) / Simplified.focalLength pose2) 1) in
  let midpoint :=
    Vector3_multiplyScalar
      (THREE.add (Simplified.position pose1) (Simplified.position pose2)) 0.5 in
  Some (Simplified.mkPoint3D midpoint (THREE.mkColor 0.7 0.7 0.7) 0.8).

(** The body of the loop over the matches. *)
Definition triangulateMatch (cameraPoses : list Simplified.CameraPose)
  (points3D : list Simplified.Point3D) (m : Simplified.MatchedFeature)
  : list Simplified.Point3D :=
  match nth_error cameraPoses (Simplified.image1Index m),
        nth_error cameraPoses (Simplified.image2Index m) with
  | Some pose1, Some pose2 =>
      match triangulatePoint (Simplified.point1 m) (Simplified.point2 m) pose1 pose2 with
      | Some point3D => points3D ++ [point3D]
      | None => points3D
      end
  | _, _ => points3D
  end.

Section Random.

Variable env : Environment.
Local Open Scope monad_scope.

(** The body of the loop over the additional points. *)
Definition additionalPoint : M Simplified.Point3D :=
  r1 <- random env ;;
  let x := (r1 - 0.5) * 4 in
  r2 <- random env ;;
  let y := (r2 - 0.5) * 2 in
  r3 <- random env ;;
  let z := (r3 - 0.5) * 4 in
  r4 <- random env ;;
  r5 <- random env ;;
  r6 <- random env ;;
  r7 <- random env ;;
  ret (Simplified.mkPoint3D (THREE.mkVector3 x y z) (THREE.mkColor r4 r5 r6) r7).

Definition triangulatePoints (imageFeatures : list Simplified.ImageFeatures)
  (matches : list Simplified.MatchedFeature) (cameraPoses : list Simplified.CameraPose)
  : M (list Simplified.Point3D) :=
  let points3D := fold_left (triangulateMatch cameraPoses) matches [] in
  let numAdditionalPoints := 2000%nat in
  Simplified.pushTimes numAdditionalPoints additionalPoint points3D.

(** [Math.floor(Math.random() * points3D.length)]. *)
Definition randomIndex (pointCount : nat) : M Z :=
  r <- random env ;;
  ret (Zfloor (r * INR pointCount)).

(** The first loop of [generateDelaunayTriangulation], [i] being its
    counter: it advances in steps of 3 while [i < points3D.length - 2];
    [fuel] bounds the iterations left. *)
Fixpoint consecutiveFaces (fuel i pointCount : nat) (faces : list Z) : list Z :=
  match fuel with
  | O => faces
  | S fuel' =>
      if (Z.of_nat i <? Z.of_nat pointCount - 2)%Z then
        consecutiveFaces fuel' (i + 3) pointCount
          (faces ++ [Z.of_nat i; Z.of_nat (i + 1); Z.of_nat (i + 2)])
      else faces
  end.

(** The second loop, [n] iterations. *)
Fixpoint additionalFaces (n pointCount : nat) (faces : list Z) : M (list Z) :=
  match n with
  | O => ret faces
  | S n' =>
      a <- randomIndex pointCount ;;
      b <- randomIndex pointCount ;;
      c <- randomIndex pointCount ;;
      additionalFaces n' pointCount
        (if negb (a =? b)%Z && negb (b =? c)%Z && negb (a =? c)%Z
         then faces ++ [a; b; c] else faces)
  end.

(** The conversion of an integer to an element of a [Uint32Array]. *)
Definition toUint32 (a : Z) : nat := Z.to_nat (a mod 4294967296).

Definition generateDelaunayTriangulation (points3D : list Simplified.Point3D)
  : M (list nat) :=
  let faces := consecutiveFaces (length points3D) 0 (length points3D) [] in
  let numAdditionalFaces := Nat.min 1000 (length points3D / 2) in
  faces <- additionalFaces numAdditionalFaces (length points3D) faces ;;
  ret (map toUint32 faces).

(** [generateMesh]: the triangulation is called first, on the world the
    function is entered with.  The identifiers that the constructors of
    [BufferGeometry] and of the material draw afterwards from
    [Math.random] are not represented in the world it leaves. *)
Definition generateMesh (points3D : list Simplified.Point3D) (sourceImageCount : nat)
  : M Simplified.Generated3DModel :=
  let vertices :=
    flat_map (fun point => [THREE.x (Simplified.point_position point);
                            THREE.y (Simplified.point_position point);
                            THREE.z (Simplified.point_position point)]) points3D in
  let colors :=
    flat_map (fun point => [THREE.r (Simplified.point_color point);
                            THREE.g (Simplified.point_color point);
                            THREE.b (Simplified.point_color point)]) points3D in
  faces <- generateDelaunayTriangulation points3D ;;
  let geometry := THREE.mkBufferGeometry vertices (Some colors) (Some faces) in
  let material := Simplified.mkMeshLambertMaterial true Simplified.DoubleSide in
  ret (Simplified.mkGenerated3DModel geometry material vertices faces
                                     (Some sourceImageCount)).

End Random.

End Earlier.

(** * The export of a model ([objExporter.ts]) *)

Section ObjExporter.

(** [x.toFixed(6)] on a number. *)
Variable toFixed6 : number -> string.

Definition newline : string := String "010"%char EmptyString.

(** The loop over the vertices, three at a time, from the remaining
    part of [vertices]; [y] or [z] is undefined when fewer than three
    numbers remain, and [toFixed] of undefined throws. *)
Fixpoint writeVertices (vertices : list number) (objContent : string) : outcome string :=
  match vertices with
  | [] => Returns objContent
  | x :: rest =>
      match rest with
      | y :: z :: rest' =>
          writeVertices rest'
            (objContent ++ "v " ++ toFixed6 x ++ " " ++ toFixed6 y ++ " " ++ toFixed6 z
                        ++ newline)%string
      | _ => Throws (TypeError "Cannot read properties of undefined (reading 'toFixed')")
      end
  end.

(** The text of [faces[i] + 1] in a template literal; an undefined
    entry gives [NaN]. *)
Definition oneBased (entry : option nat) : string :=
  match entry with
  | Some a => toString (a + 1)
  | None => "NaN"
  end.

(** The loop over the faces, three entries at a time. *)
Fixpoint writeFaces (faces : list nat) (objContent : string) : string :=
  match faces with
  | [] => objContent
  | a :: rest =>
      match rest with
      | b :: c :: rest' =>
          writeFaces rest'
            (objContent ++ "f " ++ oneBased (Some a) ++ " " ++ oneBased (Some b) ++ " "
                        ++ oneBased (Some c) ++ newline)%string
      | _ =>
          (objContent ++ "f " ++ oneBased (Some a) ++ " " ++ oneBased (nth_error rest 0)
                      ++ " " ++ oneBased (nth_error rest 1) ++ newline)%string
      end
  end.

Definition exportToOBJ (model : Generated3DModel) : outcome string :=
  let vertices := vertices model in
  let faces := faces model in
  let objContent := ("# Vision3D Generated Model" ++ newline)%string in
  let objContent :=
    (objContent ++ "# Created by Vision3D Photogrammetry" ++ newline ++ newline)%string in
  let objContent := (objContent ++ "# Vertices" ++ newline)%string in
  match writeVertices vertices objContent with
  | Throws e => Throws e
  | Returns objContent =>
      let objContent := (objContent ++ newline ++ "# Faces" ++ newline)%string in
      Returns (writeFaces faces objContent)
  end.

End ObjExporter.

(** * Vocabulary of the properties *)

(** The product of the recovered rotation with a vector, and of its
    transpose with a vector, written on the row-major OpenCV matrix. *)
Definition rotate (Rm : cv.Mat3x3) (v : THREE.Vector3) : THREE.Vector3 :=
  THREE.mkVector3
    (cv.a00 Rm * THREE.x v + cv.a01 Rm * THREE.y v + cv.a02 Rm * THREE.z v)
    (cv.a10 Rm * THREE.x v + cv.a11 Rm * THREE.y v + cv.a12 Rm * THREE.z v)
    (cv.a20 Rm * THREE.x v + cv.a21 Rm * THREE.y v + cv.a22 Rm * THREE.z v).

Definition rotateTransposed (Rm : cv.Mat3x3) (v : THREE.Vector3) : THREE.Vector3 :=
  THREE.mkVector3
    (cv.a00 Rm * THREE.x v + cv.a10 Rm * THREE.y v + cv.a20 Rm * THREE.z v)
    (cv.a01 Rm * THREE.x v + cv.a11 Rm * THREE.y v + cv.a21 Rm * THREE.z v)
    (cv.a02 Rm * THREE.x v + cv.a12 Rm * THREE.y v + cv.a22 Rm * THREE.z v).

(** A quarter turn about the optical axis and a unit translation. *)
Definition quarterTurn : cv.Mat3x3 := cv.mkMat3x3 0 (-1) 0 1 0 0 0 0 1.
Definition unitX : cv.Mat3x1 := cv.mkMat3x1 1 0 0.



(** A quarter turn about the x axis and a unit translation along y. *)
Definition quarterTurnX : cv.Mat3x3 := cv.mkMat3x3 1 0 0 0 0 1 0 (-1) 0.
Definition unitY : cv.Mat3x1 := cv.mkMat3x1 0 1 0.


(** What the validation loop guarantees of a point it pushes, for the
    world-frame depth [z] and the second camera; [m] ranges over the
    correspondences the point may have been paired with. *)
Definition validated (candidates : list MatchedFeature) (camera1 camera2 : CameraPose)
  (intrinsics : THREE.Matrix3) (p : Point3D.t) : Prop :=
  0 < THREE.z (Point3D.position p) /\
  0 < depthInCamera camera2 (Point3D.position p) /\
  (exists m, In m candidates /\
     calculateReprojectionError (Point3D.position p) m camera1 camera2 intrinsics
     = Some (Point3D.reprojectionError p)) /\
  Point3D.reprojectionError p < 2 /\
  Point3D.confidence p = 1 - Point3D.reprojectionError p / 2 /\
  0 <= Point3D.confidence p <= 1 /\
  Point3D.viewCount p = 2%nat.

(** A small concrete run: an environment in which OpenCV is ready, every
    call returns, the pose is the identity with every correspondence an
    inlier, and triangulation yields the single homogeneous point
    (0, 0, 1, 1); five identical correspondences at the pixel (0, 0). *)
Definition sampleMat : cv.Mat := cv.mkMat 3 3 1 [].

Definition samplePose : cv.Pose := cv.mkPose 50 cv.eye3 cv.zeros3 (fun _ => 1%nat).

Definition sampleKeyPoint : cv.KeyPoint := cv.mkKeyPoint 0 0 1 0 0.

(** The environments of the concrete runs differ in the rows the
    nearest-neighbour queries answer, in the essential matrix and in the
    recovered pose. *)
Definition testEnv (knnRows : list (list cv.DMatch)) (E : cv.Mat) (pose : cv.Pose)
  : Environment :=
  mkEnvironment (fun _ => true) (fun _ => 0) (Returns tt) (Returns tt)
    (fun _ => Returns sampleMat) (fun m _ => Returns m)
    (fun _ => Returns ([sampleKeyPoint], sampleMat)) (fun _ _ _ => Returns knnRows)
    (fun _ _ _ _ _ _ => Returns E) (fun _ _ _ _ => Returns pose)
    (fun _ _ => Returns sampleMat) (fun _ _ => Returns sampleMat)
    (fun _ _ _ _ => Returns (cv.mkMat 4 1 1 [0; 0; 1; 1])).

Definition sampleEnv : Environment := testEnv [] sampleMat samplePose.

Definition origin2D : FeaturePoint.t := FeaturePoint.mk 0 0 1 None None.

Definition sampleMatch : MatchedFeature := mkMatchedFeature origin2D origin2D 0 1 1 0 0.

Definition sampleMatches : list MatchedFeature := repeat sampleMatch 5.

Definition emptyWorld : World := mkWorld [] 0.

Definition samplePoint : Point3D.t :=
  Point3D.mk (THREE.mkVector3 (0 / 1) (0 / 1) (1 / 1))
             (THREE.mkColor (0.7 + 0 * 0.3) (0.7 + 0 * 0.3) 0.9) (1 - 0 / 2) 0 2.

(** The order of the sort: [a] is at least as close as [b]. *)
Definition closerOrEqual (a b : cv.DMatch) : Prop := cv.distance a <= cv.distance b.

(** What the matcher guarantees of a correspondence it returns: it comes
    from a row of the two nearest neighbours computed for its image pair,
    whose best neighbour passed Lowe's ratio test and the cutoff. *)
Definition passesRatioTest (env : Environment) (imageFeatures : list ImageFeatures)
  (mf : MatchedFeature) : Prop :=
  exists fi fj knn m1 m2 others,
    nth_error imageFeatures (image1Index mf) = Some fi /\
    nth_error imageFeatures (image2Index mf) = Some fj /\
    env_knnMatch env (descriptors fi) (descriptors fj) 2 = Returns knn /\
    In (m1 :: m2 :: others) knn /\
    queryIdx mf = cv.queryIdx m1 /\
    trainIdx mf = cv.trainIdx m1 /\
    confidence mf = 1 / (1 + cv.distance m1) /\
    cv.distance m1 < 0.75 * cv.distance m2 /\
    cv.distance m1 < 40.

(** A second concrete run: two images with two features each; every
    nearest-neighbour query answers with the same two rows, of which the
    first passes the ratio test (10 < 0.75 * 20) and the second does not
    (30 >= 0.75 * 35). *)
Definition sampleRows : list (list cv.DMatch) :=
  [[cv.mkDMatch 0 0 10; cv.mkDMatch 0 1 20]; [cv.mkDMatch 1 1 30; cv.mkDMatch 1 0 35]].

Definition matchingEnv : Environment := testEnv sampleRows sampleMat samplePose.

Definition sampleImage : ProcessedImage.t := ProcessedImage.mk "data:image/png;base64," true.

Definition sampleFeatures (i : nat) : ImageFeatures :=
  mkImageFeatures sampleImage [origin2D; origin2D] sampleMat [] i sampleMat.

Definition sampleCorrespondence : MatchedFeature :=
  mkMatchedFeature origin2D origin2D 0 1 (1 / (1 + 10)) 0 0.

(** The correspondences of the image pair [(a, b)] and their number. *)
Definition samePair (a b : nat) (m : MatchedFeature) : bool :=
  (image1Index m =? a)%nat && (image2Index m =? b)%nat.

Definition pairCount (matches : list MatchedFeature) (a b : nat) : nat :=
  length (filter (samePair a b) matches).

(** The correspondences filed under a key, and the keys of a list of
    correspondences in the order in which they are first met, [seen]
    being the keys met before. *)
Definition hasKey (k : string) (m : MatchedFeature) : bool := String.eqb (pairKey m) k.

Fixpoint firstKeys (seen : list string) (matches : list MatchedFeature) : list string :=
  match matches with
  | [] => []
  | m :: rest =>
      if existsb (fun k => String.eqb k (pairKey m)) seen then firstKeys seen rest
      else pairKey m :: firstKeys (seen ++ [pairKey m]) rest
  end.

(** A text without the separator of the keys. *)
Definition dashFree (s : string) : Prop :=
  forall c, In c (list_ascii_of_string s) -> c <> "-"%char.

(** The entries of the map once [matches] have been filed, as a
    function of the entries before: what [fold_left groupStep] computes. *)
Definition filed (matches : list MatchedFeature) (e : string * list MatchedFeature)
  : string * list MatchedFeature :=
  (fst e, snd e ++ filter (hasKey (fst e)) matches).

Definition opened (matches : list MatchedFeature) (k : string)
  : string * list MatchedFeature :=
  (k, filter (hasKey k) matches).

(** The pair that an entry of the map stands for. *)
Definition pairOfEntry (e : string * list MatchedFeature) : InitialPair :=
  mkInitialPair (nth 0 (map Number (split_dash (fst e))) None)
                (nth 1 (map Number (split_dash (fst e))) None) (snd e).

(** The state of the selection loop after the entries [done]: nothing is
    selected while every entry is below 50; otherwise the selected entry
    has at least 50 correspondences, more than every entry before it and
    at least as many as every entry after it. *)
Definition selectedAfter (done : list (string * list MatchedFeature))
  (st : option InitialPair * nat) : Prop :=
  (fst st = None /\ snd st = 0%nat /\
   forall e, In e done -> (length (snd e) < 50)%nat) \/
  (exists pre e post,
     done = pre ++ e :: post /\
     fst st = Some (pairOfEntry e) /\
     snd st = length (snd e) /\
     (50 <= length (snd e))%nat /\
     (forall e', In e' pre -> (length (snd e') < length (snd e))%nat) /\
     (forall e', In e' post -> (length (snd e') <= length (snd e))%nat)).

(** Correspondences of a given image pair, for concrete runs. *)
Definition matchOfPair (a b : nat) : MatchedFeature :=
  mkMatchedFeature origin2D origin2D a b 1 0 0.

(** Fifty correspondences of the pair (0, 1) followed by one of (0, 2). *)
Definition fiftyAndOne : list MatchedFeature :=
  repeat (matchOfPair 0 1) 50 ++ [matchOfPair 0 2].

(** Thirty correspondences of the pair (0, 1) and thirty of (0, 2):
    sixty in all, no pair with fifty. *)
Definition thirtyAndThirty : list MatchedFeature :=
  repeat (matchOfPair 0 1) 30 ++ repeat (matchOfPair 0 2) 30.

(** A model that a viewer can draw: its vertex buffer is not empty,
    holds three coordinates per vertex and is the position attribute of
    its geometry. *)
Definition renderable (m : Generated3DModel) : Prop :=
  (exists n, (0 < n)%nat /\ length (vertices m) = (3 * n)%nat) /\
  THREE.position (geometry m) = vertices m.

(** A third family of runs: two images with one key point each; every
    nearest-neighbour query answers fifty rows that pass the ratio test
    and the cross-check, so the pair (0, 1) gets fifty correspondences. *)
Definition fiftyRows : list (list cv.DMatch) :=
  repeat [cv.mkDMatch 0 0 10; cv.mkDMatch 0 1 20] 50.

Definition extracted (i : nat) : ImageFeatures :=
  mkImageFeatures sampleImage [FeaturePoint.mk 0 0 1 (Some 0) (Some 0)]
                  sampleMat [sampleKeyPoint] i sampleMat.

Definition fiftyMatch : MatchedFeature :=
  mkMatchedFeature (FeaturePoint.mk 0 0 1 (Some 0) (Some 0))
                   (FeaturePoint.mk 0 0 1 (Some 0) (Some 0)) 0 1 (1 / (1 + 10)) 0 0.

Definition emptyMat : cv.Mat := cv.mkMat 0 0 1 [].

(** The essential matrix is empty. *)
Definition degenerateEnv : Environment := testEnv fiftyRows emptyMat samplePose.

Definition twoImages : list ProcessedImage.t := [sampleImage; sampleImage].

Definition sampleIntrinsics : THREE.Matrix3 :=
  THREE.set (INR 3 * 1.2) 0 (INR 3 / 2) 0 (INR 3 * 1.2) (INR 3 / 2) 0 0 1.

Definition loadCall : cvCall := loadImage (ProcessedImage.processed sampleImage).

Definition callsAfterExtraction : list cvCall :=
  [ORB_create; loadCall; detectAndCompute; loadCall; detectAndCompute].

Definition callsAfterMatching : list cvCall :=
  callsAfterExtraction ++ [BFMatcher; knnMatch 2; knnMatch 2].

Definition callsAfterIntrinsics : list cvCall := callsAfterMatching ++ [loadCall].

(** A computation that only adds to the log of OpenCV calls. *)
Definition grows {A} (c : M A) : Prop :=
  forall w r w', c w = (r, w') -> exists more, calls w' = calls w ++ more.

(** The arguments of the essential-matrix estimation for a list of
    correspondences and an intrinsic matrix. *)
Definition essentialMatCall (matches : list MatchedFeature) (intrinsics : THREE.Matrix3)
  : cvCall :=
  findEssentialMat
    (cv.matFromArray (length matches) 1 2 (flatPoints point1 matches))
    (cv.matFromArray (length matches) 1 2 (flatPoints point2 matches))
    (cv.matFromArray 3 3 1
       [THREE.te0 intrinsics; THREE.te1 intrinsics; THREE.te2 intrinsics;
        THREE.te3 intrinsics; THREE.te4 intrinsics; THREE.te5 intrinsics;
        THREE.te6 intrinsics; THREE.te7 intrinsics; THREE.te8 intrinsics])
    cv.RANSAC 0.999 1.

(** The pose is the identity and every correspondence is an inlier, so
    that the triangulated point (0, 0, 1) is validated. *)
Definition cloudEnv : Environment := testEnv fiftyRows sampleMat samplePose.

Definition callsAfterTriangulation : list cvCall :=
  callsAfterIntrinsics
  ++ [essentialMatCall (repeat fiftyMatch 50) sampleIntrinsics;
      recoverPose; hconcat; gemm; hconcat; gemm; triangulatePoints].



Definition behindPose : cv.Pose := cv.mkPose 50 quarterTurnX unitY (fun _ => 1%nat).




(** A run on two images in which the pose is [behindPose], all fifty
    correspondences are inliers and triangulation yields, for each of
    them, the homogeneous point (0, 0, -1, 1), behind the first camera:
    no point is validated. *)
Definition rejectedPoints4D : cv.Mat := cv.mkMat 4 50 1 (concat (repeat [0; 0; -1; 1] 50)).

Definition emptyCloudEnv : Environment :=
  mkEnvironment (cvReady cloudEnv) (Math_random cloudEnv)
    (env_ORB_create cloudEnv) (env_BFMatcher cloudEnv) (env_loadImageToMat cloudEnv)
    (env_cvtColor cloudEnv) (env_detectAndCompute cloudEnv) (env_knnMatch cloudEnv)
    (env_findEssentialMat cloudEnv) (fun _ _ _ _ => Returns behindPose)
    (env_hconcat cloudEnv) (env_gemm cloudEnv) (fun _ _ _ _ => Returns rejectedPoints4D).



(** What the conversion loop guarantees of a correspondence: its images
    are two feature sets at increasing positions and its points are the
    features that [queryIdx] and [trainIdx] name. *)
Definition wellIndexed (imageFeatures : list ImageFeatures) (mf : MatchedFeature) : Prop :=
  (image1Index mf < image2Index mf)%nat /\
  exists fi fj,
    nth_error imageFeatures (image1Index mf) = Some fi /\
    nth_error imageFeatures (image2Index mf) = Some fj /\
    nth_error (features fi) (queryIdx mf) = Some (point1 mf) /\
    nth_error (features fj) (trainIdx mf) = Some (point2 mf).

(** The distances that every nearest-neighbour query of the environment
    answers are non-negative, as Hamming distances are. *)
Definition nonNegativeDistances (env : Environment) : Prop :=
  forall query train k rows row m,
    env_knnMatch env query train k = Returns rows ->
    In row rows -> In m row -> 0 <= cv.distance m.

(** The correspondences found before the double loop reaches the pair
    [(i, j)]: those of an earlier first image, or of the image [i] with
    an earlier second image. *)
Definition filedBefore (i j : nat) (mf : MatchedFeature) : Prop :=
  (image1Index mf < i)%nat \/ (image1Index mf = i /\ (image2Index mf < j)%nat).

(** A computation that only adds calls of the kind [allowed] to the log
    of OpenCV calls. *)
Definition logs {A} (allowed : cvCall -> Prop) (c : M A) : Prop :=
  forall w r w', c w = (r, w') ->
    exists more, calls w' = calls w ++ more /\ Forall allowed more.

(** The calls that build the two projection matrices. *)
Definition buildsProjection (c : cvCall) : Prop := c = hconcat \/ c = gemm.

(** The matrices that [performTwoViewReconstruction] hands to OpenCV for
    a list of correspondences and an intrinsic matrix. *)
Definition pointsMat (sel : MatchedFeature -> FeaturePoint.t) (matches : list MatchedFeature)
  : cv.Mat :=
  cv.matFromArray (length matches) 1 2 (flatPoints sel matches).

Definition intrinsicsMat (intrinsics : THREE.Matrix3) : cv.Mat :=
  cv.matFromArray 3 3 1
    [THREE.te0 intrinsics; THREE.te1 intrinsics; THREE.te2 intrinsics;
     THREE.te3 intrinsics; THREE.te4 intrinsics; THREE.te5 intrinsics;
     THREE.te6 intrinsics; THREE.te7 intrinsics; THREE.te8 intrinsics].

(** What a successful two-view stage rests on: the essential matrix that
    the environment estimated is not empty and the pose recovered from it
    has at least 50 inliers; the cameras are built from that pose. *)
Definition recoveredFrom (env : Environment) (matches : list MatchedFeature)
  (intrinsics : THREE.Matrix3) (cameras : list CameraPose) : Prop :=
  exists E pose,
    env_findEssentialMat env (pointsMat point1 matches) (pointsMat point2 matches)
                         (intrinsicsMat intrinsics) cv.RANSAC 0.999 1 = Returns E /\
    cv.rows E <> 0%nat /\
    env_recoverPose env E (pointsMat point1 matches) (pointsMat point2 matches)
                    (intrinsicsMat intrinsics) = Returns pose /\
    (50 <= cv.inlierCount pose)%Z /\
    cameras = [makeCamera1 intrinsics;
               makeCamera2 intrinsics (cv.poseR pose) (cv.poseT pose)].

(** A rotation: the matrix undoes its transpose. *)
Definition undoesItsTranspose (m : THREE.Matrix3) : Prop :=
  forall v, THREE.applyMatrix3 (THREE.applyMatrix3 v (THREE.transpose m)) m = v.

(** The point of a ray at the parameter [s]. *)
Definition pointAt (ray : Ray) (s : number) : THREE.Vector3 :=
  THREE.add (origin ray) (Vector3_multiplyScalar (direction ray) s).

(** ** The simplified matcher *)

(** The descriptor distance between two features. *)
Definition featureDistance (f g : Simplified.FeaturePoint) : number :=
  Simplified.computeDescriptorDistance (Simplified.descriptor f) (Simplified.descriptor g).

(** The state of the nearest-neighbour loop after the features
    [processed]: the best match is the first feature at the least
    distance and the second distance is the least distance of the other
    features, [Infinity] when there is no other. *)
Definition nearestAfter (feature1 : Simplified.FeaturePoint)
  (processed : list Simplified.FeaturePoint) (st : Simplified.Nearest) : Prop :=
  match processed with
  | [] => st = Simplified.mkNearest None Simplified.Infinity Simplified.Infinity
  | _ :: _ =>
      exists before best after,
        processed = before ++ best :: after /\
        Simplified.bestMatch st = Some best /\
        Simplified.bestDistance st = Simplified.Finite (featureDistance feature1 best) /\
        (forall f, In f before ->
           featureDistance feature1 best < featureDistance feature1 f) /\
        (forall f, In f after ->
           featureDistance feature1 best <= featureDistance feature1 f) /\
        ((before ++ after = [] /\ Simplified.secondBestDistance st = Simplified.Infinity) \/
         (exists f, In f (before ++ after) /\
            Simplified.secondBestDistance st
            = Simplified.Finite (featureDistance feature1 f) /\
            forall g, In g (before ++ after) ->
              featureDistance feature1 f <= featureDistance feature1 g))
  end.

(** What the simplified matcher guarantees of a correspondence: its
    images are two feature sets at increasing positions, its first point
    is a feature of the first, its second point a feature of the second
    whose distance to the first point is below 0.7 times the distance of
    every other feature of the second set; the confidence is 1 when there
    is no other feature and one minus the quotient by the least other
    distance otherwise, and it is above 0.3 and at most 1. *)
Definition nearestNeighbourMatch (imageFeatures : list Simplified.ImageFeatures)
  (mf : Simplified.MatchedFeature) : Prop :=
  (Simplified.image1Index mf < Simplified.image2Index mf)%nat /\
  exists fi fj before after,
    nth_error imageFeatures (Simplified.image1Index mf) = Some fi /\
    nth_error imageFeatures (Simplified.image2Index mf) = Some fj /\
    In (Simplified.point1 mf) (Simplified.features fi) /\
    Simplified.features fj = before ++ Simplified.point2 mf :: after /\
    (forall f, In f (before ++ after) ->
       featureDistance (Simplified.point1 mf) (Simplified.point2 mf)
       < 0.7 * featureDistance (Simplified.point1 mf) f) /\
    ((before ++ after = [] /\ Simplified.confidence mf = 1) \/
     (exists f, In f (before ++ after) /\
        (forall g, In g (before ++ after) ->
           featureDistance (Simplified.point1 mf) f
           <= featureDistance (Simplified.point1 mf) g) /\
        Simplified.confidence mf
        = 1 - featureDistance (Simplified.point1 mf) (Simplified.point2 mf)
              / featureDistance (Simplified.point1 mf) f)) /\
    0.3 < Simplified.confidence mf <= 1.

(** Two images with one feature each. *)
Definition cornerFeature : Simplified.FeaturePoint := Simplified.mkFeaturePoint 4 5 [1; 0].

Definition oneFeatureImage (i : nat) : Simplified.ImageFeatures :=
  Simplified.mkImageFeatures sampleImage [cornerFeature] i.

(** ** The shape analysis *)

(** The alpha byte of the pixel [(x, y)], if [data] has it. *)
Definition alphaAt (imageData : Simplified.ImageData) (x y : nat) : option nat :=
  nth_error (Simplified.data imageData) ((y * Simplified.width imageData + x) * 4 + 3).

(** No pixel of the image counts as part of the object. *)
Definition transparent (imageData : Simplified.ImageData) : Prop :=
  forall x y alpha,
    (x < Simplified.width imageData)%nat -> (y < Simplified.height imageData)%nat ->
    alphaAt imageData x y = Some alpha -> (alpha <= 128)%nat.

(** The state of the scan before the first pixel. *)
Definition emptyScan (imageData : Simplified.ImageData) : Simplified.Scan :=
  Simplified.mkScan (Simplified.width imageData) 0 (Simplified.height imageData) 0 0 0 0 0%nat.

(** What the scan keeps: without a counted pixel it is in its initial
    state; with one the bounds are ordered and inside the image; each
    colour total is at most 255 per counted pixel. *)
Definition scanned (imageData : Simplified.ImageData) (st : Simplified.Scan) : Prop :=
  (Simplified.pixelCount st = 0%nat -> st = emptyScan imageData) /\
  ((0 < Simplified.pixelCount st)%nat ->
   (Simplified.minX st <= Simplified.maxX st < Simplified.width imageData)%nat /\
   (Simplified.minY st <= Simplified.maxY st < Simplified.height imageData)%nat) /\
  (Simplified.totalR st <= 255 * Simplified.pixelCount st)%nat /\
  (Simplified.totalG st <= 255 * Simplified.pixelCount st)%nat /\
  (Simplified.totalB st <= 255 * Simplified.pixelCount st)%nat.

(** A one-pixel opaque image and a one-pixel transparent image. *)
Definition opaquePixel : Simplified.ImageData := Simplified.mkImageData [10; 20; 30; 255]%nat 1 1.
Definition clearPixel : Simplified.ImageData := Simplified.mkImageData [10; 20; 30; 0]%nat 1 1.

(** ** The generated point clouds *)

(** [Math.random()] returns a number in [0, 1). *)
Definition unitRandom (env : Environment) : Prop :=
  forall n, 0 <= Math_random env n < 1.

(** A point of the default shape: inside the cube of side 2 about the
    origin, with the fixed colour and confidence. *)
Definition defaultShapePoint (p : Simplified.Point3D) : Prop :=
  -1 <= THREE.x (Simplified.point_position p) < 1 /\
  -1 <= THREE.y (Simplified.point_position p) < 1 /\
  -1 <= THREE.z (Simplified.point_position p) < 1 /\
  Simplified.point_color p = THREE.mkColor 0.6 0.6 0.7 /\
  Simplified.point_confidence p = 0.5.

(** A point on the ellipsoid about the origin with the semi-axes [a],
    [b], [c], with a confidence in [0.7, 1). *)
Definition onEllipsoid (a b c : number) (p : Simplified.Point3D) : Prop :=
  JS.pow2 (THREE.x (Simplified.point_position p) / a)
  + JS.pow2 (THREE.y (Simplified.point_position p) / b)
  + JS.pow2 (THREE.z (Simplified.point_position p) / c) = 1 /\
  0.7 <= Simplified.point_confidence p < 1.

(** A shape as [extractObjectBounds] returns it for a one-pixel image. *)
Definition pixelShape : Simplified.Shape :=
  Simplified.mkShape 0 0 0 0 1 (THREE.mkColor 0.5 0.5 0.5) 1.

(** ** The mesh of the simplified pipeline *)

(** The entries of a face list before the conversion to a
    [Uint32Array]: three per face, each converted to the index of one of
    the [n] points. *)
Definition validFaces (n : nat) (faces : list number) : Prop :=
  (exists k, length faces = (3 * k)%nat) /\
  Forall (fun entry => (Simplified.ToUint32 entry < n)%nat) faces.

(** A point of the simplified pipeline. *)
Definition greyPoint (x y z : number) : Simplified.Point3D :=
  Simplified.mkPoint3D (THREE.mkVector3 x y z) (THREE.mkColor 0.6 0.6 0.7) 0.5.

(** ** Descriptors *)

(** The squared length of a descriptor. *)
Definition squaredNorm (descriptor : list number) : number :=
  fold_right (fun val sum => val * val + sum) 0 descriptor.

(** ** The earlier triangulation and mesh *)

(** A point made from a match: the middle of the positions of two of
    the cameras, grey, with the confidence 0.8. *)
Definition midpointOf (cameraPoses : list Simplified.CameraPose) (p : Simplified.Point3D)
  : Prop :=
  exists pose1 pose2,
    In pose1 cameraPoses /\ In pose2 cameraPoses /\
    Simplified.point_position p
    = Vector3_multiplyScalar
        (THREE.add (Simplified.position pose1) (Simplified.position pose2)) 0.5 /\
    Simplified.point_color p = THREE.mkColor 0.7 0.7 0.7 /\
    Simplified.point_confidence p = 0.8.

(** An additional point: inside the box of sides 4, 2 and 4 about the
    origin, with colour components and a confidence in [0, 1). *)
Definition additionalBoxPoint (p : Simplified.Point3D) : Prop :=
  -2 <= THREE.x (Simplified.point_position p) < 2 /\
  -1 <= THREE.y (Simplified.point_position p) < 1 /\
  -2 <= THREE.z (Simplified.point_position p) < 2 /\
  0 <= THREE.r (Simplified.point_color p) < 1 /\
  0 <= THREE.g (Simplified.point_color p) < 1 /\
  0 <= THREE.b (Simplified.point_color p) < 1 /\
  0 <= Simplified.point_confidence p < 1.

(** The entries of a face list before the conversion to a
    [Uint32Array] are indices of the [n] points. *)
Definition indicesBelow (n : nat) (faces : list Z) : Prop :=
  (exists k, length faces = (3 * k)%nat) /\
  Forall (fun a => (0 <= a < Z.of_nat n)%Z) faces.

(** ** The model of the whole pipeline *)

(** A point in front of the first camera. *)
Definition inFront (p : Point3D.t) : Prop := 0 < THREE.z (Point3D.position p).

(** An environment in which OpenCV never becomes ready; its other
    answers are those of [cloudEnv]. *)
Definition stalledEnv : Environment :=
  mkEnvironment (fun _ => false) (Math_random cloudEnv)
    (env_ORB_create cloudEnv) (env_BFMatcher cloudEnv) (env_loadImageToMat cloudEnv)
    (env_cvtColor cloudEnv) (env_detectAndCompute cloudEnv) (env_knnMatch cloudEnv)
    (env_findEssentialMat cloudEnv) (env_recoverPose cloudEnv) (env_hconcat cloudEnv)
    (env_gemm cloudEnv) (env_triangulatePoints cloudEnv).

(** Each of the first [fuel + 1] reads of [window.cvReady] is false. *)
Definition neverReady (env : Environment) (fuel : nat) : Prop :=
  forall poll, (poll <= fuel)%nat -> cvReady env poll = false.

(** * Properties *)

(** ** Comparisons and the monad *)

Lemma ltb_true_iff (a b : number) : JS.ltb a b = true <-> a < b.
Proof.
  unfold JS.ltb. destruct (Rlt_dec a b); split; intros; try easy.
Qed.

Lemma ltb_false_iff (a b : number) : JS.ltb a b = false <-> b <= a.
Proof.
  unfold JS.ltb. destruct (Rlt_dec a b); split; intros; try easy; lra.
Qed.

Lemma gtb_true_iff (a b : number) : JS.gtb a b = true <-> b < a.
Proof. unfold JS.gtb. apply ltb_true_iff. Qed.

Lemma bind_inv {A B} (c : M A) (k : A -> M B) w r w' :
  bind c k w = (r, w') ->
  (exists a w1, c w = (Returns a, w1) /\ k a w1 = (r, w')) \/
  (exists e, c w = (Throws e, w') /\ r = Throws e).
Proof.
  unfold bind. destruct (c w) as [[a|e] w1]; intros H.
  - left. eauto.
  - right. inversion H; subst. eauto.
Qed.

Lemma try_catch_inv {A} (body : M A) (handler : exn -> M A) w r w' :
  try_catch body handler w = (r, w') ->
  (exists a, body w = (Returns a, w') /\ r = Returns a) \/
  (exists e w1, body w = (Throws e, w1) /\ handler e w1 = (r, w')).
Proof.
  unfold try_catch. destruct (body w) as [[a|e] w1]; intros H.
  - left. inversion H; subst. eauto.
  - right. eauto.
Qed.

Lemma call_inv {A} (c : cvCall) (answer : outcome A) w r w' :
  call c answer w = (r, w') ->
  r = answer /\ w' = mkWorld (calls w ++ [c]) (draws w).
Proof. unfold call. intros H. inversion H; subst. auto. Qed.

Lemma ret_inv {A} (a : A) w r w' : ret a w = (r, w') -> r = Returns a /\ w' = w.
Proof. unfold ret. intros H. inversion H; subst. auto. Qed.

(** ** Camera assembly *)

Lemma vector3_eq (a b c a' b' c' : number) :
  a = a' -> b = b' -> c = c' -> THREE.mkVector3 a b c = THREE.mkVector3 a' b' c'.
Proof. intros; subst; reflexivity. Qed.

(** Camera 1 is the identity pose at the origin. *)
Lemma camera1_identity (intrinsics : THREE.Matrix3) :
  position (makeCamera1 intrinsics) = THREE.mkVector3 0 0 0 /\
  rotation (makeCamera1 intrinsics) = THREE.identity /\
  translation (makeCamera1 intrinsics) = THREE.mkVector3 0 0 0.
Proof. repeat split. Qed.


Lemma camera2_rotation_entries intrinsics Rm t :
  let m := rotation (makeCamera2 intrinsics Rm t) in
  THREE.entry m 0 1 = cv.a10 Rm /\ THREE.entry m 1 0 = cv.a01 Rm /\
  THREE.entry m 0 2 = cv.a20 Rm /\ THREE.entry m 2 0 = cv.a02 Rm /\
  THREE.entry m 1 2 = cv.a21 Rm /\ THREE.entry m 2 1 = cv.a12 Rm.
Proof. repeat split. Qed.

(** The position computed for camera 2 is [-(R t)], the negated
    translation rotated by the recovered rotation itself. *)
Lemma camera2_position_formula intrinsics Rm t :
  position (makeCamera2 intrinsics Rm t) = THREE.negate (rotate Rm (tVecOf t)).
Proof.
  destruct Rm, t. unfold makeCamera2, rotate, THREE.negate, THREE.applyMatrix3.
  cbn. apply vector3_eq; ring.
Qed.

(** C5 (evaluation of the code where it departs from the statement).
    For the recovered rotation [quarterTurn] and translation [unitX] the
    position given to camera 2 is (0, -1, 0), while the negated translation
    rotated by the transpose of the rotation, -R^T t, is (0, 1, 0): the
    code computes -R t. *)
Theorem camera2_position_is_not_minus_Rt_t (intrinsics : THREE.Matrix3) :
  position (makeCamera2 intrinsics quarterTurn unitX) = THREE.mkVector3 0 (-1) 0 /\
  THREE.negate (rotateTransposed quarterTurn (tVecOf unitX)) = THREE.mkVector3 0 1 0 /\
  position (makeCamera2 intrinsics quarterTurn unitX)
    <> THREE.negate (rotateTransposed quarterTurn (tVecOf unitX)).
Proof.
  assert (H1 : position (makeCamera2 intrinsics quarterTurn unitX)
               = THREE.mkVector3 0 (-1) 0).
  { unfold makeCamera2, THREE.applyMatrix3. simpl. apply vector3_eq; ring. }
  assert (H2 : THREE.negate (rotateTransposed quarterTurn (tVecOf unitX))
               = THREE.mkVector3 0 1 0).
  { unfold rotateTransposed, THREE.negate. simpl. apply vector3_eq; ring. }
  repeat split; trivial.
  rewrite H1, H2. intros H. inversion H as [Hy]. lra.
Qed.

(** ** Triangulation and validation *)

Lemma pixelDistance_nonneg proj p : 0 <= pixelDistance proj p.
Proof. unfold pixelDistance, JS.sqrt. apply sqrt_pos. Qed.

Lemma reprojectionError_nonneg point3D m camera1 camera2 intrinsics e :
  calculateReprojectionError point3D m camera1 camera2 intrinsics = Some e -> 0 <= e.
Proof.
  unfold calculateReprojectionError.
  destruct (projectPoint point3D camera1 intrinsics) as [proj1|]; try discriminate.
  destruct (projectPoint point3D camera2 intrinsics) as [proj2|]; try discriminate.
  intros H. inversion H; subst.
  pose proof (pixelDistance_nonneg proj1 (point1 m)).
  pose proof (pixelDistance_nonneg proj2 (point2 m)).
  lra.
Qed.

Lemma inlierMatchesOf_incl maskAt matches : forall i m,
  In m (inlierMatchesOf maskAt i matches) -> In m matches.
Proof.
  induction matches as [|m0 rest IH]; simpl; intros i m H; trivial.
  destruct (maskAt i =? 0)%nat.
  - right. eapply IH; eauto.
  - destruct H as [H|H]; [left; trivial | right; eapply IH; eauto].
Qed.

Lemma random_inv env w r w' :
  random env w = (r, w') ->
  r = Returns (Math_random env (draws w)) /\ w' = mkWorld (calls w) (S (draws w)).
Proof. unfold random. intros H. inversion H; subst. auto. Qed.

(** One iteration keeps the invariant that every pushed point is validated. *)
Lemma validatePoint_validated env points4D inlierMatches camera1 camera2 intrinsics i
  points3D w points3D' w' :
  validatePoint env points4D inlierMatches camera1 camera2 intrinsics i points3D w
  = (Returns points3D', w') ->
  Forall (validated inlierMatches camera1 camera2 intrinsics) points3D ->
  Forall (validated inlierMatches camera1 camera2 intrinsics) points3D'.
Proof.
  unfold validatePoint. intros Hrun Hall.
  destruct (readPoint4D points4D i) as [[[[X Y] Z] W]|];
    [|apply ret_inv in Hrun; destruct Hrun as [Hr _]; inversion Hr; subst; trivial].
  destruct (JS.gtb (JS.abs W) (1 / 1000000));
    [|apply ret_inv in Hrun; destruct Hrun as [Hr _]; inversion Hr; subst; trivial].
  destruct (JS.gtb (Z / W) 0) eqn:Hd1; simpl in Hrun;
    [|apply ret_inv in Hrun; destruct Hrun as [Hr _]; inversion Hr; subst; trivial].
  destruct (JS.gtb (depthInCamera camera2 (THREE.mkVector3 (X / W) (Y / W) (Z / W))) 0)
    eqn:Hd2;
    [|apply ret_inv in Hrun; destruct Hrun as [Hr _]; inversion Hr; subst; trivial].
  destruct (nth_error inlierMatches i) as [m|] eqn:Hm; [|discriminate].
  destruct (calculateReprojectionError _ m camera1 camera2 intrinsics) as [e|] eqn:He;
    [|apply ret_inv in Hrun; destruct Hrun as [Hr _]; inversion Hr; subst; trivial].
  destruct (JS.ltb e 2) eqn:Hlt;
    [|apply ret_inv in Hrun; destruct Hrun as [Hr _]; inversion Hr; subst; trivial].
  unfold bind, random, ret in Hrun. inversion Hrun; subst.
  apply Forall_app. split; trivial. constructor; [|constructor].
  apply gtb_true_iff in Hd1, Hd2. apply ltb_true_iff in Hlt.
  pose proof (reprojectionError_nonneg _ _ _ _ _ _ He) as Hpos.
  unfold validated; simpl. repeat split; trivial; try lra.
  exists m. split; trivial. eapply nth_error_In; eauto.
Qed.

Lemma validatePoints_validated env points4D inlierMatches camera1 camera2 intrinsics :
  forall indices points3D w r w',
  validatePoints env points4D inlierMatches camera1 camera2 intrinsics indices points3D w
  = (r, w') ->
  Forall (validated inlierMatches camera1 camera2 intrinsics) points3D ->
  exists points3D', r = Returns points3D' /\
    Forall (validated inlierMatches camera1 camera2 intrinsics) points3D'.
Proof.
  induction indices as [|i rest IH]; simpl; intros points3D w r w' Hrun Hall.
  - apply ret_inv in Hrun. destruct Hrun as [-> _]. eauto.
  - destruct (validatePoint env points4D inlierMatches camera1 camera2 intrinsics i
                            points3D w) as [[acc|e] w1] eqn:Hstep.
    + eapply IH; eauto. eapply validatePoint_validated; eauto.
    + inversion Hrun; subst. eauto.
Qed.

Lemma validated_incl l l' camera1 camera2 intrinsics p :
  (forall m, In m l -> In m l') ->
  validated l camera1 camera2 intrinsics p -> validated l' camera1 camera2 intrinsics p.
Proof.
  intros Hincl (H1 & H2 & (m & Hin & He) & H3). unfold validated.
  repeat split; try tauto. exists m. auto.
Qed.

(** [triangulatePointsOpenCV] always returns, and only validated points. *)
Lemma triangulatePointsOpenCV_validated env matches camera1 camera2 intrinsics maskAt
  pts1 pts2 K Rm t w r w' :
  triangulatePointsOpenCV env matches camera1 camera2 intrinsics maskAt pts1 pts2 K Rm t w
  = (r, w') ->
  exists points3D, r = Returns points3D /\
    Forall (validated matches camera1 camera2 intrinsics) points3D.
Proof.
  unfold triangulatePointsOpenCV. intros Hrun.
  assert (Hnil : forall w0, @ret (list Point3D.t) [] w0 = (r, w') ->
            exists points3D, r = Returns points3D /\
              Forall (validated matches camera1 camera2 intrinsics) points3D).
  { intros w0 H. apply ret_inv in H. destruct H as [-> _]. eauto. }
  apply try_catch_inv in Hrun.
  destruct Hrun as [(pts & Hrun & ->) | (e & w1 & _ & Hh)]; [|eapply Hnil; eauto].
  apply bind_inv in Hrun. destruct Hrun as [(Rt1 & w1 & _ & Hrun) | (e & _ & He)];
    [|discriminate].
  apply bind_inv in Hrun. destruct Hrun as [(P1 & w2 & _ & Hrun) | (e & _ & He)];
    [|discriminate].
  apply bind_inv in Hrun. destruct Hrun as [(Rt2 & w3 & _ & Hrun) | (e & _ & He)];
    [|discriminate].
  apply bind_inv in Hrun. destruct Hrun as [(P2 & w4 & _ & Hrun) | (e & _ & He)];
    [|discriminate].
  destruct (length _ <? 10)%nat.
  - apply ret_inv in Hrun. destruct Hrun as [Hr _]. inversion Hr; subst. eauto.
  - apply bind_inv in Hrun. destruct Hrun as [(points4D & w5 & _ & Hrun) | (e & _ & He)];
      [|discriminate].
    apply validatePoints_validated in Hrun; [|constructor].
    destruct Hrun as (pts' & Hr & Hall). inversion Hr; subst.
    exists pts'. split; trivial.
    eapply Forall_impl; [|exact Hall]. intros p. apply validated_incl.
    intros m. apply inlierMatchesOf_incl.
Qed.

(** A point that passes every test of the loop is pushed. *)
Lemma validatePoint_accepts env points4D inlierMatches camera1 camera2 intrinsics i
  points3D w X Y Z W m e :
  readPoint4D points4D i = Some (X, Y, Z, W) ->
  1 / 1000000 < Rabs W ->
  0 < Z / W ->
  0 < depthInCamera camera2 (THREE.mkVector3 (X / W) (Y / W) (Z / W)) ->
  nth_error inlierMatches i = Some m ->
  calculateReprojectionError (THREE.mkVector3 (X / W) (Y / W) (Z / W)) m
                             camera1 camera2 intrinsics = Some e ->
  e < 2 ->
  validatePoint env points4D inlierMatches camera1 camera2 intrinsics i points3D w
  = (Returns (points3D ++
       [Point3D.mk (THREE.mkVector3 (X / W) (Y / W) (Z / W))
          (THREE.mkColor (0.7 + Math_random env (draws w) * 0.3)
                         (0.7 + Math_random env (S (draws w)) * 0.3) 0.9)
          (1 - e / 2) e 2]),
     mkWorld (calls w) (S (S (draws w)))).
Proof.
  intros Hread HW Hd1 Hd2 Hm He Hlt. unfold validatePoint. rewrite Hread.
  apply gtb_true_iff in HW, Hd1, Hd2. apply ltb_true_iff in Hlt.
  unfold JS.abs. rewrite HW, Hd1, Hd2, Hm, He, Hlt. reflexivity.
Qed.


Lemma nth_error_columns (X Y Z W : number) : forall n i k,
  (i < n)%nat -> (k < 4)%nat ->
  nth_error (concat (repeat [X; Y; Z; W] n)) (i * 4 + k) = nth_error [X; Y; Z; W] k.
Proof.
  induction n as [|n IH]; intros i k Hi Hk; [lia|].
  destruct i as [|i].
  - do 4 (destruct k as [|k]; [reflexivity|]). lia.
  - replace (S i * 4 + k)%nat with (S (S (S (S (i * 4 + k))))) by lia.
    cbn [repeat concat app nth_error]. apply IH; lia.
Qed.

Lemma readPoint4D_columns rows cols channels (X Y Z W : number) n i :
  (i < n)%nat ->
  readPoint4D (cv.mkMat rows cols channels (concat (repeat [X; Y; Z; W] n))) i
  = Some (X, Y, Z, W).
Proof.
  intros Hi. unfold readPoint4D. cbn [cv.data64F].
  rewrite <- (Nat.add_0_r (i * 4)) at 1.
  rewrite !nth_error_columns by lia. reflexivity.
Qed.

Lemma inlierMatchesOf_all maskAt matches :
  (forall i, maskAt i <> 0%nat) -> forall i, inlierMatchesOf maskAt i matches = matches.
Proof.
  intros Hmask. induction matches as [|m rest IH]; intros i; simpl; [reflexivity|].
  destruct (Nat.eqb_spec (maskAt i) 0) as [Hz|_]; [destruct (Hmask i Hz)|].
  rewrite IH. reflexivity.
Qed.




(** ** Feature matching *)

Lemma goodMatchesOf_In knnMatches m :
  In m (goodMatchesOf knnMatches) ->
  exists m2 others, In (m :: m2 :: others) knnMatches /\ ratioTest m m2 = true.
Proof.
  induction knnMatches as [|row rest IH]; simpl; [tauto|].
  destruct row as [|m1 [|m2 others]]; intros H.
  - destruct (IH H) as (m2 & o & Hin & Ht). eauto 6.
  - destruct (IH H) as (m2 & o & Hin & Ht). eauto 6.
  - destruct (ratioTest m1 m2) eqn:Ht.
    + destruct H as [<-|H]; [eauto 6|].
      destruct (IH H) as (m2' & o & Hin & Ht'). eauto 6.
    + destruct (IH H) as (m2' & o & Hin & Ht'). eauto 6.
Qed.

Lemma ratioTest_true m1 m2 :
  ratioTest m1 m2 = true ->
  cv.distance m1 < 0.75 * cv.distance m2 /\ cv.distance m1 < 40.
Proof.
  unfold ratioTest. rewrite andb_true_iff, !ltb_true_iff. trivial.
Qed.

Lemma insertByDistance_perm a l : Permutation (a :: l) (insertByDistance a l).
Proof.
  induction l as [|b l IH]; simpl; [reflexivity|].
  destruct (JS.ltb (cv.distance b) (cv.distance a)); [|reflexivity].
  rewrite perm_swap. constructor. exact IH.
Qed.

Lemma sortByDistance_perm l : Permutation l (sortByDistance l).
Proof.
  induction l as [|a l IH]; simpl; [constructor|].
  rewrite <- insertByDistance_perm. constructor. exact IH.
Qed.

Lemma insertByDistance_sorted a l :
  StronglySorted closerOrEqual l -> StronglySorted closerOrEqual (insertByDistance a l).
Proof.
  induction l as [|b l IH]; simpl; intros Hs.
  - repeat constructor.
  - inversion Hs as [|b' l' Hs' Hall]; subst.
    destruct (JS.ltb (cv.distance b) (cv.distance a)) eqn:Hlt.
    + apply ltb_true_iff in Hlt. constructor; [auto|].
      eapply Permutation_Forall; [apply insertByDistance_perm|].
      constructor; trivial. unfold closerOrEqual. lra.
    + apply ltb_false_iff in Hlt. constructor; trivial.
      constructor; trivial.
      eapply Forall_impl; [|exact Hall]. unfold closerOrEqual. intros c Hc. lra.
Qed.

Lemma sortByDistance_sorted l : StronglySorted closerOrEqual (sortByDistance l).
Proof.
  induction l as [|a l IH]; simpl; [constructor|].
  apply insertByDistance_sorted. exact IH.
Qed.

Lemma StronglySorted_app_inv (l1 l2 : list cv.DMatch) :
  StronglySorted closerOrEqual (l1 ++ l2) ->
  StronglySorted closerOrEqual l1 /\
  (forall a b, In a l1 -> In b l2 -> closerOrEqual a b).
Proof.
  induction l1 as [|c l1 IH]; simpl; intros Hs.
  - split; [constructor | intros a b []].
  - inversion Hs as [|c' l' Hs' Hall]; subst.
    destruct (IH Hs') as [IH1 IH2]. rewrite Forall_app in Hall. destruct Hall as [Ha1 Ha2].
    split; [constructor; trivial|].
    intros a b [<-|Ha] Hb; [|auto].
    rewrite Forall_forall in Ha2. auto.
Qed.

(** The kept matches are the sorted prefix: a permutation of the chosen
    set once the dropped ones are put back, in ascending order of
    distance, none farther than a dropped one, and at most 200. *)
Lemma bestMatchesOf_spec finalMatches :
  Permutation (bestMatchesOf finalMatches
               ++ skipn (JS.min 200 (length finalMatches)) (sortByDistance finalMatches))
              finalMatches /\
  StronglySorted closerOrEqual (bestMatchesOf finalMatches) /\
  (forall a b, In a (bestMatchesOf finalMatches) ->
               In b (skipn (JS.min 200 (length finalMatches)) (sortByDistance finalMatches)) ->
               cv.distance a <= cv.distance b) /\
  length (bestMatchesOf finalMatches) = Nat.min 200 (length finalMatches).
Proof.
  unfold bestMatchesOf.
  pose proof (sortByDistance_sorted finalMatches) as Hs.
  rewrite <- (firstn_skipn (JS.min 200 (length finalMatches))) in Hs.
  apply StronglySorted_app_inv in Hs. destruct Hs as [Hs1 Hs2].
  repeat split; trivial.
  - rewrite firstn_skipn. symmetry. apply sortByDistance_perm.
  - rewrite length_firstn, <- (Permutation_length (sortByDistance_perm finalMatches)).
    unfold JS.min. lia.
Qed.

Lemma bestMatchesOf_In finalMatches m : In m (bestMatchesOf finalMatches) -> In m finalMatches.
Proof.
  unfold bestMatchesOf. intros H.
  eapply Permutation_in; [symmetry; apply sortByDistance_perm|].
  rewrite <- (firstn_skipn (JS.min 200 (length finalMatches))).
  apply in_or_app. left. exact H.
Qed.

Lemma finalMatchesOf_In crossCheckMatches goodMatches backMatches m :
  crossCheckMatches = crossCheck backMatches goodMatches \/ crossCheckMatches = [] ->
  In m (finalMatchesOf crossCheckMatches goodMatches) -> In m goodMatches.
Proof.
  unfold finalMatchesOf. intros Hc.
  destruct (20 <? length crossCheckMatches)%nat; trivial.
  destruct Hc as [-> | ->]; [|intros []].
  unfold crossCheck. rewrite filter_In. tauto.
Qed.

Lemma convertMatches_In featuresI featuresJ i j bestMatches mf :
  In mf (convertMatches featuresI featuresJ i j bestMatches) ->
  exists m, In m bestMatches /\ toMatchedFeature featuresI featuresJ i j m = Some mf.
Proof.
  induction bestMatches as [|m rest IH]; simpl; [tauto|].
  destruct (toMatchedFeature featuresI featuresJ i j m) as [mf'|] eqn:Hc.
  - intros [<-|H]; [eauto|]. destruct (IH H) as (m' & Hin & Hm'). eauto.
  - intros H. destruct (IH H) as (m' & Hin & Hm'). eauto.
Qed.

Lemma convertMatches_length featuresI featuresJ i j bestMatches :
  (length (convertMatches featuresI featuresJ i j bestMatches) <= length bestMatches)%nat.
Proof.
  induction bestMatches as [|m rest IH]; simpl; [lia|].
  destruct (toMatchedFeature featuresI featuresJ i j m); simpl; lia.
Qed.

(** What one pair contributes, whatever the environment answers. *)
Lemma matchPair_cases env fi fj i j matches w r w' :
  matchPair env fi fj i j matches w = (r, w') ->
  r = Returns matches \/
  exists knn crossCheckMatches,
    env_knnMatch env (descriptors fi) (descriptors fj) 2 = Returns knn /\
    (crossCheckMatches = [] \/
     exists backMatches, crossCheckMatches = crossCheck backMatches (goodMatchesOf knn)) /\
    r = Returns (matches ++ convertMatches (features fi) (features fj) i j
                   (bestMatchesOf (finalMatchesOf crossCheckMatches (goodMatchesOf knn)))).
Proof.
  unfold matchPair. intros Hrun. apply try_catch_inv in Hrun.
  destruct Hrun as [(out & Hrun & ->) | (e & w1 & _ & Hh)];
    [|apply ret_inv in Hh; destruct Hh as [-> _]; auto].
  apply bind_inv in Hrun. destruct Hrun as [(knn & w1 & Hknn & Hrun) | (e & _ & He)];
    [|discriminate].
  apply call_inv in Hknn. destruct Hknn as [Hknn _].
  apply bind_inv in Hrun. destruct Hrun as [(cross & w2 & Hcross & Hrun) | (e & _ & He)];
    [|discriminate].
  apply ret_inv in Hrun. destruct Hrun as [Hr _]. inversion Hr; subst out; clear Hr.
  right. exists knn, cross. repeat split; auto.
  destruct (0 <? length (goodMatchesOf knn))%nat.
  - apply bind_inv in Hcross.
    destruct Hcross as [(back & w3 & _ & Hcross) | (e & _ & He)]; [|discriminate].
    apply ret_inv in Hcross. destruct Hcross as [Hr _]. inversion Hr. eauto.
  - apply ret_inv in Hcross. destruct Hcross as [Hr _]. inversion Hr. auto.
Qed.

(** C8.  For the pair of images [fi], [fj], when both nearest-neighbour
    queries return: the cross-checked matches are chosen when there are
    more than 20 of them and the ratio-test matches otherwise; the matches
    kept are the chosen ones sorted by ascending distance and cut to the
    first 200 (the dropped ones are no closer than any kept one); the pair
    contributes the conversion of the kept matches, at most 200. *)
Theorem pair_matches_chosen_sorted_and_capped env fi fj i j matches w knn backMatches :
  env_knnMatch env (descriptors fi) (descriptors fj) 2 = Returns knn ->
  (goodMatchesOf knn <> [] ->
   env_knnMatch env (descriptors fj) (descriptors fi) 2 = Returns backMatches) ->
  exists chosen dropped w',
    ((20 < length (crossCheck backMatches (goodMatchesOf knn)))%nat ->
     chosen = crossCheck backMatches (goodMatchesOf knn)) /\
    ((length (crossCheck backMatches (goodMatchesOf knn)) <= 20)%nat ->
     chosen = goodMatchesOf knn) /\
    Permutation (bestMatchesOf chosen ++ dropped) chosen /\
    StronglySorted closerOrEqual (bestMatchesOf chosen) /\
    (forall a b, In a (bestMatchesOf chosen) -> In b dropped ->
                 cv.distance a <= cv.distance b) /\
    length (bestMatchesOf chosen) = Nat.min 200 (length chosen) /\
    matchPair env fi fj i j matches w
    = (Returns (matches ++ convertMatches (features fi) (features fj) i j
                  (bestMatchesOf chosen)), w') /\
    (length (convertMatches (features fi) (features fj) i j (bestMatchesOf chosen))
     <= 200)%nat.
Proof.
  intros Hknn Hback.
  assert (Hrun : exists w', matchPair env fi fj i j matches w
            = (Returns (matches ++ convertMatches (features fi) (features fj) i j
                          (bestMatchesOf
                             (finalMatchesOf (crossCheck backMatches (goodMatchesOf knn))
                                             (goodMatchesOf knn)))), w')).
  { unfold matchPair, try_catch, bind, call. rewrite Hknn. cbv beta iota zeta.
    destruct (goodMatchesOf knn) as [|g rest] eqn:Hgood.
    - simpl. eexists. reflexivity.
    - assert (Hb : env_knnMatch env (descriptors fj) (descriptors fi) 2
                   = Returns backMatches)
        by (apply Hback; discriminate).
      change (0 <? length (g :: rest))%nat with true. cbv iota.
      rewrite Hb. unfold ret. eexists. reflexivity. }
  set (goodMatches := goodMatchesOf knn) in *.
  set (crossCheckMatches := crossCheck backMatches goodMatches) in *.
  set (chosen := finalMatchesOf crossCheckMatches goodMatches) in *.
  destruct (bestMatchesOf_spec chosen) as (Hperm & Hsorted & Hdropped & Hlen).
  destruct Hrun as (w' & Hrun).
  exists chosen, (skipn (JS.min 200 (length chosen)) (sortByDistance chosen)), w'.
  repeat split; trivial.
  - intros H. unfold chosen, finalMatchesOf. apply Nat.ltb_lt in H.
    rewrite H. reflexivity.
  - intros H. unfold chosen, finalMatchesOf. apply Nat.ltb_ge in H.
    rewrite H. reflexivity.
  - etransitivity; [apply convertMatches_length|]. rewrite Hlen. lia.
Qed.

Lemma matchPair_passes env all fi fj i j matches w r w' :
  nth_error all i = Some fi ->
  nth_error all j = Some fj ->
  matchPair env fi fj i j matches w = (r, w') ->
  Forall (passesRatioTest env all) matches ->
  exists matches', r = Returns matches' /\ Forall (passesRatioTest env all) matches'.
Proof.
  intros Hi Hj Hrun Hall. apply matchPair_cases in Hrun.
  destruct Hrun as [-> | (knn & cross & Hknn & Hcross & ->)]; [eauto|].
  eexists. split; [reflexivity|]. apply Forall_app. split; trivial.
  apply Forall_forall. intros mf Hmf.
  apply convertMatches_In in Hmf. destruct Hmf as (m & Hm & Hconv).
  apply bestMatchesOf_In in Hm.
  assert (Hgood : In m (goodMatchesOf knn)).
  { destruct Hcross as [-> | (back & ->)].
    - apply (finalMatchesOf_In [] (goodMatchesOf knn) [] m); [right; reflexivity | exact Hm].
    - apply (finalMatchesOf_In (crossCheck back (goodMatchesOf knn)) (goodMatchesOf knn)
                               back m); [left; reflexivity | exact Hm]. }
  apply goodMatchesOf_In in Hgood. destruct Hgood as (m2 & others & Hrow & Htest).
  apply ratioTest_true in Htest. destruct Htest as [Hratio Hcut].
  unfold toMatchedFeature in Hconv.
  destruct (nth_error (features fi) (cv.queryIdx m)); [|discriminate].
  destruct (nth_error (features fj) (cv.trainIdx m)); [|discriminate].
  inversion Hconv; subst mf; clear Hconv.
  exists fi, fj, knn, m, m2, others. simpl. repeat split; trivial.
Qed.

Lemma matchWith_passes env all fi i : forall others j matches w r w',
  nth_error all i = Some fi ->
  (forall k, nth_error others k = nth_error all (j + k)) ->
  matchWith env fi i j others matches w = (r, w') ->
  Forall (passesRatioTest env all) matches ->
  exists matches', r = Returns matches' /\ Forall (passesRatioTest env all) matches'.
Proof.
  induction others as [|fj rest IH]; simpl; intros j matches w r w' Hi Hothers Hrun Hall.
  - apply ret_inv in Hrun. destruct Hrun as [-> _]. eauto.
  - assert (Hj : nth_error all j = Some fj).
    { rewrite <- (Nat.add_0_r j). symmetry. apply (Hothers 0%nat). }
    apply bind_inv in Hrun.
    destruct Hrun as [(matches1 & w1 & Hpair & Hrun) | (e & Hpair & ->)];
      destruct (matchPair_passes _ _ _ _ _ _ _ _ _ _ Hi Hj Hpair Hall)
        as (matches1' & Hr & Hall1); [|discriminate].
    inversion Hr; subst matches1'.
    eapply IH; eauto. intros k.
    change (nth_error rest k) with (nth_error (fj :: rest) (S k)).
    rewrite Hothers. f_equal. lia.
Qed.

Lemma matchFrom_passes env all : forall imageFeatures i matches w r w',
  (forall k, nth_error imageFeatures k = nth_error all (i + k)) ->
  matchFrom env i imageFeatures matches w = (r, w') ->
  Forall (passesRatioTest env all) matches ->
  exists matches', r = Returns matches' /\ Forall (passesRatioTest env all) matches'.
Proof.
  induction imageFeatures as [|fi rest IH]; simpl; intros i matches w r w' Hpos Hrun Hall.
  - apply ret_inv in Hrun. destruct Hrun as [-> _]. eauto.
  - assert (Hi : nth_error all i = Some fi).
    { rewrite <- (Nat.add_0_r i). symmetry. apply (Hpos 0%nat). }
    assert (Hrest : forall k, nth_error rest k = nth_error all (S i + k)).
    { intros k. change (nth_error rest k) with (nth_error (fi :: rest) (S k)).
      rewrite Hpos. f_equal. lia. }
    apply bind_inv in Hrun.
    destruct Hrun as [(matches1 & w1 & Hwith & Hrun) | (e & Hwith & ->)];
      destruct (matchWith_passes _ _ _ _ _ _ _ _ _ _ Hi Hrest Hwith Hall)
        as (matches1' & Hr & Hall1); [|discriminate].
    inversion Hr; subst matches1'. eapply IH; eauto.
Qed.

(** The correspondences are filed under the positions [i < j] of their
    images, so an image pair has one key only. *)
Lemma convertMatches_indices featuresI featuresJ i j bestMatches :
  Forall (fun mf => image1Index mf = i /\ image2Index mf = j)
         (convertMatches featuresI featuresJ i j bestMatches).
Proof.
  apply Forall_forall. intros mf Hmf. apply convertMatches_In in Hmf.
  destruct Hmf as (m & _ & Hconv). unfold toMatchedFeature in Hconv.
  destruct (nth_error featuresI (cv.queryIdx m)); [|discriminate].
  destruct (nth_error featuresJ (cv.trainIdx m)); [|discriminate].
  inversion Hconv. simpl. auto.
Qed.

Lemma matchPair_ordered env fi fj i j matches w r w' :
  (i < j)%nat ->
  matchPair env fi fj i j matches w = (r, w') ->
  Forall (fun mf => (image1Index mf < image2Index mf)%nat) matches ->
  exists matches', r = Returns matches' /\
    Forall (fun mf => (image1Index mf < image2Index mf)%nat) matches'.
Proof.
  intros Hij Hrun Hall. apply matchPair_cases in Hrun.
  destruct Hrun as [-> | (knn & cross & _ & _ & ->)]; [eauto|].
  eexists. split; [reflexivity|]. apply Forall_app. split; trivial.
  eapply Forall_impl; [|apply convertMatches_indices].
  intros mf [-> ->]. exact Hij.
Qed.

Lemma matchWith_ordered env fi i : forall others j matches w r w',
  (i < j)%nat ->
  matchWith env fi i j others matches w = (r, w') ->
  Forall (fun mf => (image1Index mf < image2Index mf)%nat) matches ->
  exists matches', r = Returns matches' /\
    Forall (fun mf => (image1Index mf < image2Index mf)%nat) matches'.
Proof.
  induction others as [|fj rest IH]; simpl; intros j matches w r w' Hij Hrun Hall.
  - apply ret_inv in Hrun. destruct Hrun as [-> _]. eauto.
  - apply bind_inv in Hrun.
    destruct Hrun as [(matches1 & w1 & Hpair & Hrun) | (e & Hpair & ->)];
      destruct (matchPair_ordered _ _ _ _ _ _ _ _ _ Hij Hpair Hall)
        as (matches1' & Hr & Hall1); [|discriminate].
    inversion Hr; subst matches1'.
    apply (IH (S j) matches1 w1 r w'); [lia | exact Hrun | exact Hall1].
Qed.

Lemma matchFrom_ordered env : forall imageFeatures i matches w r w',
  matchFrom env i imageFeatures matches w = (r, w') ->
  Forall (fun mf => (image1Index mf < image2Index mf)%nat) matches ->
  exists matches', r = Returns matches' /\
    Forall (fun mf => (image1Index mf < image2Index mf)%nat) matches'.
Proof.
  induction imageFeatures as [|fi rest IH]; simpl; intros i matches w r w' Hrun Hall.
  - apply ret_inv in Hrun. destruct Hrun as [-> _]. eauto.
  - apply bind_inv in Hrun.
    destruct Hrun as [(matches1 & w1 & Hwith & Hrun) | (e & Hwith & ->)];
      destruct (matchWith_ordered _ _ _ _ _ _ _ _ _ (Nat.lt_succ_diag_r i) Hwith Hall)
        as (matches1' & Hr & Hall1); [|discriminate].
    inversion Hr; subst matches1'. eapply IH; eauto.
Qed.

Lemma robustFeatureMatching_ordered env imageFeatures w matches w' :
  robustFeatureMatching env imageFeatures w = (Returns matches, w') ->
  Forall (fun mf => (image1Index mf < image2Index mf)%nat) matches.
Proof.
  unfold robustFeatureMatching. intros Hrun.
  apply bind_inv in Hrun. destruct Hrun as [(u & w1 & _ & Hrun) | (e & _ & He)];
    [|discriminate].
  apply matchFrom_ordered in Hrun; [|constructor].
  destruct Hrun as (matches' & Hr & Hall). inversion Hr; subst. exact Hall.
Qed.

(** C3.  Every correspondence returned by [robustFeatureMatching] comes
    from a row of the two nearest neighbours of its image pair in which
    the nearest distance is below 0.75 times the second-nearest distance
    and below the cutoff 40. *)
Theorem returned_matches_pass_ratio_test env imageFeatures w matches w' mf :
  robustFeatureMatching env imageFeatures w = (Returns matches, w') ->
  In mf matches ->
  exists fi fj knn m1 m2 others,
    nth_error imageFeatures (image1Index mf) = Some fi /\
    nth_error imageFeatures (image2Index mf) = Some fj /\
    env_knnMatch env (descriptors fi) (descriptors fj) 2 = Returns knn /\
    In (m1 :: m2 :: others) knn /\
    queryIdx mf = cv.queryIdx m1 /\
    trainIdx mf = cv.trainIdx m1 /\
    confidence mf = 1 / (1 + cv.distance m1) /\
    cv.distance m1 < 0.75 * cv.distance m2 /\
    cv.distance m1 < 40.
Proof.
  unfold robustFeatureMatching. intros Hrun Hin.
  apply bind_inv in Hrun. destruct Hrun as [(u & w1 & _ & Hrun) | (e & _ & He)];
    [|discriminate].
  eapply matchFrom_passes with (all := imageFeatures) in Hrun; [| reflexivity | constructor].
  destruct Hrun as (matches' & Hr & Hall). inversion Hr; subst matches'.
  rewrite Forall_forall in Hall. exact (Hall mf Hin).
Qed.

Lemma sample_goodMatches : goodMatchesOf sampleRows = [cv.mkDMatch 0 0 10].
Proof.
  unfold sampleRows, goodMatchesOf, ratioTest. cbn.
  replace (JS.ltb 10 (0.75 * 20)) with true by (symmetry; apply ltb_true_iff; lra).
  replace (JS.ltb 10 40) with true by (symmetry; apply ltb_true_iff; lra).
  replace (JS.ltb 30 (0.75 * 35)) with false by (symmetry; apply ltb_false_iff; lra).
  reflexivity.
Qed.

Lemma sample_matching_run :
  robustFeatureMatching matchingEnv [sampleFeatures 0; sampleFeatures 1] emptyWorld
  = (Returns [sampleCorrespondence], mkWorld [BFMatcher; knnMatch 2; knnMatch 2] 0).
Proof.
  unfold robustFeatureMatching, bind, call, try_catch. cbn -[goodMatchesOf sampleRows].
  unfold matchPair, bind, call, try_catch. cbn -[goodMatchesOf sampleRows].
  rewrite sample_goodMatches. reflexivity.
Qed.

Lemma returned_matches_witness :
  exists fi fj knn m1 m2 others,
    nth_error [sampleFeatures 0; sampleFeatures 1] (image1Index sampleCorrespondence)
    = Some fi /\
    nth_error [sampleFeatures 0; sampleFeatures 1] (image2Index sampleCorrespondence)
    = Some fj /\
    env_knnMatch matchingEnv (descriptors fi) (descriptors fj) 2 = Returns knn /\
    In (m1 :: m2 :: others) knn /\
    queryIdx sampleCorrespondence = cv.queryIdx m1 /\
    trainIdx sampleCorrespondence = cv.trainIdx m1 /\
    confidence sampleCorrespondence = 1 / (1 + cv.distance m1) /\
    cv.distance m1 < 0.75 * cv.distance m2 /\
    cv.distance m1 < 40.
Proof.
  apply (returned_matches_pass_ratio_test matchingEnv
           [sampleFeatures 0; sampleFeatures 1] emptyWorld _ _ sampleCorrespondence
           sample_matching_run).
  simpl. left. reflexivity.
Defined.

Lemma pair_matches_witness :
  exists chosen dropped w',
    ((20 < length (crossCheck sampleRows (goodMatchesOf sampleRows)))%nat ->
     chosen = crossCheck sampleRows (goodMatchesOf sampleRows)) /\
    ((length (crossCheck sampleRows (goodMatchesOf sampleRows)) <= 20)%nat ->
     chosen = goodMatchesOf sampleRows) /\
    Permutation (bestMatchesOf chosen ++ dropped) chosen /\
    StronglySorted closerOrEqual (bestMatchesOf chosen) /\
    (forall a b, In a (bestMatchesOf chosen) -> In b dropped ->
                 cv.distance a <= cv.distance b) /\
    length (bestMatchesOf chosen) = Nat.min 200 (length chosen) /\
    matchPair matchingEnv (sampleFeatures 0) (sampleFeatures 1) 0 1 [] emptyWorld
    = (Returns ([] ++ convertMatches (features (sampleFeatures 0))
                        (features (sampleFeatures 1)) 0 1 (bestMatchesOf chosen)), w') /\
    (length (convertMatches (features (sampleFeatures 0)) (features (sampleFeatures 1))
                            0 1 (bestMatchesOf chosen)) <= 200)%nat.
Proof.
  apply (pair_matches_chosen_sorted_and_capped matchingEnv (sampleFeatures 0)
           (sampleFeatures 1) 0 1 [] emptyWorld sampleRows sampleRows).
  - reflexivity.
  - intros _. reflexivity.
Defined.

(** ** Seed-pair selection *)

(** *** Keys *)

Lemma dashFree_uint d : dashFree (NilEmpty.string_of_uint d).
Proof.
  induction d; simpl; intros c H; try destruct H as [<-|H];
    try discriminate; try (apply IHd; exact H); try destruct H.
Qed.

Lemma split_dash_dashFree s : dashFree s -> split_dash s = [s].
Proof.
  induction s as [|c s IH]; simpl; intros H; [reflexivity|].
  destruct (Ascii.eqb_spec c "-"%char) as [->|Hc].
  - exfalso. apply (H "-"%char); simpl; auto.
  - rewrite IH; [reflexivity|]. intros c' Hc'. apply H. simpl. auto.
Qed.

Lemma split_dash_app s1 s2 :
  dashFree s1 -> dashFree s2 -> split_dash (s1 ++ "-" ++ s2)%string = [s1; s2].
Proof.
  induction s1 as [|c s1 IH]; simpl; intros H1 H2.
  - rewrite split_dash_dashFree; trivial.
  - destruct (Ascii.eqb_spec c "-"%char) as [->|Hc].
    + exfalso. apply (H1 "-"%char); simpl; auto.
    + simpl in IH. rewrite IH; trivial. intros c' Hc'. apply H1. simpl. auto.
Qed.

Lemma Number_toString n : Number (toString n) = Some n.
Proof.
  unfold Number, toString. rewrite NilEmpty.usu, Unsigned.of_to. reflexivity.
Qed.

(** Splitting a key and reading its parts gives back the two indices. *)
Lemma pairKey_parse m :
  map Number (split_dash (pairKey m)) = [Some (image1Index m); Some (image2Index m)].
Proof.
  unfold pairKey. rewrite split_dash_app by apply dashFree_uint.
  simpl. rewrite !Number_toString. reflexivity.
Qed.

Lemma pairKey_inj m m' :
  pairKey m = pairKey m' ->
  image1Index m = image1Index m' /\ image2Index m = image2Index m'.
Proof.
  intros H. pose proof (pairKey_parse m) as P. rewrite H, pairKey_parse in P.
  inversion P. auto.
Qed.

Lemma hasKey_samePair m0 m :
  hasKey (pairKey m0) m = samePair (image1Index m0) (image2Index m0) m.
Proof.
  unfold hasKey, samePair.
  destruct (String.eqb_spec (pairKey m) (pairKey m0)) as [He|Hne].
  - apply pairKey_inj in He. destruct He as [-> ->]. rewrite !Nat.eqb_refl. reflexivity.
  - symmetry. apply andb_false_iff.
    destruct (Nat.eqb_spec (image1Index m) (image1Index m0)) as [E1|]; [|auto].
    destruct (Nat.eqb_spec (image2Index m) (image2Index m0)) as [E2|]; [|auto].
    exfalso. apply Hne. unfold pairKey. rewrite E1, E2. reflexivity.
Qed.

Lemma pairCount_hasKey matches m0 :
  pairCount matches (image1Index m0) (image2Index m0)
  = length (filter (hasKey (pairKey m0)) matches).
Proof.
  unfold pairCount. f_equal. apply filter_ext. intros m. symmetry. apply hasKey_samePair.
Qed.

(** *** Grouping *)

Lemma Map_has_keys pm key :
  Map_has pm key = existsb (fun k => String.eqb k key) (map fst pm).
Proof.
  unfold Map_has. induction pm as [|e pm IH]; simpl; [reflexivity|].
  rewrite IH. reflexivity.
Qed.

Lemma Map_push_absent pm key v :
  Map_has pm key = false -> Map_push pm key v = pm.
Proof.
  unfold Map_has. induction pm as [|[k l] pm IH]; simpl; [reflexivity|].
  intros H. apply orb_false_iff in H. destruct H as [Hk H].
  rewrite Hk, IH; trivial.
Qed.

Lemma Map_push_present pm key v :
  NoDup (map fst pm) ->
  Map_push pm key v
  = map (fun e => (fst e, if String.eqb (fst e) key then snd e ++ [v] else snd e)) pm.
Proof.
  induction pm as [|[k l] pm IH]; simpl; intros Hnd; [reflexivity|].
  inversion Hnd as [|k' ks Hk Hnd']; subst.
  destruct (String.eqb_spec k key) as [->|Hne].
  - f_equal. rewrite <- (Map_push_absent pm key v) at 1.
    + apply IH; trivial.
    + rewrite Map_has_keys. apply not_true_is_false. intros H.
      apply existsb_exists in H. destruct H as (k & Hin & He).
      apply String.eqb_eq in He. subst. contradiction.
  - f_equal. apply IH; trivial.
Qed.

Lemma Map_push_app_new pm key v :
  Map_has pm key = false ->
  Map_push (pm ++ [(key, [])]) key v = pm ++ [(key, [v])].
Proof.
  unfold Map_has. induction pm as [|[k l] pm IH]; simpl; intros H.
  - rewrite String.eqb_refl. reflexivity.
  - apply orb_false_iff in H. destruct H as [Hk H]. rewrite Hk, IH; trivial.
Qed.

Lemma firstKeys_unseen : forall matches seen k,
  In k (firstKeys seen matches) -> ~ In k seen.
Proof.
  induction matches as [|m rest IH]; simpl; intros seen k H; [destruct H|].
  destruct (existsb (fun k0 => String.eqb k0 (pairKey m)) seen) eqn:Hex.
  - apply IH; trivial.
  - destruct H as [<-|H].
    + intros Hin. apply not_true_iff_false in Hex. apply Hex.
      apply existsb_exists. exists (pairKey m). split; trivial. apply String.eqb_refl.
    + apply IH in H. intros Hin. apply H. apply in_or_app. auto.
Qed.

Lemma filter_hasKey_cons_other k m rest :
  pairKey m <> k -> filter (hasKey k) (m :: rest) = filter (hasKey k) rest.
Proof.
  intros H. simpl. unfold hasKey at 1. apply String.eqb_neq in H. rewrite H. reflexivity.
Qed.

Lemma filter_hasKey_cons_same m rest :
  filter (hasKey (pairKey m)) (m :: rest) = m :: filter (hasKey (pairKey m)) rest.
Proof. simpl. unfold hasKey at 1. rewrite String.eqb_refl. reflexivity. Qed.

(** The grouping loop started from a map with distinct keys extends the
    array of every entry with the correspondences of its key and opens,
    in the order of first occurrence, an entry for every new key. *)
Lemma fold_groupStep : forall matches pm,
  NoDup (map fst pm) ->
  fold_left groupStep matches pm
  = map (filed matches) pm ++ map (opened matches) (firstKeys (map fst pm) matches).
Proof.
  induction matches as [|m rest IH]; intros pm Hnd.
  - simpl. rewrite app_nil_r. symmetry. rewrite <- (map_id pm) at 2.
    apply map_ext. intros [k l]. unfold filed. simpl. rewrite app_nil_r. reflexivity.
  - simpl fold_left. unfold groupStep at 2. cbv zeta.
    simpl firstKeys. rewrite <- Map_has_keys.
    destruct (Map_has pm (pairKey m)) eqn:Hhas; cbv iota; simpl negb; cbv iota.
    + rewrite Map_push_present by trivial.
      rewrite IH.
      * rewrite !map_map. cbn [fst snd]. rewrite (map_ext _ fst) by reflexivity.
        f_equal.
        -- apply map_ext. intros [k l]. unfold filed. cbn [fst snd].
           destruct (String.eqb_spec k (pairKey m)) as [->|Hne].
           ++ rewrite filter_hasKey_cons_same, <- app_assoc. reflexivity.
           ++ rewrite filter_hasKey_cons_other by congruence. reflexivity.
        -- apply map_ext_in. intros k Hk. unfold opened.
           rewrite filter_hasKey_cons_other; trivial.
           intros <-. apply firstKeys_unseen in Hk. apply Hk.
           rewrite Map_has_keys in Hhas. apply existsb_exists in Hhas.
           destruct Hhas as (k & Hin & He). apply String.eqb_eq in He. subst. trivial.
      * rewrite map_map. simpl. rewrite (map_ext _ fst) by reflexivity. trivial.
    + unfold Map_set_new. rewrite Map_push_app_new by trivial.
      assert (Hnew : ~ In (pairKey m) (map fst pm)).
      { intros Hin. apply not_true_iff_false in Hhas. apply Hhas.
        rewrite Map_has_keys. apply existsb_exists. exists (pairKey m).
        split; trivial. apply String.eqb_refl. }
      rewrite IH.
      * rewrite !map_app. simpl. rewrite <- app_assoc. simpl. f_equal.
        -- apply map_ext_in. intros [k l] Hin. unfold filed. cbn [fst snd].
           rewrite filter_hasKey_cons_other; trivial.
           intros Heq. apply Hnew. rewrite Heq. apply (in_map fst _ _ Hin).
        -- f_equal.
           ++ unfold filed, opened. simpl. unfold hasKey at 2.
              rewrite String.eqb_refl. reflexivity.
           ++ apply map_ext_in. intros k Hk. unfold opened.
              rewrite filter_hasKey_cons_other; trivial.
              intros <-. apply firstKeys_unseen in Hk. apply Hk.
              apply in_or_app. right. simpl. auto.
      * rewrite map_app. simpl. apply NoDup_app; trivial.
        -- repeat constructor. intros [].
        -- intros k Hin [<-|[]]. contradiction.
Qed.

Lemma groupByPair_spec matches :
  groupByPair matches = map (opened matches) (firstKeys [] matches).
Proof.
  unfold groupByPair. rewrite fold_groupStep by constructor. reflexivity.
Qed.

Lemma firstKeys_split : forall matches seen pre k post,
  firstKeys seen matches = pre ++ k :: post ->
  exists before m after,
    matches = before ++ m :: after /\ pairKey m = k /\
    forall m', In m' before -> In (pairKey m') (seen ++ pre).
Proof.
  induction matches as [|m rest IH]; simpl; intros seen pre k post H.
  - destruct pre; discriminate.
  - destruct (existsb (fun k0 => String.eqb k0 (pairKey m)) seen) eqn:Hex.
    + destruct (IH _ _ _ _ H) as (before & m0 & after & -> & Hk & Hb).
      exists (m :: before), m0, after. repeat split; trivial.
      intros m' [<-|Hm']; [|auto].
      apply existsb_exists in Hex. destruct Hex as (k0 & Hin & He).
      apply String.eqb_eq in He. subst k0. apply in_or_app. auto.
    + destruct pre as [|k0 pre]; simpl in H; inversion H; subst.
      * exists [], m, rest. repeat split; trivial. intros m' [].
      * match goal with Hf : firstKeys _ rest = _ |- _ =>
          destruct (IH _ _ _ _ Hf) as (before & m0 & after & -> & Hk & Hb) end.
        exists (m :: before), m0, after. repeat split; trivial.
        intros m' [<-|Hm'].
        -- apply in_or_app. right. simpl. auto.
        -- specialize (Hb m' Hm'). rewrite <- app_assoc in Hb. exact Hb.
Qed.

Lemma firstKeys_complete : forall matches seen m,
  In m matches -> In (pairKey m) (seen ++ firstKeys seen matches).
Proof.
  induction matches as [|m0 rest IH]; simpl; intros seen m H; [destruct H|].
  destruct (existsb (fun k0 => String.eqb k0 (pairKey m0)) seen) eqn:Hex.
  - destruct H as [<-|H]; [|auto].
    apply existsb_exists in Hex. destruct Hex as (k0 & Hin & He).
    apply String.eqb_eq in He. subst k0. apply in_or_app. auto.
  - destruct H as [<-|H].
    + apply in_or_app. right. simpl. auto.
    + specialize (IH (seen ++ [pairKey m0]) m H). rewrite <- app_assoc in IH. exact IH.
Qed.

(** *** Selection *)

Lemma selectStep_selectedAfter done st e :
  selectedAfter done st -> selectedAfter (done ++ [e]) (selectStep st e).
Proof.
  destruct st as [bestPair maxMatches]. destruct e as [key pairMatches].
  unfold selectStep.
  intros [(Hb & Hm & Hall) | (pre & e0 & post & -> & Hb & Hm & H50 & Hpre & Hpost)];
    simpl in Hb, Hm; subst.
  - destruct (50 <=? length pairMatches)%nat eqn:H50.
    + apply Nat.leb_le in H50.
      replace (0 <? length pairMatches)%nat with true
        by (symmetry; apply Nat.ltb_lt; lia).
      right. exists done, (key, pairMatches), []. simpl. repeat split; trivial.
      * intros e' He'. specialize (Hall e' He'). lia.
      * intros e' [].
    + rewrite andb_false_r. left. apply Nat.leb_gt in H50. simpl. repeat split; trivial.
      intros e' He'. apply in_app_or in He'. destruct He' as [He'|[<-|[]]]; auto.
  - destruct ((length (snd e0) <? length pairMatches)%nat
              && (50 <=? length pairMatches)%nat) eqn:Hc.
    + apply andb_true_iff in Hc. destruct Hc as [Hlt _]. apply Nat.ltb_lt in Hlt.
      right. exists (pre ++ e0 :: post), (key, pairMatches), []. simpl.
      repeat split; trivial; try lia.
      intros e' He'. apply in_app_or in He'. destruct He' as [He'|[<-|He']].
      * specialize (Hpre e' He'). lia.
      * lia.
      * specialize (Hpost e' He'). lia.
    + assert (Hle : (length pairMatches <= length (snd e0))%nat).
      { apply andb_false_iff in Hc. destruct Hc as [Hc|Hc].
        - apply Nat.ltb_ge in Hc. lia.
        - apply Nat.leb_gt in Hc. lia. }
      right. exists pre, e0, (post ++ [(key, pairMatches)]).
      rewrite <- app_assoc. simpl. repeat split; trivial.
      intros e' He'. apply in_app_or in He'. destruct He' as [He'|[<-|[]]]; auto.
Qed.

Lemma fold_selectStep_selectedAfter : forall rest done st,
  selectedAfter done st -> selectedAfter (done ++ rest) (fold_left selectStep rest st).
Proof.
  induction rest as [|e rest IH]; simpl; intros done st H.
  - rewrite app_nil_r. exact H.
  - replace (done ++ e :: rest) with ((done ++ [e]) ++ rest)
      by (rewrite <- app_assoc; reflexivity).
    apply IH. apply selectStep_selectedAfter. exact H.
Qed.

Lemma findBestInitialPair_selectedAfter matches :
  selectedAfter (groupByPair matches)
                (fold_left selectStep (groupByPair matches) (None, 0%nat)).
Proof.
  apply (fold_selectStep_selectedAfter (groupByPair matches) [] (None, 0%nat)).
  left. simpl. repeat split. intros e [].
Qed.

(** The selected entry, read back on the list of correspondences. *)
Lemma selected_entry_first_occurrence matches pre e post :
  groupByPair matches = pre ++ e :: post ->
  exists before m0 after,
    matches = before ++ m0 :: after /\
    e = opened matches (pairKey m0) /\
    pairOfEntry e = mkInitialPair (Some (image1Index m0)) (Some (image2Index m0))
                      (filter (samePair (image1Index m0) (image2Index m0)) matches) /\
    length (snd e) = pairCount matches (image1Index m0) (image2Index m0) /\
    forall m, In m before -> In (opened matches (pairKey m)) pre.
Proof.
  rewrite groupByPair_spec. intros H.
  apply map_eq_app in H. destruct H as (kpre & krest & Hkeys & <- & Hrest).
  apply map_eq_cons in Hrest. destruct Hrest as (k & kpost & -> & <- & <-).
  apply firstKeys_split in Hkeys.
  destruct Hkeys as (before & m0 & after & Hms & <- & Hbefore).
  exists before, m0, after. repeat split; trivial.
  - unfold pairOfEntry, opened. cbn [fst snd]. rewrite pairKey_parse. simpl. f_equal.
    apply filter_ext. intros m. apply hasKey_samePair.
  - unfold opened. cbn [snd]. symmetry. apply pairCount_hasKey.
  - intros m Hm. apply in_map. exact (Hbefore m Hm).
Qed.

Lemma entry_of_match matches m :
  In m matches ->
  exists e, In e (groupByPair matches) /\
            length (snd e) = pairCount matches (image1Index m) (image2Index m) /\
            e = opened matches (pairKey m).
Proof.
  intros Hm. exists (opened matches (pairKey m)). repeat split.
  - rewrite groupByPair_spec. apply in_map. exact (firstKeys_complete matches [] m Hm).
  - unfold opened. cbn [snd]. symmetry. apply pairCount_hasKey.
Qed.

Lemma findBestInitialPair_none matches :
  (forall m, In m matches ->
     (pairCount matches (image1Index m) (image2Index m) < 50)%nat) ->
  findBestInitialPair matches = None.
Proof.
  intros Hall. unfold findBestInitialPair.
  destruct (findBestInitialPair_selectedAfter matches)
    as [(Hb & _) | (pre & e & post & Hes & _ & _ & He50 & _)]; trivial.
  destruct (selected_entry_first_occurrence matches pre e post Hes)
    as (before & m0 & after & Hms & _ & _ & Hcount & _).
  assert (Hin : In m0 matches) by (rewrite Hms; apply in_or_app; simpl; auto).
  specialize (Hall m0 Hin). lia.
Qed.

(** C6.  When some image pair has at least 50 correspondences,
    [findBestInitialPair] returns a pair [(a, b)] with all its
    correspondences, whose count is at least 50, at least the count of
    every pair, and strictly greater than the count of every pair met
    before the first correspondence of [(a, b)]; when every pair has fewer
    than 50 correspondences it returns null. *)
Theorem best_pair_has_greatest_count_first_on_ties (matches : list MatchedFeature) :
  ((exists m, In m matches /\
              (50 <= pairCount matches (image1Index m) (image2Index m))%nat) ->
   exists a b before m0 after,
     findBestInitialPair matches
     = Some (mkInitialPair (Some a) (Some b) (filter (samePair a b) matches)) /\
     (50 <= pairCount matches a b)%nat /\
     (forall m, In m matches ->
        (pairCount matches (image1Index m) (image2Index m) <= pairCount matches a b)%nat) /\
     matches = before ++ m0 :: after /\
     image1Index m0 = a /\ image2Index m0 = b /\
     (forall m, In m before ->
        (pairCount matches (image1Index m) (image2Index m) < pairCount matches a b)%nat)) /\
  ((forall m, In m matches ->
      (pairCount matches (image1Index m) (image2Index m) < 50)%nat) ->
   findBestInitialPair matches = None).
Proof.
  unfold findBestInitialPair.
  pose proof (findBestInitialPair_selectedAfter matches) as Hsel.
  destruct (fold_left selectStep (groupByPair matches) (None, 0%nat)) as [best mx].
  simpl in Hsel |- *. split.
  - intros (m & Hm & H50).
    destruct (entry_of_match matches m Hm) as (em & Hem & Hlen & _).
    destruct Hsel as [(_ & _ & Hall) | (pre & e & post & Hes & Hb & _ & He50 & Hpre & Hpost)].
    { specialize (Hall em Hem). lia. }
    destruct (selected_entry_first_occurrence matches pre e post Hes)
      as (before & m0 & after & Hms & _ & Hpair & Hcount & Hbefore).
    exists (image1Index m0), (image2Index m0), before, m0, after.
    rewrite <- Hcount. repeat split; trivial.
    + simpl in Hb. rewrite Hb, Hpair. reflexivity.
    + intros m' Hm'. destruct (entry_of_match matches m' Hm') as (e' & He' & Hlen' & _).
      rewrite <- Hlen'. rewrite Hes in He'. apply in_app_or in He'.
      destruct He' as [He'|[<-|He']].
      * specialize (Hpre e' He'). lia.
      * lia.
      * exact (Hpost e' He').
    + intros m' Hm'.
      assert (Hin : In m' matches) by (rewrite Hms; apply in_or_app; auto).
      rewrite pairCount_hasKey.
      exact (Hpre _ (Hbefore m' Hm')).
  - intros Hall.
    destruct Hsel as [(Hb & _) | (pre & e & post & Hes & _ & _ & He50 & _)]; trivial.
    destruct (selected_entry_first_occurrence matches pre e post Hes)
      as (before & m0 & after & Hms & _ & _ & Hcount & _).
    assert (Hin : In m0 matches) by (rewrite Hms; apply in_or_app; simpl; auto).
    specialize (Hall m0 Hin). lia.
Qed.

Lemma best_pair_witness :
  (exists a b before m0 after,
     findBestInitialPair fiftyAndOne
     = Some (mkInitialPair (Some a) (Some b) (filter (samePair a b) fiftyAndOne)) /\
     (50 <= pairCount fiftyAndOne a b)%nat /\
     (forall m, In m fiftyAndOne ->
        (pairCount fiftyAndOne (image1Index m) (image2Index m)
         <= pairCount fiftyAndOne a b)%nat) /\
     fiftyAndOne = before ++ m0 :: after /\
     image1Index m0 = a /\ image2Index m0 = b /\
     (forall m, In m before ->
        (pairCount fiftyAndOne (image1Index m) (image2Index m)
         < pairCount fiftyAndOne a b)%nat)) /\
  findBestInitialPair sampleMatches = None.
Proof.
  split.
  - apply (proj1 (best_pair_has_greatest_count_first_on_ties fiftyAndOne)).
    exists (matchOfPair 0 1). split.
    + left. reflexivity.
    + apply Nat.eq_le_incl. reflexivity.
  - apply (proj2 (best_pair_has_greatest_count_first_on_ties sampleMatches)).
    intros m Hm. unfold pairCount.
    eapply Nat.le_lt_trans; [apply filter_length_le|]. simpl. lia.
Defined.

(** ** Assembly and fallback *)

(** The fallback is the unit box: 24 vertices (four per face), 36
    indices (12 triangles), no colour attribute, no source image count. *)
Lemma createEmptyModel_shape :
  length (vertices createEmptyModel) = (3 * 24)%nat /\
  length (faces createEmptyModel) = (3 * 12)%nat /\
  geometry createEmptyModel = THREE.BoxGeometry 1 1 1 /\
  THREE.position (geometry createEmptyModel) = vertices createEmptyModel /\
  THREE.index (geometry createEmptyModel) = Some (faces createEmptyModel) /\
  THREE.color (geometry createEmptyModel) = None /\
  Forall (fun i => (i < 24)%nat) (faces createEmptyModel) /\
  sourceImageCount createEmptyModel = None.
Proof.
  repeat split. cbn. repeat constructor.
Qed.

Lemma createEmptyModel_renderable : renderable createEmptyModel.
Proof.
  split; [exists 24%nat; split; [lia | reflexivity] | reflexivity].
Qed.

Lemma flat_map_length_3 {A} (f : A -> list number) (l : list A) :
  (forall a, length (f a) = 3%nat) -> length (flat_map f l) = (3 * length l)%nat.
Proof.
  intros Hf. induction l as [|a l IH]; simpl; [reflexivity|].
  rewrite length_app, Hf, IH. lia.
Qed.

(** The point cloud of a non-empty list of points: three coordinates and
    three colour components per point, no face. *)
Lemma generateMeshFromPointCloud_cloud points3D :
  points3D <> [] ->
  let m := generateMeshFromPointCloud points3D in
  length (vertices m) = (3 * length points3D)%nat /\
  THREE.position (geometry m) = vertices m /\
  (exists colors, THREE.color (geometry m) = Some colors /\
                  length colors = length (vertices m)) /\
  faces m = [] /\
  THREE.index (geometry m) = None /\
  sourceImageCount m = None.
Proof.
  intros Hne. unfold generateMeshFromPointCloud.
  destruct points3D as [|p rest]; [contradiction|].
  change (length (p :: rest) =? 0)%nat with false. cbv iota zeta. cbn [vertices geometry faces
    sourceImageCount THREE.position THREE.color THREE.index].
  repeat split; try (apply flat_map_length_3; reflexivity).
  eexists. split; [reflexivity|].
  rewrite !flat_map_length_3 by reflexivity. reflexivity.
Qed.

Lemma generateMeshFromPointCloud_nil : generateMeshFromPointCloud [] = createEmptyModel.
Proof. reflexivity. Qed.

Lemma generateMeshFromPointCloud_renderable points3D :
  renderable (generateMeshFromPointCloud points3D).
Proof.
  destruct points3D as [|p rest]; [apply createEmptyModel_renderable|].
  destruct (generateMeshFromPointCloud_cloud (p :: rest)) as (Hlen & Hpos & _);
    [discriminate|].
  split; trivial. exists (length (p :: rest)). split; [simpl; lia | exact Hlen].
Qed.

(** ** The top level *)

Lemma waitForOpenCV_ready env : forall fuel poll n,
  cvReady env (poll + n) = true -> (n <= fuel)%nat ->
  waitForOpenCV env fuel poll = Some tt.
Proof.
  induction fuel as [|fuel IH]; intros poll n Hready Hle.
  - assert (n = 0%nat) by lia. subst. rewrite Nat.add_0_r in Hready.
    simpl. rewrite Hready. reflexivity.
  - simpl. destruct (cvReady env poll) eqn:Hp; [reflexivity|].
    destruct n as [|n]; [rewrite Nat.add_0_r in Hready; congruence|].
    apply (IH (S poll) n); [|lia].
    rewrite <- Hready. f_equal. lia.
Qed.

(** The wait is pending after [fuel] ticks exactly when every read so far
    was false. *)
Lemma waitForOpenCV_pending env : forall fuel poll,
  waitForOpenCV env fuel poll = None <->
  (forall n, (n <= fuel)%nat -> cvReady env (poll + n) = false).
Proof.
  induction fuel as [|fuel IH]; intros poll; simpl.
  - destruct (cvReady env poll) eqn:Hp; split; intros H; try discriminate; trivial.
    + specialize (H 0%nat (Nat.le_refl 0)). rewrite Nat.add_0_r in H. congruence.
    + intros n Hn. assert (n = 0%nat) by lia. subst. rewrite Nat.add_0_r. exact Hp.
  - destruct (cvReady env poll) eqn:Hp.
    + split; [discriminate|]. intros H.
      specialize (H 0%nat (Nat.le_0_l _)). rewrite Nat.add_0_r in H. congruence.
    + rewrite IH. split; intros H n Hn.
      * destruct n as [|n]; [rewrite Nat.add_0_r; exact Hp|].
        replace (poll + S n)%nat with (S poll + n)%nat by lia. apply H. lia.
      * replace (S poll + n)%nat with (poll + S n)%nat by lia. apply H. lia.
Qed.

(** What the [try] block returns when it returns. *)
Lemma runPipeline_returns env processedImages w m w' :
  runPipeline env processedImages w = (Returns m, w') ->
  m = createFallbackModel processedImages \/
  exists points3D, points3D <> [] /\ m = generateMeshFromPointCloud points3D.
Proof.
  unfold runPipeline. intros Hrun.
  apply bind_inv in Hrun. destruct Hrun as [(ifs & w1 & _ & Hrun) | (e & _ & He)];
    [|discriminate].
  apply bind_inv in Hrun. destruct Hrun as [(ms & w2 & _ & Hrun) | (e & _ & He)];
    [|discriminate].
  apply bind_inv in Hrun. destruct Hrun as [([[K wd] ht] & w3 & _ & Hrun) | (e & _ & He)];
    [|discriminate].
  apply bind_inv in Hrun. destruct Hrun as [(rec & w4 & _ & Hrun) | (e & _ & He)];
    [|discriminate].
  destruct (negb (success rec)); apply ret_inv in Hrun; destruct Hrun as [Hr _];
    inversion Hr; subst; auto.
  destruct (points3D rec) as [|p rest] eqn:Hpts; [left; reflexivity|].
  right. exists (p :: rest). split; [discriminate | reflexivity].
Qed.

(** [generateModel], once OpenCV is ready, settles to a model: the one of
    the [try] block when it returns, the fallback when it throws. *)
Lemma generateModel_settles env fuel processedImages w :
  waitForOpenCV env fuel 0 = Some tt ->
  (exists m w', runPipeline env processedImages w = (Returns m, w') /\
                generateModel env fuel processedImages w = Some (Returns m, w')) \/
  (exists e w', runPipeline env processedImages w = (Throws e, w') /\
                generateModel env fuel processedImages w
                = Some (Returns (createFallbackModel processedImages), w')).
Proof.
  intros Hready. unfold generateModel, try_catch. rewrite Hready.
  destruct (runPipeline env processedImages w) as [[m|e] w'].
  - left. eauto.
  - right. exists e, w'. split; reflexivity.
Qed.

(** The composition of the stages when each of them returns. *)
Lemma generateModel_stages env fuel processedImages w imageFeatures w1 matches w2
  intrinsics width height w3 reconstruction w4 :
  waitForOpenCV env fuel 0 = Some tt ->
  extractORBFeatures env processedImages w = (Returns imageFeatures, w1) ->
  robustFeatureMatching env imageFeatures w1 = (Returns matches, w2) ->
  estimateCameraIntrinsics env (nth_error processedImages 0) w2
  = (Returns (intrinsics, width, height), w3) ->
  performSfMReconstruction env imageFeatures matches intrinsics w3
  = (Returns reconstruction, w4) ->
  generateModel env fuel processedImages w
  = Some (Returns (if negb (success reconstruction)
                   then createFallbackModel processedImages
                   else generateMeshFromPointCloud (points3D reconstruction)), w4).
Proof.
  intros Hready H1 H2 H3 H4.
  unfold generateModel, try_catch, runPipeline, bind.
  rewrite Hready, H1, H2, H3, H4.
  destruct (negb (success reconstruction)); reflexivity.
Qed.

(** C1 (as amended).  [generateModel] never settles to an exception.
    Once [window.cvReady] is read true by some poll of [waitForOpenCV] it
    returns a renderable model, which is the fallback model whenever the
    [try] block throws or the reconstruction reports a failure, and
    otherwise the point cloud of a non-empty list of points or the
    fallback.  While every read of [window.cvReady] is false it stays
    pending: the wait comes before the [try] block and has no timeout. *)
Theorem generateModel_returns_a_renderable_model_once_opencv_is_ready
  env processedImages w :
  (forall fuel e w', generateModel env fuel processedImages w <> Some (Throws e, w')) /\
  (forall n fuel,
     cvReady env n = true -> (n <= fuel)%nat ->
     exists m w',
       generateModel env fuel processedImages w = Some (Returns m, w') /\
       renderable m /\
       (m = createFallbackModel processedImages \/
        exists points3D, points3D <> [] /\ m = generateMeshFromPointCloud points3D) /\
       (forall e w1, runPipeline env processedImages w = (Throws e, w1) ->
                     m = createFallbackModel processedImages) /\
       (forall imageFeatures w1 matches w2 intrinsics width height w3 reconstruction w4,
          extractORBFeatures env processedImages w = (Returns imageFeatures, w1) ->
          robustFeatureMatching env imageFeatures w1 = (Returns matches, w2) ->
          estimateCameraIntrinsics env (nth_error processedImages 0) w2
          = (Returns (intrinsics, width, height), w3) ->
          performSfMReconstruction env imageFeatures matches intrinsics w3
          = (Returns reconstruction, w4) ->
          success reconstruction = false ->
          m = createFallbackModel processedImages)) /\
  (forall fuel, neverReady env fuel -> generateModel env fuel processedImages w = None).
Proof.
  split; [|split].
  - intros fuel e w' H. unfold generateModel in H.
    destruct (waitForOpenCV env fuel 0); [|discriminate].
    unfold try_catch in H.
    destruct (runPipeline env processedImages w) as [[m|e0] w1]; inversion H.
  - intros n fuel Hready Hle.
    assert (Hwait : waitForOpenCV env fuel 0 = Some tt)
      by (apply (waitForOpenCV_ready env fuel 0 n); trivial).
    destruct (generateModel_settles env fuel processedImages w Hwait)
      as [(m & w' & Hrun & Hgen) | (e & w' & Hrun & Hgen)].
    + exists m, w'. split; trivial.
      pose proof (runPipeline_returns _ _ _ _ _ Hrun) as Hm.
      split; [|split; [exact Hm|split]].
      * destruct Hm as [-> | (pts & _ & ->)].
        -- apply createEmptyModel_renderable.
        -- apply generateMeshFromPointCloud_renderable.
      * intros e w1 Hthrow. rewrite Hthrow in Hrun. discriminate.
      * intros ifs w1 ms w2 K wd ht w3 rec w4 H1 H2 H3 H4 Hfail.
        pose proof (generateModel_stages _ _ _ _ _ _ _ _ _ _ _ _ _ _ Hwait H1 H2 H3 H4)
          as Hst.
        rewrite Hgen, Hfail in Hst. simpl in Hst. inversion Hst. reflexivity.
    + exists (createFallbackModel processedImages), w'. split; trivial.
      split; [apply createEmptyModel_renderable|].
      split; [left; reflexivity|]. split; reflexivity.
  - intros fuel Hnever. unfold generateModel.
    rewrite (proj2 (waitForOpenCV_pending env fuel 0) Hnever). reflexivity.
Qed.

Lemma generateModel_once_ready_witness :
  exists m w',
    generateModel cloudEnv 0 twoImages emptyWorld = Some (Returns m, w') /\
    renderable m /\
    (m = createFallbackModel twoImages \/
     exists points3D, points3D <> [] /\ m = generateMeshFromPointCloud points3D) /\
    (forall e w1, runPipeline cloudEnv twoImages emptyWorld = (Throws e, w1) ->
                  m = createFallbackModel twoImages) /\
    (forall imageFeatures w1 matches w2 intrinsics width height w3 reconstruction w4,
       extractORBFeatures cloudEnv twoImages emptyWorld = (Returns imageFeatures, w1) ->
       robustFeatureMatching cloudEnv imageFeatures w1 = (Returns matches, w2) ->
       estimateCameraIntrinsics cloudEnv (nth_error twoImages 0) w2
       = (Returns (intrinsics, width, height), w3) ->
       performSfMReconstruction cloudEnv imageFeatures matches intrinsics w3
       = (Returns reconstruction, w4) ->
       success reconstruction = false ->
       m = createFallbackModel twoImages).
Proof.
  apply (proj1 (proj2 (generateModel_returns_a_renderable_model_once_opencv_is_ready
                         cloudEnv twoImages emptyWorld)) 0%nat 0%nat).
  - reflexivity.
  - apply Nat.le_refl.
Defined.

(** C1 (the statement as given fails).  In an environment in which
    [window.cvReady] is never true, [generateModel] called on two images
    returns no model: it is still pending after any number of polls. *)
Lemma opencv_never_ready_counterexample :
  (forall poll, cvReady stalledEnv poll = false) /\
  (forall fuel, generateModel stalledEnv fuel twoImages emptyWorld = None) /\
  (forall fuel m w',
     generateModel stalledEnv fuel twoImages emptyWorld <> Some (Returns m, w')).
Proof.
  assert (Hpending : forall fuel, generateModel stalledEnv fuel twoImages emptyWorld = None).
  { intros fuel. unfold generateModel.
    rewrite (proj2 (waitForOpenCV_pending stalledEnv fuel 0)); [reflexivity|].
    intros n _. reflexivity. }
  split; [intros poll; reflexivity|]. split; [exact Hpending|].
  intros fuel m w' H. rewrite Hpending in H. discriminate.
Qed.

(** ** Concrete runs of the stages *)

Lemma extraction_run knnRows E pose :
  extractORBFeatures (testEnv knnRows E pose) twoImages emptyWorld
  = (Returns [extracted 0; extracted 1], mkWorld callsAfterExtraction 0).
Proof. reflexivity. Qed.

Lemma intrinsics_run knnRows E pose w :
  estimateCameraIntrinsics (testEnv knnRows E pose) (nth_error twoImages 0) w
  = (Returns (sampleIntrinsics, 3%nat, 3%nat), mkWorld (calls w ++ [loadCall]) (draws w)).
Proof. reflexivity. Qed.

Lemma ratioTest_fifty : ratioTest (cv.mkDMatch 0 0 10) (cv.mkDMatch 0 1 20) = true.
Proof.
  unfold ratioTest. cbn. apply andb_true_iff. rewrite !ltb_true_iff. lra.
Qed.

Lemma goodMatchesOf_repeat n :
  goodMatchesOf (repeat [cv.mkDMatch 0 0 10; cv.mkDMatch 0 1 20] n)
  = repeat (cv.mkDMatch 0 0 10) n.
Proof.
  induction n as [|n IH]; [reflexivity|].
  cbn [repeat goodMatchesOf]. rewrite ratioTest_fifty, IH. reflexivity.
Qed.

Lemma filter_repeat {A} (f : A -> bool) a n : f a = true -> filter f (repeat a n) = repeat a n.
Proof.
  intros H. induction n as [|n IH]; [reflexivity|]. simpl. rewrite H, IH. reflexivity.
Qed.

Lemma sortByDistance_repeat m n : sortByDistance (repeat m n) = repeat m n.
Proof.
  induction n as [|n IH]; [reflexivity|]. simpl. rewrite IH.
  destruct n as [|n]; [reflexivity|]. simpl.
  replace (JS.ltb (cv.distance m) (cv.distance m)) with false
    by (symmetry; apply ltb_false_iff; lra).
  reflexivity.
Qed.

Lemma matching_run_fifty E pose :
  robustFeatureMatching (testEnv fiftyRows E pose) [extracted 0; extracted 1]
                        (mkWorld callsAfterExtraction 0)
  = (Returns (repeat fiftyMatch 50), mkWorld callsAfterMatching 0).
Proof.
  unfold robustFeatureMatching, bind, call, try_catch.
  cbn -[goodMatchesOf fiftyRows crossCheck bestMatchesOf convertMatches].
  unfold matchPair, bind, call, try_catch.
  cbn -[goodMatchesOf fiftyRows crossCheck bestMatchesOf convertMatches].
  unfold fiftyRows. rewrite goodMatchesOf_repeat.
  unfold crossCheck. rewrite filter_repeat by reflexivity.
  rewrite !repeat_length. cbv beta iota. unfold ret, finalMatchesOf, bestMatchesOf.
  rewrite !repeat_length. cbn -[sortByDistance repeat convertMatches firstn].
  rewrite sortByDistance_repeat. reflexivity.
Qed.

Lemma findBestInitialPair_fifty :
  findBestInitialPair (repeat fiftyMatch 50)
  = Some (mkInitialPair (Some 0%nat) (Some 1%nat) (repeat fiftyMatch 50)).
Proof. reflexivity. Qed.

Lemma findBestInitialPair_thirtyAndThirty : findBestInitialPair thirtyAndThirty = None.
Proof. reflexivity. Qed.

Lemma findBestInitialPair_length matches initPair :
  findBestInitialPair matches = Some initPair -> (50 <= length matches)%nat.
Proof.
  unfold findBestInitialPair. intros H.
  destruct (findBestInitialPair_selectedAfter matches)
    as [(Hb & _) | (pre & e & post & Hes & _ & _ & He50 & _)]; [congruence|].
  destruct (selected_entry_first_occurrence matches pre e post Hes)
    as (_ & m0 & _ & _ & _ & _ & Hcount & _).
  rewrite Hcount in He50. unfold pairCount in He50.
  pose proof (filter_length_le (samePair (image1Index m0) (image2Index m0)) matches).
  lia.
Qed.

(** The failure that [performSfMReconstruction] reports when no pair has
    50 correspondences depends on the total number of correspondences. *)
Lemma performSfMReconstruction_no_pair env imageFeatures matches intrinsics w :
  (forall m, In m matches ->
     (pairCount matches (image1Index m) (image2Index m) < 50)%nat) ->
  performSfMReconstruction env imageFeatures matches intrinsics w
  = (Returns (sfmFailure
                (if (length matches <? 50)%nat
                 then "Insufficient feature matches for reconstruction"
                 else "Could not find suitable image pair for initialization")), w).
Proof.
  intros Hall. unfold performSfMReconstruction.
  destruct (length matches <? 50)%nat; [reflexivity|].
  unfold try_catch. rewrite (findBestInitialPair_none matches Hall). reflexivity.
Qed.

Lemma matching_run_one :
  robustFeatureMatching matchingEnv [extracted 0; extracted 1]
                        (mkWorld callsAfterExtraction 0)
  = (Returns [fiftyMatch], mkWorld callsAfterMatching 0).
Proof.
  unfold robustFeatureMatching, bind, call, try_catch. cbn -[goodMatchesOf sampleRows].
  unfold matchPair, bind, call, try_catch. cbn -[goodMatchesOf sampleRows].
  rewrite sample_goodMatches. reflexivity.
Qed.

Lemma thirtyAndThirty_counts m :
  In m thirtyAndThirty ->
  pairCount thirtyAndThirty (image1Index m) (image2Index m) = 30%nat.
Proof.
  unfold thirtyAndThirty. intros H. apply in_app_or in H.
  destruct H as [H|H]; apply repeat_spec in H; subst m; reflexivity.
Qed.

(** C4 (as amended).  When no image pair has 50 correspondences, the
    geometric stage reports "Insufficient feature matches for
    reconstruction" if there are fewer than 50 correspondences in all and
    "Could not find suitable image pair for initialization" otherwise, and
    the pipeline returns the fallback model: the unit box of three.js, with
    24 vertices and 12 triangles. *)
Theorem no_pair_with_fifty_matches_falls_back
  env fuel processedImages w imageFeatures w1 matches w2 :
  waitForOpenCV env fuel 0 = Some tt ->
  extractORBFeatures env processedImages w = (Returns imageFeatures, w1) ->
  robustFeatureMatching env imageFeatures w1 = (Returns matches, w2) ->
  (forall m, In m matches ->
     (pairCount matches (image1Index m) (image2Index m) < 50)%nat) ->
  (forall intrinsics w0,
     performSfMReconstruction env imageFeatures matches intrinsics w0
     = (Returns (sfmFailure
                   (if (length matches <? 50)%nat
                    then "Insufficient feature matches for reconstruction"
                    else "Could not find suitable image pair for initialization")), w0)) /\
  (exists w3, generateModel env fuel processedImages w
              = Some (Returns (createFallbackModel processedImages), w3)) /\
  geometry (createFallbackModel processedImages) = THREE.BoxGeometry 1 1 1 /\
  length (vertices (createFallbackModel processedImages)) = (3 * 24)%nat /\
  length (faces (createFallbackModel processedImages)) = (3 * 12)%nat.
Proof.
  intros Hwait H1 H2 Hall.
  split; [intros K w0; apply performSfMReconstruction_no_pair; exact Hall|].
  split; [|repeat split].
  destruct (estimateCameraIntrinsics env (nth_error processedImages 0) w2)
    as [[[[K wd] ht]|e] w3] eqn:H3.
  - exists w3.
    rewrite (generateModel_stages _ _ _ _ _ _ _ _ _ _ _ _ _ _ Hwait H1 H2 H3
               (performSfMReconstruction_no_pair env imageFeatures matches K w3 Hall)).
    reflexivity.
  - exists w3. unfold generateModel, try_catch, runPipeline, bind.
    rewrite Hwait, H1, H2, H3. reflexivity.
Qed.

Lemma no_pair_with_fifty_matches_witness :
  (forall intrinsics w0,
     performSfMReconstruction matchingEnv [extracted 0; extracted 1] [fiftyMatch]
                              intrinsics w0
     = (Returns (sfmFailure
                   (if (length [fiftyMatch] <? 50)%nat
                    then "Insufficient feature matches for reconstruction"
                    else "Could not find suitable image pair for initialization")), w0)) /\
  (exists w3, generateModel matchingEnv 0 twoImages emptyWorld
              = Some (Returns (createFallbackModel twoImages), w3)) /\
  geometry (createFallbackModel twoImages) = THREE.BoxGeometry 1 1 1 /\
  length (vertices (createFallbackModel twoImages)) = (3 * 24)%nat /\
  length (faces (createFallbackModel twoImages)) = (3 * 12)%nat.
Proof.
  apply (no_pair_with_fifty_matches_falls_back matchingEnv 0 twoImages emptyWorld
           [extracted 0; extracted 1] (mkWorld callsAfterExtraction 0)
           [fiftyMatch] (mkWorld callsAfterMatching 0)).
  - reflexivity.
  - apply extraction_run.
  - apply matching_run_one.
  - intros m Hm. unfold pairCount.
    eapply Nat.le_lt_trans; [apply filter_length_le|]. simpl. lia.
Defined.

(** C4 (the statement as given fails).  With thirty correspondences for
    each of two pairs, the best pair has fewer than 50 correspondences but
    the failure reported is not the insufficient-matches one, and the
    fallback box has 24 vertices, not 8. *)
Lemma best_pair_below_fifty_counterexample :
  (forall m, In m thirtyAndThirty ->
     (pairCount thirtyAndThirty (image1Index m) (image2Index m) < 50)%nat) /\
  (exists r w',
     performSfMReconstruction sampleEnv [] thirtyAndThirty THREE.identity emptyWorld
     = (Returns r, w') /\
     errorMessage r <> Some "Insufficient feature matches for reconstruction"%string) /\
  length (vertices (createFallbackModel [])) <> (3 * 8)%nat.
Proof.
  split; [|split].
  - intros m Hm. rewrite (thirtyAndThirty_counts m Hm). lia.
  - eexists. eexists. split.
    + apply performSfMReconstruction_no_pair.
      intros m Hm. rewrite (thirtyAndThirty_counts m Hm). lia.
    + simpl. discriminate.
  - simpl. lia.
Qed.

(** ** The log of OpenCV calls *)

Lemma grows_ret {A} (a : A) : grows (ret a).
Proof.
  intros w r w' H. apply ret_inv in H. destruct H as [_ ->]. exists [].
  now rewrite app_nil_r.
Qed.

Lemma grows_throw {A} (e : exn) : grows (@throw A e).
Proof. intros w r w' H. inversion H. exists []. now rewrite app_nil_r. Qed.

Lemma grows_call {A} c (answer : outcome A) : grows (call c answer).
Proof. intros w r w' H. apply call_inv in H. destruct H as [_ ->]. simpl. eauto. Qed.

Lemma grows_random env : grows (random env).
Proof.
  intros w r w' H. apply random_inv in H. destruct H as [_ ->]. exists []. simpl.
  now rewrite app_nil_r.
Qed.

Lemma grows_bind {A B} (c : M A) (k : A -> M B) :
  grows c -> (forall a, grows (k a)) -> grows (bind c k).
Proof.
  intros Hc Hk w r w' H. apply bind_inv in H.
  destruct H as [(a & w1 & H1 & H2) | (e & H1 & _)].
  - destruct (Hc _ _ _ H1) as (m1 & E1). destruct (Hk a _ _ _ H2) as (m2 & E2).
    exists (m1 ++ m2). rewrite E2, E1, app_assoc. reflexivity.
  - exact (Hc _ _ _ H1).
Qed.

Lemma grows_try_catch {A} (body : M A) (handler : exn -> M A) :
  grows body -> (forall e, grows (handler e)) -> grows (try_catch body handler).
Proof.
  intros Hb Hh w r w' H. apply try_catch_inv in H.
  destruct H as [(a & H1 & _) | (e & w1 & H1 & H2)].
  - exact (Hb _ _ _ H1).
  - destruct (Hb _ _ _ H1) as (m1 & E1). destruct (Hh e _ _ _ H2) as (m2 & E2).
    exists (m1 ++ m2). rewrite E2, E1, app_assoc. reflexivity.
Qed.

Lemma grows_validatePoint env points4D inlierMatches camera1 camera2 intrinsics i points3D :
  grows (validatePoint env points4D inlierMatches camera1 camera2 intrinsics i points3D).
Proof.
  unfold validatePoint.
  destruct (readPoint4D points4D i) as [[[[X Y] Z] W]|]; [|apply grows_ret].
  destruct (JS.gtb (JS.abs W) (1 / 1000000)); [|apply grows_ret].
  destruct (JS.gtb (Z / W) 0 && JS.gtb _ 0); [|apply grows_ret].
  destruct (nth_error inlierMatches i); [|apply grows_throw].
  destruct (calculateReprojectionError _ _ _ _ _); [|apply grows_ret].
  destruct (JS.ltb _ 2); [|apply grows_ret].
  apply grows_bind; [apply grows_random|]. intros r1.
  apply grows_bind; [apply grows_random|]. intros r2. apply grows_ret.
Qed.

Lemma grows_validatePoints env points4D inlierMatches camera1 camera2 intrinsics :
  forall indices points3D,
  grows (validatePoints env points4D inlierMatches camera1 camera2 intrinsics
                        indices points3D).
Proof.
  induction indices as [|i rest IH]; simpl; intros points3D; [apply grows_ret|].
  intros w r w' H.
  destruct (validatePoint env points4D inlierMatches camera1 camera2 intrinsics i
                          points3D w) as [[acc|e] w1] eqn:Hstep.
  - destruct (grows_validatePoint _ _ _ _ _ _ _ _ _ _ _ Hstep) as (m1 & E1).
    destruct (IH _ _ _ _ H) as (m2 & E2).
    exists (m1 ++ m2). rewrite E2, E1, app_assoc. reflexivity.
  - inversion H; subst. exact (grows_validatePoint _ _ _ _ _ _ _ _ _ _ _ Hstep).
Qed.

Lemma grows_triangulatePointsOpenCV env matches camera1 camera2 intrinsics maskAt
  pts1 pts2 K Rm t :
  grows (triangulatePointsOpenCV env matches camera1 camera2 intrinsics maskAt
                                 pts1 pts2 K Rm t).
Proof.
  unfold triangulatePointsOpenCV.
  apply grows_try_catch; [|intros e; apply grows_ret].
  repeat (apply grows_bind; [apply grows_call|]; intros ?).
  destruct (length _ <? 10)%nat; [apply grows_ret|].
  apply grows_bind; [apply grows_call|]. intros points4D. apply grows_validatePoints.
Qed.

(** Whatever happens next, the first call of the two-view stage is the
    essential-matrix estimation by RANSAC with confidence 0.999 and
    threshold 1. *)
Lemma performTwoViewReconstruction_first_call env matches features1 features2 intrinsics
  w r w' :
  performTwoViewReconstruction env matches features1 features2 intrinsics w = (r, w') ->
  exists more, calls w' = calls w ++ essentialMatCall matches intrinsics :: more.
Proof.
  unfold performTwoViewReconstruction. intros H.
  match type of H with
  | try_catch (bind (call ?c ?ans) ?k) _ _ = _ =>
      assert (Hk : forall a, grows (k a));
      [|assert (Hbody : forall r0 w0, bind (call c ans) k w = (r0, w0) ->
                  exists more, calls w0 = calls w ++ c :: more)]
  end.
  - intros E. destruct (cv.rows E =? 0)%nat; [apply grows_ret|].
    apply grows_bind; [apply grows_call|]. intros pose.
    destruct (cv.inlierCount pose <? 50)%Z; [apply grows_ret|].
    apply grows_bind; [apply grows_triangulatePointsOpenCV|]. intros pts. apply grows_ret.
  - intros r0 w0 Hb. apply bind_inv in Hb.
    destruct Hb as [(a & w1 & H1 & H2) | (e & H1 & _)].
    + apply call_inv in H1. destruct H1 as [_ ->].
      destruct (Hk a _ _ _ H2) as (more & E). simpl in E.
      exists more. rewrite E, <- app_assoc. reflexivity.
    + apply call_inv in H1. destruct H1 as [_ ->]. simpl. exists []. reflexivity.
  - apply try_catch_inv in H. destruct H as [(a & H1 & _) | (e & w1 & H1 & H2)].
    + exact (Hbody _ _ H1).
    + apply ret_inv in H2. destruct H2 as [_ ->]. exact (Hbody _ _ H1).
Qed.

(** ** Failures of the geometric stage *)

(** C7.  The two-view stage always begins with the essential-matrix
    estimation by RANSAC with confidence 0.999 and threshold 1.  When,
    for the selected pair, that estimation returns a matrix without rows,
    the stage makes no other OpenCV call (no pose recovery, no
    triangulation) and fails, the reconstruction reports the failure and
    the pipeline returns the fallback model. *)
Theorem empty_essential_matrix_aborts_before_triangulation
  env fuel processedImages w imageFeatures w1 matches w2 intrinsics width height w3
  initPair E :
  waitForOpenCV env fuel 0 = Some tt ->
  extractORBFeatures env processedImages w = (Returns imageFeatures, w1) ->
  robustFeatureMatching env imageFeatures w1 = (Returns matches, w2) ->
  estimateCameraIntrinsics env (nth_error processedImages 0) w2
  = (Returns (intrinsics, width, height), w3) ->
  findBestInitialPair matches = Some initPair ->
  env_findEssentialMat env
    (cv.matFromArray (length (pair_matches initPair)) 1 2
                     (flatPoints point1 (pair_matches initPair)))
    (cv.matFromArray (length (pair_matches initPair)) 1 2
                     (flatPoints point2 (pair_matches initPair)))
    (cv.matFromArray 3 3 1
       [THREE.te0 intrinsics; THREE.te1 intrinsics; THREE.te2 intrinsics;
        THREE.te3 intrinsics; THREE.te4 intrinsics; THREE.te5 intrinsics;
        THREE.te6 intrinsics; THREE.te7 intrinsics; THREE.te8 intrinsics])
    cv.RANSAC 0.999 1 = Returns E ->
  cv.rows E = 0%nat ->
  (forall matches' features1 features2 intrinsics' w0 r w0',
     performTwoViewReconstruction env matches' features1 features2 intrinsics' w0
     = (r, w0') ->
     exists more, calls w0' = calls w0 ++ essentialMatCall matches' intrinsics' :: more) /\
  exists w4,
    calls w4 = calls w3 ++ [essentialMatCall (pair_matches initPair) intrinsics] /\
    performTwoViewReconstruction env (pair_matches initPair)
      (featuresAt imageFeatures (image1 initPair))
      (featuresAt imageFeatures (image2 initPair)) intrinsics w3
    = (Returns twoViewFailure, w4) /\
    performSfMReconstruction env imageFeatures matches intrinsics w3
    = (Returns (sfmFailure "Two-view reconstruction failed"), w4) /\
    generateModel env fuel processedImages w
    = Some (Returns (createFallbackModel processedImages), w4).
Proof.
  intros Hwait H1 H2 H3 Hpair HE Hrows.
  split; [intros; eapply performTwoViewReconstruction_first_call; eauto|].
  exists (mkWorld (calls w3 ++ [essentialMatCall (pair_matches initPair) intrinsics])
                  (draws w3)).
  assert (Htwo : performTwoViewReconstruction env (pair_matches initPair)
            (featuresAt imageFeatures (image1 initPair))
            (featuresAt imageFeatures (image2 initPair)) intrinsics w3
          = (Returns twoViewFailure,
             mkWorld (calls w3 ++ [essentialMatCall (pair_matches initPair) intrinsics])
                     (draws w3))).
  { unfold performTwoViewReconstruction, try_catch, bind, call. rewrite HE.
    apply Nat.eqb_eq in Hrows. rewrite Hrows. reflexivity. }
  assert (Hsfm : performSfMReconstruction env imageFeatures matches intrinsics w3
          = (Returns (sfmFailure "Two-view reconstruction failed"),
             mkWorld (calls w3 ++ [essentialMatCall (pair_matches initPair) intrinsics])
                     (draws w3))).
  { unfold performSfMReconstruction.
    pose proof (findBestInitialPair_length _ _ Hpair) as Hlen.
    apply Nat.ltb_ge in Hlen. rewrite Hlen, Hpair.
    unfold try_catch, bind. rewrite Htwo. reflexivity. }
  repeat split; trivial.
  rewrite (generateModel_stages _ _ _ _ _ _ _ _ _ _ _ _ _ _ Hwait H1 H2 H3 Hsfm).
  reflexivity.
Qed.

Lemma empty_essential_matrix_witness :
  (forall matches' features1 features2 intrinsics' w0 r w0',
     performTwoViewReconstruction degenerateEnv matches' features1 features2 intrinsics' w0
     = (r, w0') ->
     exists more, calls w0' = calls w0 ++ essentialMatCall matches' intrinsics' :: more) /\
  exists w4,
    calls w4 = calls (mkWorld callsAfterIntrinsics 0)
               ++ [essentialMatCall (repeat fiftyMatch 50) sampleIntrinsics] /\
    performTwoViewReconstruction degenerateEnv (repeat fiftyMatch 50)
      (featuresAt [extracted 0; extracted 1] (Some 0%nat))
      (featuresAt [extracted 0; extracted 1] (Some 1%nat)) sampleIntrinsics
      (mkWorld callsAfterIntrinsics 0)
    = (Returns twoViewFailure, w4) /\
    performSfMReconstruction degenerateEnv [extracted 0; extracted 1]
      (repeat fiftyMatch 50) sampleIntrinsics (mkWorld callsAfterIntrinsics 0)
    = (Returns (sfmFailure "Two-view reconstruction failed"), w4) /\
    generateModel degenerateEnv 0 twoImages emptyWorld
    = Some (Returns (createFallbackModel twoImages), w4).
Proof.
  apply (empty_essential_matrix_aborts_before_triangulation degenerateEnv 0 twoImages
           emptyWorld [extracted 0; extracted 1] (mkWorld callsAfterExtraction 0)
           (repeat fiftyMatch 50) (mkWorld callsAfterMatching 0)
           sampleIntrinsics 3 3 (mkWorld callsAfterIntrinsics 0)
           (mkInitialPair (Some 0%nat) (Some 1%nat) (repeat fiftyMatch 50)) emptyMat).
  - reflexivity.
  - apply extraction_run.
  - apply matching_run_fifty.
  - apply intrinsics_run.
  - apply findBestInitialPair_fifty.
  - reflexivity.
  - reflexivity.
Defined.

(** The loop pushes nothing for a column behind the first camera. *)
Lemma validatePoints_rejects_all env points4D inlierMatches camera1 camera2 intrinsics
  X Y Z W :
  Z / W <= 0 ->
  forall indices points3D w,
    (forall i, In i indices -> readPoint4D points4D i = Some (X, Y, Z, W)) ->
    validatePoints env points4D inlierMatches camera1 camera2 intrinsics indices points3D w
    = (Returns points3D, w).
Proof.
  intros Hz. induction indices as [|i rest IH]; intros points3D w Hall; [reflexivity|].
  cbn [validatePoints]. unfold validatePoint at 1.
  rewrite (Hall i (or_introl eq_refl)).
  replace (JS.gtb (Z / W) 0) with false
    by (symmetry; unfold JS.gtb; apply ltb_false_iff; exact Hz).
  destruct (JS.gtb (JS.abs W) (1 / 1000000)); cbn [andb]; unfold ret at 1;
    apply IH; intros j Hj; apply Hall; right; exact Hj.
Qed.

Lemma two_view_run_empty_cloud :
  performTwoViewReconstruction emptyCloudEnv (repeat fiftyMatch 50)
    (featuresAt [extracted 0; extracted 1] (Some 0%nat))
    (featuresAt [extracted 0; extracted 1] (Some 1%nat)) sampleIntrinsics
    (mkWorld callsAfterIntrinsics 0)
  = (Returns (TwoViewResult.mk true []
                [makeCamera1 sampleIntrinsics;
                 makeCamera2 sampleIntrinsics quarterTurnX unitY]),
     mkWorld callsAfterTriangulation 0).
Proof.
  unfold performTwoViewReconstruction, triangulatePointsOpenCV, try_catch, bind, call.
  cbn -[validatePoints makeCamera1 makeCamera2 sampleIntrinsics rejectedPoints4D
        repeat inlierMatchesOf flatPoints Nat.ltb].
  rewrite inlierMatchesOf_all by discriminate.
  replace (length (flatPoints point1 (repeat fiftyMatch 50)) <? 10)%nat with false
    by reflexivity.
  change (cv.cols rejectedPoints4D) with 50%nat. cbn [calls draws app].
  rewrite (validatePoints_rejects_all emptyCloudEnv rejectedPoints4D
             (repeat fiftyMatch 50) (makeCamera1 sampleIntrinsics)
             (makeCamera2 sampleIntrinsics quarterTurnX unitY) sampleIntrinsics
             0 0 (-1) 1).
  - reflexivity.
  - lra.
  - intros i Hi. apply in_seq in Hi. apply readPoint4D_columns. lia.
Qed.

Lemma sfm_run_empty_cloud :
  performSfMReconstruction emptyCloudEnv [extracted 0; extracted 1]
    (repeat fiftyMatch 50) sampleIntrinsics (mkWorld callsAfterIntrinsics 0)
  = (Returns (mkReconstructionResult []
                [makeCamera1 sampleIntrinsics;
                 makeCamera2 sampleIntrinsics quarterTurnX unitY] true None),
     mkWorld callsAfterTriangulation 0).
Proof.
  unfold performSfMReconstruction. rewrite findBestInitialPair_fifty.
  rewrite repeat_length. unfold try_catch, bind. cbn [Nat.ltb Nat.leb pair_matches image1 image2].
  rewrite two_view_run_empty_cloud. reflexivity.
Qed.

Lemma extraction_run_empty_cloud :
  extractORBFeatures emptyCloudEnv twoImages emptyWorld
  = (Returns [extracted 0; extracted 1], mkWorld callsAfterExtraction 0).
Proof. reflexivity. Qed.

Lemma matching_run_empty_cloud :
  robustFeatureMatching emptyCloudEnv [extracted 0; extracted 1]
                        (mkWorld callsAfterExtraction 0)
  = (Returns (repeat fiftyMatch 50), mkWorld callsAfterMatching 0).
Proof.
  unfold robustFeatureMatching, bind, call, try_catch.
  cbn -[goodMatchesOf fiftyRows crossCheck bestMatchesOf convertMatches].
  unfold matchPair, bind, call, try_catch.
  cbn -[goodMatchesOf fiftyRows crossCheck bestMatchesOf convertMatches].
  unfold fiftyRows. rewrite goodMatchesOf_repeat.
  unfold crossCheck. rewrite filter_repeat by reflexivity.
  rewrite !repeat_length. cbv beta iota. unfold ret, finalMatchesOf, bestMatchesOf.
  rewrite !repeat_length. cbn -[sortByDistance repeat convertMatches firstn].
  rewrite sortByDistance_repeat. reflexivity.
Qed.

Lemma intrinsics_run_empty_cloud w :
  estimateCameraIntrinsics emptyCloudEnv (nth_error twoImages 0) w
  = (Returns (sampleIntrinsics, 3%nat, 3%nat), mkWorld (calls w ++ [loadCall]) (draws w)).
Proof. reflexivity. Qed.

(** A reconstruction that reports success carries no error message. *)
Lemma performSfMReconstruction_success env imageFeatures matches intrinsics w rec w' :
  performSfMReconstruction env imageFeatures matches intrinsics w = (Returns rec, w') ->
  success rec = true -> errorMessage rec = None.
Proof.
  unfold performSfMReconstruction. intros Hrun Hok.
  assert (Hfail : forall msg w0, ret (sfmFailure msg) w0 = (Returns rec, w') ->
            errorMessage rec = None).
  { intros msg w0 H. apply ret_inv in H. destruct H as [Hr _]. inversion Hr; subst.
    discriminate Hok. }
  destruct (length matches <? 50)%nat; [eapply Hfail; eauto|].
  apply try_catch_inv in Hrun.
  destruct Hrun as [(res & Hrun & Hres) | (e & w1 & _ & Hh)]; [|eapply Hfail; eauto].
  inversion Hres; subst res; clear Hres.
  destruct (findBestInitialPair matches) as [initPair|]; [|eapply Hfail; eauto].
  apply bind_inv in Hrun. destruct Hrun as [(two & w1 & Htwo & Hrun) | (e & _ & He)];
    [|discriminate].
  destruct (negb (TwoViewResult.success two)); [eapply Hfail; eauto|].
  apply ret_inv in Hrun. destruct Hrun as [Hr _]. inversion Hr. reflexivity.
Qed.

(** C9 (as amended).  When the reconstruction succeeds with no validated
    point it reports no error, and [generateModel] takes its success
    path: it returns what the assembler returns.  For an empty list of
    points the assembler itself returns the model of [createEmptyModel],
    which is the fallback model, the box of 24 vertices and 12 triangles:
    the caller receives that placeholder. *)
Theorem no_validated_point_yields_the_fallback_model
  env fuel processedImages w imageFeatures w1 matches w2 intrinsics width height w3
  reconstruction w4 :
  waitForOpenCV env fuel 0 = Some tt ->
  extractORBFeatures env processedImages w = (Returns imageFeatures, w1) ->
  robustFeatureMatching env imageFeatures w1 = (Returns matches, w2) ->
  estimateCameraIntrinsics env (nth_error processedImages 0) w2
  = (Returns (intrinsics, width, height), w3) ->
  performSfMReconstruction env imageFeatures matches intrinsics w3
  = (Returns reconstruction, w4) ->
  success reconstruction = true ->
  points3D reconstruction = [] ->
  errorMessage reconstruction = None /\
  generateModel env fuel processedImages w
  = Some (Returns (generateMeshFromPointCloud (points3D reconstruction)), w4) /\
  generateMeshFromPointCloud (points3D reconstruction) = createEmptyModel /\
  createEmptyModel = createFallbackModel processedImages /\
  generateModel env fuel processedImages w
  = Some (Returns (createFallbackModel processedImages), w4) /\
  renderable (createFallbackModel processedImages) /\
  length (vertices (createFallbackModel processedImages)) = (3 * 24)%nat /\
  length (faces (createFallbackModel processedImages)) = (3 * 12)%nat.
Proof.
  intros Hwait H1 H2 H3 H4 Hok Hnone.
  split; [exact (performSfMReconstruction_success _ _ _ _ _ _ _ H4 Hok)|].
  rewrite (generateModel_stages _ _ _ _ _ _ _ _ _ _ _ _ _ _ Hwait H1 H2 H3 H4).
  rewrite Hok, Hnone. simpl negb. cbv iota.
  repeat split; apply createEmptyModel_renderable.
Qed.

Lemma no_validated_point_witness :
  errorMessage (mkReconstructionResult []
                  [makeCamera1 sampleIntrinsics;
                   makeCamera2 sampleIntrinsics quarterTurnX unitY] true None) = None /\
  generateModel emptyCloudEnv 0 twoImages emptyWorld
  = Some (Returns (generateMeshFromPointCloud []), mkWorld callsAfterTriangulation 0) /\
  generateMeshFromPointCloud [] = createEmptyModel /\
  createEmptyModel = createFallbackModel twoImages /\
  generateModel emptyCloudEnv 0 twoImages emptyWorld
  = Some (Returns (createFallbackModel twoImages), mkWorld callsAfterTriangulation 0) /\
  renderable (createFallbackModel twoImages) /\
  length (vertices (createFallbackModel twoImages)) = (3 * 24)%nat /\
  length (faces (createFallbackModel twoImages)) = (3 * 12)%nat.
Proof.
  apply (no_validated_point_yields_the_fallback_model emptyCloudEnv 0 twoImages
           emptyWorld [extracted 0; extracted 1] (mkWorld callsAfterExtraction 0)
           (repeat fiftyMatch 50) (mkWorld callsAfterMatching 0)
           sampleIntrinsics 3 3 (mkWorld callsAfterIntrinsics 0)
           (mkReconstructionResult []
              [makeCamera1 sampleIntrinsics;
               makeCamera2 sampleIntrinsics quarterTurnX unitY] true None)
           (mkWorld callsAfterTriangulation 0)).
  - reflexivity.
  - apply extraction_run_empty_cloud.
  - apply matching_run_empty_cloud.
  - apply intrinsics_run_empty_cloud.
  - apply sfm_run_empty_cloud.
  - reflexivity.
  - reflexivity.
Defined.

(** C9 (the statement as given fails).  In a run on two images with
    fifty correspondences, all of them inliers of the recovered pose, in
    which every triangulated point is behind the first camera, the
    reconstruction succeeds with no point and no error message; the model
    that the assembler makes of its points is not empty, it has the 24
    vertices of the box, and [generateModel] returns that model of the
    assembler: nothing is treated as a failure. *)
Lemma empty_cloud_is_no_failure_counterexample :
  exists reconstruction w4,
    performSfMReconstruction emptyCloudEnv [extracted 0; extracted 1]
      (repeat fiftyMatch 50) sampleIntrinsics (mkWorld callsAfterIntrinsics 0)
    = (Returns reconstruction, w4) /\
    points3D reconstruction = [] /\
    success reconstruction = true /\
    errorMessage reconstruction = None /\
    vertices (generateMeshFromPointCloud (points3D reconstruction)) <> [] /\
    length (vertices (generateMeshFromPointCloud (points3D reconstruction))) = (3 * 24)%nat /\
    generateModel emptyCloudEnv 0 twoImages emptyWorld
    = Some (Returns (generateMeshFromPointCloud (points3D reconstruction)), w4).
Proof.
  exists (mkReconstructionResult []
            [makeCamera1 sampleIntrinsics;
             makeCamera2 sampleIntrinsics quarterTurnX unitY] true None),
         (mkWorld callsAfterTriangulation 0).
  split; [exact sfm_run_empty_cloud|].
  split; [reflexivity|]. split; [reflexivity|]. split; [reflexivity|].
  split; [intros H; apply (f_equal (@length _)) in H; simpl in H; discriminate|].
  split; [reflexivity|].
  rewrite (generateModel_stages emptyCloudEnv 0 twoImages emptyWorld
             [extracted 0; extracted 1] (mkWorld callsAfterExtraction 0)
             (repeat fiftyMatch 50) (mkWorld callsAfterMatching 0)
             sampleIntrinsics 3 3 (mkWorld callsAfterIntrinsics 0) _ _
             eq_refl extraction_run_empty_cloud matching_run_empty_cloud
             (intrinsics_run_empty_cloud _) sfm_run_empty_cloud).
  reflexivity.
Qed.

(** ** The model handed over *)


Lemma cloud_error :
  calculateReprojectionError (THREE.mkVector3 (0 / 1) (0 / 1) (1 / 1)) fiftyMatch
    (makeCamera1 sampleIntrinsics) (makeCamera2 sampleIntrinsics cv.eye3 cv.zeros3)
    sampleIntrinsics = Some 0.
Proof.
  unfold calculateReprojectionError, projectPoint. cbn.
  destruct (Req_dec_T _ 0) as [Hz|_]; [exfalso; lra|].
  destruct (Req_dec_T _ 0) as [Hz|_]; [exfalso; lra|].
  f_equal. unfold pixelDistance, JS.sqrt, JS.pow2. cbn.
  match goal with |- (sqrt ?a + sqrt ?b) / 2 = 0 =>
    replace a with 0 by (field; lra); replace b with 0 by (field; lra) end.
  rewrite sqrt_0. lra.
Qed.

Lemma two_view_run_cloud :
  performTwoViewReconstruction cloudEnv (repeat fiftyMatch 50)
    (featuresAt [extracted 0; extracted 1] (Some 0%nat))
    (featuresAt [extracted 0; extracted 1] (Some 1%nat)) sampleIntrinsics
    (mkWorld callsAfterIntrinsics 0)
  = (Returns (TwoViewResult.mk true [samplePoint]
                [makeCamera1 sampleIntrinsics;
                 makeCamera2 sampleIntrinsics cv.eye3 cv.zeros3]),
     mkWorld callsAfterTriangulation 2).
Proof.
  unfold performTwoViewReconstruction, triangulatePointsOpenCV, try_catch, bind, call.
  cbn -[validatePoint makeCamera1 makeCamera2 sampleIntrinsics].
  erewrite validatePoint_accepts with (X := 0) (Y := 0) (Z := 1) (W := 1) (e := 0)
                                      (m := fiftyMatch); try reflexivity.
  - rewrite Rabs_R1. lra.
  - lra.
  - unfold depthInCamera. cbn. lra.
  - apply cloud_error.
  - lra.
Qed.

Lemma sfm_run_cloud :
  performSfMReconstruction cloudEnv [extracted 0; extracted 1]
    (repeat fiftyMatch 50) sampleIntrinsics (mkWorld callsAfterIntrinsics 0)
  = (Returns (mkReconstructionResult [samplePoint]
                [makeCamera1 sampleIntrinsics;
                 makeCamera2 sampleIntrinsics cv.eye3 cv.zeros3] true None),
     mkWorld callsAfterTriangulation 2).
Proof.
  unfold performSfMReconstruction. rewrite findBestInitialPair_fifty.
  rewrite repeat_length. unfold try_catch, bind. cbn [Nat.ltb Nat.leb pair_matches image1 image2].
  rewrite two_view_run_cloud. reflexivity.
Qed.

(** A complete run on two images that ends with a point cloud. *)
Lemma top_run_cloud :
  generateModel cloudEnv 0 twoImages emptyWorld
  = Some (Returns (generateMeshFromPointCloud [samplePoint]),
          mkWorld callsAfterTriangulation 2).
Proof.
  rewrite (generateModel_stages cloudEnv 0 twoImages emptyWorld
             [extracted 0; extracted 1] (mkWorld callsAfterExtraction 0)
             (repeat fiftyMatch 50) (mkWorld callsAfterMatching 0)
             sampleIntrinsics 3 3 (mkWorld callsAfterIntrinsics 0) _ _
             eq_refl (extraction_run _ _ _) (matching_run_fifty _ _)
             (intrinsics_run _ _ _ _) sfm_run_cloud).
  reflexivity.
Qed.



(** * Further properties of the pipeline *)

(** ** Feature extraction *)

Lemma extractOne_cases env i image imageFeatures w r w' :
  extractOne env i image imageFeatures w = (r, w') ->
  r = Returns imageFeatures \/
  exists keypoints descriptors gray,
    r = Returns (imageFeatures ++
                 [mkImageFeatures image (map (toFeaturePoint) keypoints)
                                  descriptors keypoints i gray]).
Proof.
  unfold extractOne. intros Hrun. apply try_catch_inv in Hrun.
  destruct Hrun as [(out & Hrun & ->) | (e & w1 & _ & Hh)];
    [|apply ret_inv in Hh; destruct Hh as [-> _]; auto].
  apply bind_inv in Hrun. destruct Hrun as [(m & w1 & _ & Hrun) | (e & _ & He)];
    [|discriminate].
  apply bind_inv in Hrun. destruct Hrun as [(gray & w2 & _ & Hrun) | (e & _ & He)];
    [|discriminate].
  apply bind_inv in Hrun.
  destruct Hrun as [([keypoints descriptors] & w3 & _ & Hrun) | (e & _ & He)];
    [|discriminate].
  apply ret_inv in Hrun. destruct Hrun as [Hr _]. inversion Hr. right. eauto.
Qed.

Lemma extractFrom_invariant env all : forall images i imageFeatures w r w',
  (forall k, nth_error images k = nth_error all (i + k)) ->
  extractFrom env i images imageFeatures w = (r, w') ->
  StronglySorted lt (map imageIndex imageFeatures) ->
  Forall (fun f => (imageIndex f < i)%nat /\
                   nth_error all (imageIndex f) = Some (image f) /\
                   features f = map toFeaturePoint (keypoints f)) imageFeatures ->
  exists out,
    r = Returns out /\
    StronglySorted lt (map imageIndex out) /\
    Forall (fun f => (imageIndex f < i + length images)%nat /\
                     nth_error all (imageIndex f) = Some (image f) /\
                     features f = map toFeaturePoint (keypoints f)) out /\
    (length out <= length imageFeatures + length images)%nat.
Proof.
  induction images as [|image rest IH]; simpl; intros i acc w r w' Hpos Hrun Hs Hall.
  - apply ret_inv in Hrun. destruct Hrun as [-> _]. exists acc.
    rewrite Nat.add_0_r. repeat split; trivial. lia.
  - assert (Hi : nth_error all i = Some image).
    { rewrite <- (Nat.add_0_r i). symmetry. apply (Hpos 0%nat). }
    assert (Hrest : forall k, nth_error rest k = nth_error all (S i + k)).
    { intros k. change (nth_error rest k) with (nth_error (image :: rest) (S k)).
      rewrite Hpos. f_equal. lia. }
    apply bind_inv in Hrun.
    destruct Hrun as [(acc1 & w1 & Hone & Hrun) | (e & Hone & ->)];
      apply extractOne_cases in Hone;
      destruct Hone as [Hr | (kps & desc & gray & Hr)]; try discriminate.
    + inversion Hr; subst acc1.
      destruct (IH (S i) acc w1 r w' Hrest Hrun Hs) as (out & -> & Hs' & Hall' & Hlen).
      * eapply Forall_impl; [|exact Hall]. intros f (Hlt & Hf). split; [lia | exact Hf].
      * exists out. repeat split; trivial.
        -- eapply Forall_impl; [|exact Hall']. intros f (Hlt & Hf).
           split; [lia | exact Hf].
        -- lia.
    + inversion Hr; subst acc1.
      destruct (IH (S i) _ w1 r w' Hrest Hrun) as (out & -> & Hs' & Hall' & Hlen).
      * rewrite map_app. simpl.
        clear - Hs Hall. induction acc as [|f acc IHacc]; simpl.
        -- repeat constructor.
        -- inversion Hs; subst. inversion Hall; subst. constructor; [auto|].
           apply Forall_app. split; trivial. constructor; [|constructor].
           tauto.
      * apply Forall_app. split.
        -- eapply Forall_impl; [|exact Hall]. intros f (Hlt & Hf).
           split; [lia | exact Hf].
        -- constructor; [|constructor]. simpl. repeat split; trivial. lia.
      * exists out. repeat split; trivial.
        -- eapply Forall_impl; [|exact Hall']. intros f (Hlt & Hf).
           split; [lia | exact Hf].
        -- rewrite length_app in Hlen. simpl in Hlen. lia.
Qed.

(** X1.  Once the detector is created, [extractORBFeatures] returns:
    the feature sets it returns are in the order of the images, each
    carries the position of its image in the input as [imageIndex] (an
    image that fails is skipped, the indices of the others are not
    shifted), and each feature set is parallel to its key points. *)
Theorem extracted_feature_sets_keep_image_positions env processedImages w r w' :
  extractORBFeatures env processedImages w = (r, w') ->
  env_ORB_create env = Returns tt ->
  exists imageFeatures,
    r = Returns imageFeatures /\
    StronglySorted lt (map imageIndex imageFeatures) /\
    Forall (fun f => nth_error processedImages (imageIndex f) = Some (image f) /\
                     features f = map toFeaturePoint (keypoints f))
           imageFeatures /\
    (length imageFeatures <= length processedImages)%nat.
Proof.
  unfold extractORBFeatures. intros Hrun Horb.
  apply bind_inv in Hrun.
  destruct Hrun as [(u & w1 & _ & Hrun) | (e & Hcall & _)].
  - apply (extractFrom_invariant env processedImages) in Hrun;
      [| reflexivity | constructor | constructor].
    destruct Hrun as (out & -> & Hs & Hall & Hlen). exists out. repeat split; trivial.
    eapply Forall_impl; [|exact Hall]. intros f (_ & Hf). exact Hf.
  - apply call_inv in Hcall. destruct Hcall as [Hans _]. congruence.
Qed.

Lemma extracted_feature_sets_witness :
  exists imageFeatures,
    Returns [extracted 0; extracted 1] = Returns imageFeatures /\
    StronglySorted lt (map imageIndex imageFeatures) /\
    Forall (fun f => nth_error twoImages (imageIndex f) = Some (image f) /\
                     features f = map toFeaturePoint (keypoints f))
           imageFeatures /\
    (length imageFeatures <= length twoImages)%nat.
Proof.
  apply (extracted_feature_sets_keep_image_positions sampleEnv twoImages emptyWorld
           _ _ (extraction_run [] sampleMat samplePose)).
  reflexivity.
Defined.

(** ** Invariants of the matching loops *)

Section MatchingInvariant.

Variable env : Environment.
Variable all : list ImageFeatures.
Variable P : MatchedFeature -> Prop.

(** [P] holds of whatever the conversion loop makes of a match that
    passed the ratio test for two feature sets at positions [i < j]. *)
Hypothesis P_converted : forall i j fi fj knn m mf,
  (i < j)%nat ->
  nth_error all i = Some fi ->
  nth_error all j = Some fj ->
  env_knnMatch env (descriptors fi) (descriptors fj) 2 = Returns knn ->
  In m (goodMatchesOf knn) ->
  toMatchedFeature (features fi) (features fj) i j m = Some mf ->
  P mf.

Lemma matchPair_invariant fi fj i j matches w r w' :
  (i < j)%nat ->
  nth_error all i = Some fi ->
  nth_error all j = Some fj ->
  matchPair env fi fj i j matches w = (r, w') ->
  Forall P matches ->
  exists matches', r = Returns matches' /\ Forall P matches'.
Proof.
  intros Hij Hi Hj Hrun Hall. apply matchPair_cases in Hrun.
  destruct Hrun as [-> | (knn & cross & Hknn & Hcross & ->)]; [eauto|].
  eexists. split; [reflexivity|]. apply Forall_app. split; trivial.
  apply Forall_forall. intros mf Hmf.
  apply convertMatches_In in Hmf. destruct Hmf as (m & Hm & Hconv).
  apply bestMatchesOf_In in Hm.
  assert (Hgood : In m (goodMatchesOf knn)).
  { destruct Hcross as [-> | (back & ->)].
    - apply (finalMatchesOf_In [] (goodMatchesOf knn) [] m); [right; reflexivity | exact Hm].
    - apply (finalMatchesOf_In (crossCheck back (goodMatchesOf knn)) (goodMatchesOf knn)
                               back m); [left; reflexivity | exact Hm]. }
  exact (P_converted i j fi fj knn m mf Hij Hi Hj Hknn Hgood Hconv).
Qed.

Lemma matchWith_invariant fi i : forall others j matches w r w',
  (i < j)%nat ->
  nth_error all i = Some fi ->
  (forall k, nth_error others k = nth_error all (j + k)) ->
  matchWith env fi i j others matches w = (r, w') ->
  Forall P matches ->
  exists matches', r = Returns matches' /\ Forall P matches'.
Proof.
  induction others as [|fj rest IH]; simpl; intros j matches w r w' Hij Hi Hothers Hrun Hall.
  - apply ret_inv in Hrun. destruct Hrun as [-> _]. eauto.
  - assert (Hj : nth_error all j = Some fj).
    { rewrite <- (Nat.add_0_r j). symmetry. apply (Hothers 0%nat). }
    apply bind_inv in Hrun.
    destruct Hrun as [(matches1 & w1 & Hpair & Hrun) | (e & Hpair & ->)];
      destruct (matchPair_invariant _ _ _ _ _ _ _ _ Hij Hi Hj Hpair Hall)
        as (matches1' & Hr & Hall1); [|discriminate].
    inversion Hr; subst matches1'.
    apply (IH (S j) matches1 w1 r w'); trivial; [lia|]. intros k.
    change (nth_error rest k) with (nth_error (fj :: rest) (S k)).
    rewrite Hothers. f_equal. lia.
Qed.

Lemma matchFrom_invariant : forall imageFeatures i matches w r w',
  (forall k, nth_error imageFeatures k = nth_error all (i + k)) ->
  matchFrom env i imageFeatures matches w = (r, w') ->
  Forall P matches ->
  exists matches', r = Returns matches' /\ Forall P matches'.
Proof.
  induction imageFeatures as [|fi rest IH]; simpl; intros i matches w r w' Hpos Hrun Hall.
  - apply ret_inv in Hrun. destruct Hrun as [-> _]. eauto.
  - assert (Hi : nth_error all i = Some fi).
    { rewrite <- (Nat.add_0_r i). symmetry. apply (Hpos 0%nat). }
    assert (Hrest : forall k, nth_error rest k = nth_error all (S i + k)).
    { intros k. change (nth_error rest k) with (nth_error (fi :: rest) (S k)).
      rewrite Hpos. f_equal. lia. }
    apply bind_inv in Hrun.
    destruct Hrun as [(matches1 & w1 & Hwith & Hrun) | (e & Hwith & ->)];
      destruct (matchWith_invariant _ _ _ _ _ _ _ _ (Nat.lt_succ_diag_r i) Hi Hrest Hwith Hall)
        as (matches1' & Hr & Hall1); [|discriminate].
    inversion Hr; subst matches1'. eapply IH; eauto.
Qed.

Lemma robustFeatureMatching_invariant w r w' :
  robustFeatureMatching env all w = (r, w') ->
  (exists matches, r = Returns matches /\ Forall P matches) \/
  (exists e, r = Throws e /\ env_BFMatcher env = Throws e).
Proof.
  unfold robustFeatureMatching. intros Hrun.
  apply bind_inv in Hrun. destruct Hrun as [(u & w1 & _ & Hrun) | (e & Hcall & ->)].
  - left. apply matchFrom_invariant in Hrun; [exact Hrun | reflexivity | constructor].
  - right. apply call_inv in Hcall. destruct Hcall as [Hans _]. eauto.
Qed.

End MatchingInvariant.

(** X2.  [robustFeatureMatching] throws only when the creation of the
    matcher does.  Every correspondence it returns names two feature sets
    at positions [image1Index < image2Index] of its input, and its points
    are the features of these sets at [queryIdx] and [trainIdx]: no
    correspondence has an index out of range. *)
Theorem returned_matches_are_well_indexed env imageFeatures w r w' :
  robustFeatureMatching env imageFeatures w = (r, w') ->
  (exists matches, r = Returns matches /\ Forall (wellIndexed imageFeatures) matches) \/
  (exists e, r = Throws e /\ env_BFMatcher env = Throws e).
Proof.
  apply robustFeatureMatching_invariant.
  intros i j fi fj knn m mf Hij Hi Hj _ _ Hconv. unfold toMatchedFeature in Hconv.
  destruct (nth_error (features fi) (cv.queryIdx m)) as [p1|] eqn:H1; [|discriminate].
  destruct (nth_error (features fj) (cv.trainIdx m)) as [p2|] eqn:H2; [|discriminate].
  inversion Hconv; subst mf; clear Hconv.
  split; [exact Hij|]. exists fi, fj. simpl. auto.
Qed.

Lemma returned_matches_are_well_indexed_witness :
  (exists matches,
     Returns [sampleCorrespondence] = Returns matches /\
     Forall (wellIndexed [sampleFeatures 0; sampleFeatures 1]) matches) \/
  (exists e, Returns [sampleCorrespondence] = Throws e /\
             env_BFMatcher matchingEnv = Throws e).
Proof.
  exact (returned_matches_are_well_indexed matchingEnv
           [sampleFeatures 0; sampleFeatures 1] emptyWorld _ _ sample_matching_run).
Defined.

(** X3.  When the nearest-neighbour distances are non-negative, the
    confidence [1 / (1 + distance)] of every returned correspondence is
    above 1/41 and at most 1. *)
Theorem returned_matches_confidence_range env imageFeatures w matches w' mf :
  nonNegativeDistances env ->
  robustFeatureMatching env imageFeatures w = (Returns matches, w') ->
  In mf matches ->
  1 / 41 < confidence mf <= 1.
Proof.
  intros Hpos Hrun Hin.
  apply (robustFeatureMatching_invariant env imageFeatures
           (fun mf => 1 / 41 < confidence mf <= 1)) in Hrun.
  - destruct Hrun as [(matches' & Hr & Hall) | (e & Hr & _)]; [|discriminate].
    inversion Hr; subst matches'. rewrite Forall_forall in Hall. exact (Hall mf Hin).
  - clear - Hpos. intros i j fi fj knn m mf _ _ _ Hknn Hgood Hconv.
    apply goodMatchesOf_In in Hgood. destruct Hgood as (m2 & others & Hrow & Htest).
    apply ratioTest_true in Htest. destruct Htest as [_ Hcut].
    assert (H0 : 0 <= cv.distance m).
    { apply (Hpos _ _ _ _ _ m Hknn Hrow). left. reflexivity. }
    unfold toMatchedFeature in Hconv.
    destruct (nth_error (features fi) (cv.queryIdx m)); [|discriminate].
    destruct (nth_error (features fj) (cv.trainIdx m)); [|discriminate].
    inversion Hconv; subst mf; clear Hconv. simpl.
    split.
    + apply Rmult_lt_reg_r with (r := 41 * (1 + cv.distance m)); [lra|].
      field_simplify; lra.
    + apply Rmult_le_reg_r with (r := 1 + cv.distance m); [lra|].
      field_simplify; lra.
Qed.

Lemma matchingEnv_nonNegative : nonNegativeDistances matchingEnv.
Proof.
  intros query train k rows row m Hrows Hrow Hm. inversion Hrows; subst rows.
  simpl in Hrow. destruct Hrow as [<- | [<- | []]]; simpl in Hm;
    destruct Hm as [<- | [<- | []]]; simpl; lra.
Qed.

Lemma returned_matches_confidence_witness :
  1 / 41 < confidence sampleCorrespondence <= 1.
Proof.
  apply (returned_matches_confidence_range matchingEnv
           [sampleFeatures 0; sampleFeatures 1] emptyWorld _ _ sampleCorrespondence
           matchingEnv_nonNegative sample_matching_run).
  simpl. left. reflexivity.
Defined.

Lemma pairCount_app l1 l2 a b :
  pairCount (l1 ++ l2) a b = (pairCount l1 a b + pairCount l2 a b)%nat.
Proof. unfold pairCount. rewrite filter_app, length_app. reflexivity. Qed.

Lemma pairCount_none l a b :
  Forall (fun mf => samePair a b mf = false) l -> pairCount l a b = 0%nat.
Proof.
  unfold pairCount. induction 1 as [|mf l Hmf _ IH]; simpl; [reflexivity|].
  rewrite Hmf. exact IH.
Qed.

Lemma pairCount_le_length l a b : (pairCount l a b <= length l)%nat.
Proof. unfold pairCount. apply filter_length_le. Qed.

Lemma filedBefore_not_samePair i j mf : filedBefore i j mf -> samePair i j mf = false.
Proof.
  unfold filedBefore, samePair. intros [H | [H1 H2]]; apply andb_false_iff.
  - left. apply Nat.eqb_neq. lia.
  - right. apply Nat.eqb_neq. lia.
Qed.

Lemma matchPair_cap env fi fj i j matches w r w' :
  matchPair env fi fj i j matches w = (r, w') ->
  Forall (filedBefore i j) matches ->
  (forall a b, pairCount matches a b <= 200)%nat ->
  exists matches', r = Returns matches' /\
    Forall (filedBefore i (S j)) matches' /\
    (forall a b, pairCount matches' a b <= 200)%nat.
Proof.
  intros Hrun Hbefore Hcap.
  assert (Hnext : Forall (filedBefore i (S j)) matches).
  { eapply Forall_impl; [|exact Hbefore]. unfold filedBefore. intros mf H. lia. }
  apply matchPair_cases in Hrun.
  destruct Hrun as [-> | (knn & cross & _ & _ & ->)]; [eauto|].
  set (best := bestMatchesOf (finalMatchesOf cross (goodMatchesOf knn))).
  assert (Hlen : (length (convertMatches (features fi) (features fj) i j best) <= 200)%nat).
  { etransitivity; [apply convertMatches_length|]. unfold best, bestMatchesOf.
    rewrite length_firstn. unfold JS.min. lia. }
  pose proof (convertMatches_indices (features fi) (features fj) i j best) as Hidx.
  eexists. split; [reflexivity|]. split.
  - apply Forall_app. split; [exact Hnext|].
    eapply Forall_impl; [|exact Hidx]. unfold filedBefore. intros mf [-> ->]. lia.
  - intros a b. rewrite pairCount_app.
    destruct (Nat.eq_dec a i) as [-> | Ha]; [destruct (Nat.eq_dec b j) as [-> | Hb]|].
    + rewrite (pairCount_none matches).
      * pose proof (pairCount_le_length (convertMatches (features fi) (features fj) i j best)
                      i j). lia.
      * eapply Forall_impl; [|exact Hbefore]. apply filedBefore_not_samePair.
    + rewrite (pairCount_none (convertMatches _ _ _ _ _)).
      * specialize (Hcap i b). lia.
      * eapply Forall_impl; [|exact Hidx]. intros mf [_ H2]. unfold samePair.
        apply andb_false_iff. right. apply Nat.eqb_neq. lia.
    + rewrite (pairCount_none (convertMatches _ _ _ _ _)).
      * specialize (Hcap a b). lia.
      * eapply Forall_impl; [|exact Hidx]. intros mf [H1 _]. unfold samePair.
        apply andb_false_iff. left. apply Nat.eqb_neq. lia.
Qed.

Lemma matchWith_cap env fi i : forall others j matches w r w',
  matchWith env fi i j others matches w = (r, w') ->
  Forall (filedBefore i j) matches ->
  (forall a b, pairCount matches a b <= 200)%nat ->
  exists matches', r = Returns matches' /\
    Forall (fun mf => (image1Index mf < S i)%nat) matches' /\
    (forall a b, pairCount matches' a b <= 200)%nat.
Proof.
  induction others as [|fj rest IH]; simpl; intros j matches w r w' Hrun Hbefore Hcap.
  - apply ret_inv in Hrun. destruct Hrun as [-> _]. exists matches. repeat split; trivial.
    eapply Forall_impl; [|exact Hbefore]. unfold filedBefore. intros mf H. lia.
  - apply bind_inv in Hrun.
    destruct Hrun as [(matches1 & w1 & Hpair & Hrun) | (e & Hpair & ->)];
      destruct (matchPair_cap _ _ _ _ _ _ _ _ _ Hpair Hbefore Hcap)
        as (matches1' & Hr & Hbefore1 & Hcap1); [|discriminate].
    inversion Hr; subst matches1'.
    exact (IH (S j) matches1 w1 r w' Hrun Hbefore1 Hcap1).
Qed.

Lemma matchFrom_cap env : forall imageFeatures i matches w r w',
  matchFrom env i imageFeatures matches w = (r, w') ->
  Forall (fun mf => (image1Index mf < i)%nat) matches ->
  (forall a b, pairCount matches a b <= 200)%nat ->
  exists matches', r = Returns matches' /\
    (forall a b, pairCount matches' a b <= 200)%nat.
Proof.
  induction imageFeatures as [|fi rest IH]; simpl; intros i matches w r w' Hrun Hbefore Hcap.
  - apply ret_inv in Hrun. destruct Hrun as [-> _]. eauto.
  - apply bind_inv in Hrun.
    destruct Hrun as [(matches1 & w1 & Hwith & Hrun) | (e & Hwith & ->)];
      (destruct (matchWith_cap _ _ _ _ _ _ _ _ _ Hwith) as (matches1' & Hr & Hb1 & Hcap1);
       [eapply Forall_impl; [|exact Hbefore]; unfold filedBefore; intros mf H; lia
       |exact Hcap|]); [|discriminate].
    inversion Hr; subst matches1'.
    exact (IH (S i) matches1 w1 r w' Hrun Hb1 Hcap1).
Qed.

(** X4.  The double loop visits every pair of feature sets once and a
    visit contributes at most 200 correspondences, so in the list that
    [robustFeatureMatching] returns no image pair has more than 200
    correspondences. *)
Theorem returned_matches_at_most_200_per_pair env imageFeatures w matches w' a b :
  robustFeatureMatching env imageFeatures w = (Returns matches, w') ->
  (pairCount matches a b <= 200)%nat.
Proof.
  unfold robustFeatureMatching. intros Hrun.
  apply bind_inv in Hrun. destruct Hrun as [(u & w1 & _ & Hrun) | (e & _ & He)];
    [|discriminate].
  apply matchFrom_cap in Hrun.
  - destruct Hrun as (matches' & Hr & Hcap). inversion Hr; subst matches'. apply Hcap.
  - constructor.
  - intros a' b'. unfold pairCount. simpl. lia.
Qed.

Lemma returned_matches_at_most_200_witness :
  (pairCount [sampleCorrespondence] 0 1 <= 200)%nat.
Proof.
  exact (returned_matches_at_most_200_per_pair matchingEnv
           [sampleFeatures 0; sampleFeatures 1] emptyWorld _ _ 0%nat 1%nat
           sample_matching_run).
Defined.

(** ** The matcher and the pair selection together *)

Lemma findBestInitialPair_some matches initPair :
  findBestInitialPair matches = Some initPair ->
  exists m0,
    In m0 matches /\
    initPair = mkInitialPair (Some (image1Index m0)) (Some (image2Index m0))
                 (filter (samePair (image1Index m0) (image2Index m0)) matches) /\
    (50 <= pairCount matches (image1Index m0) (image2Index m0))%nat.
Proof.
  unfold findBestInitialPair. intros H.
  destruct (findBestInitialPair_selectedAfter matches)
    as [(Hb & _) | (pre & e & post & Hes & Hb & _ & He50 & _)]; [congruence|].
  destruct (selected_entry_first_occurrence matches pre e post Hes)
    as (before & m0 & after & Hms & _ & Hpair & Hcount & _).
  exists m0. repeat split.
  - rewrite Hms. apply in_or_app. right. left. reflexivity.
  - rewrite H in Hb. inversion Hb. exact Hpair.
  - rewrite <- Hcount. exact He50.
Qed.

(** X5.  On the correspondences that [robustFeatureMatching] returns, the
    pair that [findBestInitialPair] selects names two feature sets that
    exist, the first before the second, so that [imageFeatures[image1]]
    and [imageFeatures[image2]] are defined; its correspondences are all
    those of that pair, between 50 and 200 of them. *)
Theorem selected_pair_names_two_feature_sets env imageFeatures w matches w' initPair :
  robustFeatureMatching env imageFeatures w = (Returns matches, w') ->
  findBestInitialPair matches = Some initPair ->
  exists a b fa fb,
    image1 initPair = Some a /\ image2 initPair = Some b /\ (a < b)%nat /\
    featuresAt imageFeatures (image1 initPair) = Some fa /\
    featuresAt imageFeatures (image2 initPair) = Some fb /\
    pair_matches initPair = filter (samePair a b) matches /\
    (50 <= length (pair_matches initPair) <= 200)%nat.
Proof.
  intros Hrun Hbest.
  apply findBestInitialPair_some in Hbest. destruct Hbest as (m0 & Hin & -> & H50).
  assert (Hwell : wellIndexed imageFeatures m0).
  { apply (robustFeatureMatching_invariant env imageFeatures (wellIndexed imageFeatures))
      in Hrun.
    - destruct Hrun as [(matches' & Hr & Hall) | (e & Hr & _)]; [|discriminate].
      inversion Hr; subst matches'. rewrite Forall_forall in Hall. exact (Hall m0 Hin).
    - intros i j fi fj knn m mf Hij Hi Hj _ _ Hconv. unfold toMatchedFeature in Hconv.
      destruct (nth_error (features fi) (cv.queryIdx m)) as [p1|] eqn:H1; [|discriminate].
      destruct (nth_error (features fj) (cv.trainIdx m)) as [p2|] eqn:H2; [|discriminate].
      inversion Hconv; subst mf; clear Hconv.
      split; [exact Hij|]. exists fi, fj. simpl. auto. }
  destruct Hwell as (Hlt & fa & fb & Ha & Hb & _).
  assert (Hcap : (pairCount matches (image1Index m0) (image2Index m0) <= 200)%nat).
  { clear - Hrun. unfold robustFeatureMatching in Hrun.
    apply bind_inv in Hrun. destruct Hrun as [(u & w1 & _ & Hrun) | (e & _ & He)];
      [|discriminate].
    apply matchFrom_cap in Hrun.
    - destruct Hrun as (matches' & Hr & Hcap). inversion Hr; subst matches'. apply Hcap.
    - constructor.
    - intros a' b'. unfold pairCount. simpl. lia. }
  exists (image1Index m0), (image2Index m0), fa, fb. simpl.
  repeat split; trivial.
Qed.

Lemma selected_pair_witness :
  exists a b fa fb,
    image1 (mkInitialPair (Some 0%nat) (Some 1%nat) (repeat fiftyMatch 50)) = Some a /\
    image2 (mkInitialPair (Some 0%nat) (Some 1%nat) (repeat fiftyMatch 50)) = Some b /\
    (a < b)%nat /\
    featuresAt [extracted 0; extracted 1]
      (image1 (mkInitialPair (Some 0%nat) (Some 1%nat) (repeat fiftyMatch 50))) = Some fa /\
    featuresAt [extracted 0; extracted 1]
      (image2 (mkInitialPair (Some 0%nat) (Some 1%nat) (repeat fiftyMatch 50))) = Some fb /\
    pair_matches (mkInitialPair (Some 0%nat) (Some 1%nat) (repeat fiftyMatch 50))
    = filter (samePair a b) (repeat fiftyMatch 50) /\
    (50 <= length (pair_matches
                     (mkInitialPair (Some 0%nat) (Some 1%nat) (repeat fiftyMatch 50)))
     <= 200)%nat.
Proof.
  exact (selected_pair_names_two_feature_sets (testEnv fiftyRows sampleMat samplePose)
           [extracted 0; extracted 1] (mkWorld callsAfterExtraction 0) _ _ _
           (matching_run_fifty sampleMat samplePose) findBestInitialPair_fifty).
Defined.

(** ** Triangulation *)

Lemma logs_ret {A} allowed (a : A) : logs allowed (ret a).
Proof.
  intros w r w' H. apply ret_inv in H. destruct H as [_ ->].
  exists []. rewrite app_nil_r. auto.
Qed.

Lemma logs_call {A} (allowed : cvCall -> Prop) c (answer : outcome A) :
  allowed c -> logs allowed (call c answer).
Proof.
  intros Hc w r w' H. apply call_inv in H. destruct H as [_ ->]. exists [c]. simpl. auto.
Qed.

Lemma logs_bind {A B} allowed (c : M A) (k : A -> M B) :
  logs allowed c -> (forall a, logs allowed (k a)) -> logs allowed (bind c k).
Proof.
  intros Hc Hk w r w' H. apply bind_inv in H.
  destruct H as [(a & w1 & H1 & H2) | (e & H1 & _)].
  - destruct (Hc _ _ _ H1) as (m1 & E1 & F1). destruct (Hk a _ _ _ H2) as (m2 & E2 & F2).
    exists (m1 ++ m2). rewrite E2, E1, app_assoc. split; [reflexivity|].
    apply Forall_app. auto.
  - exact (Hc _ _ _ H1).
Qed.

Lemma logs_try_catch {A} allowed (body : M A) (handler : exn -> M A) :
  logs allowed body -> (forall e, logs allowed (handler e)) ->
  logs allowed (try_catch body handler).
Proof.
  intros Hb Hh w r w' H. apply try_catch_inv in H.
  destruct H as [(a & H1 & _) | (e & w1 & H1 & H2)].
  - exact (Hb _ _ _ H1).
  - destruct (Hb _ _ _ H1) as (m1 & E1 & F1). destruct (Hh e _ _ _ H2) as (m2 & E2 & F2).
    exists (m1 ++ m2). rewrite E2, E1, app_assoc. split; [reflexivity|].
    apply Forall_app. auto.
Qed.

Lemma inlierMatchesOf_length maskAt matches : forall i,
  (length (inlierMatchesOf maskAt i matches) <= length matches)%nat.
Proof.
  induction matches as [|m rest IH]; simpl; intros i; [lia|].
  destruct (maskAt i =? 0)%nat; simpl; specialize (IH (S i)); lia.
Qed.

Lemma flatPoints_length sel l : length (flatPoints sel l) = (2 * length l)%nat.
Proof.
  unfold flatPoints. induction l as [|m l IH]; simpl; [reflexivity|]. rewrite IH. lia.
Qed.

(** One iteration pushes at most one point; it pushes one only for an
    index that has an inlier match, and then draws two random numbers. *)
Lemma validatePoint_step env points4D inlierMatches camera1 camera2 intrinsics i
  points3D w r w' :
  validatePoint env points4D inlierMatches camera1 camera2 intrinsics i points3D w
  = (r, w') ->
  (r = Returns points3D /\ w' = w) \/
  (exists e, r = Throws e /\ w' = w) \/
  (exists p, r = Returns (points3D ++ [p]) /\ (i < length inlierMatches)%nat /\
             calls w' = calls w /\ draws w' = S (S (draws w))).
Proof.
  unfold validatePoint. intros Hrun.
  destruct (readPoint4D points4D i) as [[[[X Y] Z] W]|];
    [|apply ret_inv in Hrun; auto].
  destruct (JS.gtb (JS.abs W) (1 / 1000000)); [|apply ret_inv in Hrun; auto].
  destruct (JS.gtb (Z / W) 0 && JS.gtb _ 0); [|apply ret_inv in Hrun; auto].
  destruct (nth_error inlierMatches i) as [m|] eqn:Hm;
    [|inversion Hrun; subst; right; left; eauto].
  destruct (calculateReprojectionError _ _ _ _ _); [|apply ret_inv in Hrun; auto].
  destruct (JS.ltb _ 2); [|apply ret_inv in Hrun; auto].
  apply bind_inv in Hrun. destruct Hrun as [(r1 & w1 & H1 & Hrun) | (e & H1 & _)];
    [|apply random_inv in H1; destruct H1; discriminate].
  apply random_inv in H1. destruct H1 as [_ ->].
  apply bind_inv in Hrun. destruct Hrun as [(r2 & w2 & H2 & Hrun) | (e & H2 & _)];
    [|apply random_inv in H2; destruct H2; discriminate].
  apply random_inv in H2. destruct H2 as [_ ->].
  apply ret_inv in Hrun. destruct Hrun as [-> ->].
  right. right. eexists. repeat split.
  apply nth_error_Some. congruence.
Qed.

Lemma validatePoints_count env points4D inlierMatches camera1 camera2 intrinsics :
  forall n s points3D w r w',
  validatePoints env points4D inlierMatches camera1 camera2 intrinsics (seq s n) points3D w
  = (r, w') ->
  exists more,
    r = Returns (points3D ++ more) /\
    (length more + Nat.min s (length inlierMatches)
     <= Nat.min (s + n) (length inlierMatches))%nat /\
    calls w' = calls w /\
    draws w' = (draws w + 2 * length more)%nat.
Proof.
  induction n as [|n IH]; simpl; intros s points3D w r w' Hrun.
  - apply ret_inv in Hrun. destruct Hrun as [-> ->]. exists [].
    rewrite app_nil_r, Nat.add_0_r. simpl. repeat split; lia.
  - destruct (validatePoint env points4D inlierMatches camera1 camera2 intrinsics s
                            points3D w) as [[acc|e] w1] eqn:Hstep.
    + apply validatePoint_step in Hstep.
      apply IH in Hrun. destruct Hrun as (more & -> & Hlen & Hcalls & Hdraws).
      destruct Hstep as [[Hr ->] | [(e & Hr & _) | (p & Hr & Hs & Hc & Hd)]];
        [|discriminate|]; inversion Hr; subst acc.
      * exists more. repeat split; trivial. lia.
      * exists (p :: more). rewrite <- app_assoc. simpl. repeat split; try lia.
        congruence.
    + inversion Hrun; subst. apply validatePoint_step in Hstep.
      destruct Hstep as [[Hr _] | [(e' & _ & ->) | (p & Hr & _)]]; try discriminate.
      exists []. rewrite app_nil_r. simpl. repeat split; lia.
Qed.

Lemma triangulatePointsOpenCV_count env matches camera1 camera2 intrinsics maskAt
  pts1 pts2 K Rm t w r w' :
  triangulatePointsOpenCV env matches camera1 camera2 intrinsics maskAt pts1 pts2 K Rm t w
  = (r, w') ->
  exists points3D,
    r = Returns points3D /\
    (length points3D <= length (inlierMatchesOf maskAt 0 matches) <= length matches)%nat /\
    draws w' = (draws w + 2 * length points3D)%nat /\
    ((length (inlierMatchesOf maskAt 0 matches) < 5)%nat -> points3D = []).
Proof.
  intros Hrun. pose proof (inlierMatchesOf_length maskAt matches 0) as Hinl.
  unfold triangulatePointsOpenCV in Hrun.
  assert (Hnil : forall w0, draws w0 = draws w -> @ret (list Point3D.t) [] w0 = (r, w') ->
            exists points3D, r = Returns points3D /\
              (length points3D <= length (inlierMatchesOf maskAt 0 matches)
               <= length matches)%nat /\
              draws w' = (draws w + 2 * length points3D)%nat /\
              ((length (inlierMatchesOf maskAt 0 matches) < 5)%nat -> points3D = [])).
  { intros w0 Hd H. apply ret_inv in H. destruct H as [-> ->]. exists [].
    simpl. repeat split; auto; lia. }
  apply try_catch_inv in Hrun.
  destruct Hrun as [(pts & Hrun & ->) | (e & w1 & Hrun & Hh)].
  - apply bind_inv in Hrun. destruct Hrun as [(Rt1 & w1 & H1 & Hrun) | (e & _ & He)];
      [|discriminate]. apply call_inv in H1. destruct H1 as [_ ->].
    apply bind_inv in Hrun. destruct Hrun as [(P1 & w2 & H2 & Hrun) | (e & _ & He)];
      [|discriminate]. apply call_inv in H2. destruct H2 as [_ ->].
    apply bind_inv in Hrun. destruct Hrun as [(Rt2 & w3 & H3 & Hrun) | (e & _ & He)];
      [|discriminate]. apply call_inv in H3. destruct H3 as [_ ->].
    apply bind_inv in Hrun. destruct Hrun as [(P2 & w4 & H4 & Hrun) | (e & _ & He)];
      [|discriminate]. apply call_inv in H4. destruct H4 as [_ ->].
    rewrite flatPoints_length in Hrun.
    destruct (2 * _ <? 10)%nat eqn:Hlt; [eapply Hnil; [|exact Hrun]; reflexivity|].
    apply Nat.ltb_ge in Hlt.
    apply bind_inv in Hrun. destruct Hrun as [(points4D & w5 & H5 & Hrun) | (e & _ & He)];
      [|discriminate]. apply call_inv in H5. destruct H5 as [_ ->].
    apply validatePoints_count in Hrun.
    destruct Hrun as (more & Hr & Hlen & _ & Hdraws). inversion Hr; subst pts.
    exists more. simpl in *. repeat split; try lia.
  - assert (Hd : draws w1 = draws w).
    { clear Hh Hnil.
      apply bind_inv in Hrun. destruct Hrun as [(Rt1 & w2 & H1 & Hrun) | (e' & H1 & _)];
        apply call_inv in H1; destruct H1 as [_ H1]; [subst w2|subst w1; reflexivity].
      apply bind_inv in Hrun. destruct Hrun as [(P1 & w2 & H2 & Hrun) | (e' & H2 & _)];
        apply call_inv in H2; destruct H2 as [_ H2]; [subst w2|subst w1; reflexivity].
      apply bind_inv in Hrun. destruct Hrun as [(Rt2 & w2 & H3 & Hrun) | (e' & H3 & _)];
        apply call_inv in H3; destruct H3 as [_ H3]; [subst w2|subst w1; reflexivity].
      apply bind_inv in Hrun. destruct Hrun as [(P2 & w2 & H4 & Hrun) | (e' & H4 & _)];
        apply call_inv in H4; destruct H4 as [_ H4]; [subst w2|subst w1; reflexivity].
      destruct (_ <? 10)%nat; [apply ret_inv in Hrun; destruct Hrun; discriminate|].
      apply bind_inv in Hrun.
      destruct Hrun as [(points4D & w2 & H5 & Hrun) | (e' & H5 & _)];
        apply call_inv in H5; destruct H5 as [_ H5]; [subst w2|subst w1; reflexivity].
      apply validatePoints_count in Hrun. destruct Hrun as (more & Hr & _). discriminate. }
    exact (Hnil w1 Hd Hh).
Qed.

(** X6.  [triangulatePointsOpenCV] never throws.  It returns at most as
    many points as the mask marks inliers among the correspondences and
    draws two random numbers for each point, and with fewer than five
    inliers it returns no point after building the projection matrices,
    without calling [cv.triangulatePoints]. *)
Theorem triangulation_bounded_by_inliers env matches camera1 camera2 intrinsics maskAt
  pts1 pts2 K Rm t w r w' :
  triangulatePointsOpenCV env matches camera1 camera2 intrinsics maskAt pts1 pts2 K Rm t w
  = (r, w') ->
  exists points3D,
    r = Returns points3D /\
    (length points3D <= length (inlierMatchesOf maskAt 0 matches) <= length matches)%nat /\
    draws w' = (draws w + 2 * length points3D)%nat /\
    ((length (inlierMatchesOf maskAt 0 matches) < 5)%nat ->
     points3D = [] /\
     exists more, calls w' = calls w ++ more /\ Forall buildsProjection more).
Proof.
  intros Hrun.
  destruct (triangulatePointsOpenCV_count _ _ _ _ _ _ _ _ _ _ _ _ _ _ Hrun)
    as (points3D & Hr & Hlen & Hdraws & Hnone).
  exists points3D. split; [exact Hr|]. split; [exact Hlen|]. split; [exact Hdraws|].
  intros H5. split; [exact (Hnone H5)|].
  clear Hr Hdraws Hnone Hlen. revert w r w' Hrun. unfold triangulatePointsOpenCV.
  change (logs buildsProjection
            (triangulatePointsOpenCV env matches camera1 camera2 intrinsics maskAt
                                     pts1 pts2 K Rm t)).
  unfold triangulatePointsOpenCV.
  - apply logs_try_catch; [|intros e; apply logs_ret].
    repeat (apply logs_bind;
            [apply logs_call; unfold buildsProjection; auto|]; intros ?).
    rewrite flatPoints_length.
    destruct (2 * _ <? 10)%nat eqn:Hlt; [apply logs_ret|].
    apply Nat.ltb_ge in Hlt. lia.
Qed.

Lemma triangulation_bounded_witness :
  exists points3D : list Point3D.t,
    Returns [] = Returns points3D /\
    (length points3D <= length (inlierMatchesOf (fun _ => 0%nat) 0 sampleMatches)
     <= length sampleMatches)%nat /\
    draws (mkWorld [hconcat; gemm; hconcat; gemm] 0) = (draws emptyWorld + 2 * length points3D)%nat /\
    ((length (inlierMatchesOf (fun _ => 0%nat) 0 sampleMatches) < 5)%nat ->
     points3D = [] /\
     exists more, calls (mkWorld [hconcat; gemm; hconcat; gemm] 0)
                  = calls emptyWorld ++ more /\ Forall buildsProjection more).
Proof.
  exact (triangulation_bounded_by_inliers sampleEnv sampleMatches
           (makeCamera1 sampleIntrinsics) (makeCamera2 sampleIntrinsics cv.eye3 cv.zeros3)
           sampleIntrinsics (fun _ => 0%nat) sampleMat sampleMat sampleMat cv.eye3 cv.zeros3
           emptyWorld _ _ eq_refl).
Defined.

(** ** The result of the geometric stage *)

Lemma performTwoViewReconstruction_cases env matches features1 features2 intrinsics
  w r w' :
  performTwoViewReconstruction env matches features1 features2 intrinsics w = (r, w') ->
  r = Returns twoViewFailure \/
  exists points3D cameras,
    r = Returns (TwoViewResult.mk true points3D cameras) /\
    recoveredFrom env matches intrinsics cameras /\
    (length points3D <= length matches)%nat.
Proof.
  unfold performTwoViewReconstruction. intros Hrun.
  apply try_catch_inv in Hrun.
  destruct Hrun as [(res & Hrun & ->) | (e & w1 & _ & Hh)];
    [|apply ret_inv in Hh; destruct Hh as [-> _]; auto].
  apply bind_inv in Hrun. destruct Hrun as [(E & w1 & HE & Hrun) | (e & _ & He)];
    [|discriminate].
  apply call_inv in HE. destruct HE as [HE _].
  destruct (cv.rows E =? 0)%nat eqn:Hrows;
    [apply ret_inv in Hrun; destruct Hrun as [Hr _]; auto|].
  apply Nat.eqb_neq in Hrows.
  apply bind_inv in Hrun. destruct Hrun as [(pose & w2 & Hpose & Hrun) | (e & _ & He)];
    [|discriminate].
  apply call_inv in Hpose. destruct Hpose as [Hpose _].
  destruct (cv.inlierCount pose <? 50)%Z eqn:Hcount;
    [apply ret_inv in Hrun; destruct Hrun as [Hr _]; auto|].
  apply Z.ltb_ge in Hcount.
  apply bind_inv in Hrun. destruct Hrun as [(pts & w3 & Hpts & Hrun) | (e & Hpts & He)].
  - apply ret_inv in Hrun. destruct Hrun as [Hr _]. inversion Hr; subst res.
    apply triangulatePointsOpenCV_count in Hpts.
    destruct Hpts as (pts' & Hr' & Hlen & _). inversion Hr'; subst pts'.
    right. exists pts, [makeCamera1 intrinsics;
                        makeCamera2 intrinsics (cv.poseR pose) (cv.poseT pose)].
    repeat split; try lia. exists E, pose. symmetry in HE, Hpose. auto.
  - apply triangulatePointsOpenCV_count in Hpts.
    destruct Hpts as (pts' & Hr' & _). discriminate.
Qed.

(** X7.  [performSfMReconstruction] never throws.  A result that reports
    failure has no points, no cameras and an error message.  A result that
    reports success has no error message; it rests on a non-empty
    essential matrix and a pose with at least 50 inliers estimated for a
    selected pair of at least 50 correspondences, its two cameras are the
    identity camera and the camera of that pose, and it has at most as
    many points as the pair has correspondences. *)
Theorem reconstruction_result_is_failure_or_two_cameras
  env imageFeatures matches intrinsics w r w' :
  performSfMReconstruction env imageFeatures matches intrinsics w = (r, w') ->
  exists res,
    r = Returns res /\
    ((success res = false /\ points3D res = [] /\ cameras res = [] /\
      errorMessage res <> None) \/
     (success res = true /\ errorMessage res = None /\
      exists initPair,
        findBestInitialPair matches = Some initPair /\
        (50 <= length (pair_matches initPair))%nat /\
        recoveredFrom env (pair_matches initPair) intrinsics (cameras res) /\
        (length (points3D res) <= length (pair_matches initPair))%nat)).
Proof.
  unfold performSfMReconstruction. intros Hrun.
  assert (Hfail : forall msg w0, ret (sfmFailure msg) w0 = (r, w') ->
            exists res, r = Returns res /\
              ((success res = false /\ points3D res = [] /\ cameras res = [] /\
                errorMessage res <> None) \/
               (success res = true /\ errorMessage res = None /\
                exists initPair,
                  findBestInitialPair matches = Some initPair /\
                  (50 <= length (pair_matches initPair))%nat /\
                  recoveredFrom env (pair_matches initPair) intrinsics (cameras res) /\
                  (length (points3D res) <= length (pair_matches initPair))%nat))).
  { intros msg w0 H. apply ret_inv in H. destruct H as [-> _].
    eexists. split; [reflexivity|]. left. simpl. repeat split. discriminate. }
  destruct (length matches <? 50)%nat; [eapply Hfail; eauto|].
  apply try_catch_inv in Hrun.
  destruct Hrun as [(res & Hrun & ->) | (e & w1 & _ & Hh)]; [|eapply Hfail; eauto].
  destruct (findBestInitialPair matches) as [initPair|] eqn:Hbest;
    [|eapply Hfail; eauto].
  apply bind_inv in Hrun. destruct Hrun as [(two & w1 & Htwo & Hrun) | (e & _ & He)];
    [|discriminate].
  apply performTwoViewReconstruction_cases in Htwo.
  destruct Htwo as [Hr | (pts & cams & Hr & Hrec & Hlen)]; inversion Hr; subst two;
    simpl in Hrun; [eapply Hfail; eauto|].
  apply ret_inv in Hrun. destruct Hrun as [Hres _].
  eexists. split; [exact Hres|]. right. simpl. repeat split.
  exists initPair. repeat split; trivial.
  apply findBestInitialPair_some in Hbest. destruct Hbest as (m0 & _ & -> & H50).
  exact H50.
Qed.

Lemma reconstruction_result_witness :
  exists res,
    Returns (mkReconstructionResult [samplePoint]
               [makeCamera1 sampleIntrinsics;
                makeCamera2 sampleIntrinsics cv.eye3 cv.zeros3] true None)
    = Returns res /\
    ((success res = false /\ points3D res = [] /\ cameras res = [] /\
      errorMessage res <> None) \/
     (success res = true /\ errorMessage res = None /\
      exists initPair,
        findBestInitialPair (repeat fiftyMatch 50) = Some initPair /\
        (50 <= length (pair_matches initPair))%nat /\
        recoveredFrom cloudEnv (pair_matches initPair) sampleIntrinsics (cameras res) /\
        (length (points3D res) <= length (pair_matches initPair))%nat)).
Proof.
  exact (reconstruction_result_is_failure_or_two_cameras cloudEnv [extracted 0; extracted 1]
           (repeat fiftyMatch 50) sampleIntrinsics (mkWorld callsAfterIntrinsics 0) _ _
           sfm_run_cloud).
Defined.

(** ** The buffers of a point cloud *)







(** ** The intrinsic matrix and the projection *)

(** X9.  [estimateCameraIntrinsics] stores the principal point
    (width / 2, height / 2) in the third column of the matrix, which
    [Matrix3.set] files under [elements[6]] and [elements[7]];
    [projectPoint] reads [elements[2]] and [elements[5]], which are zero,
    so with the estimated matrix the projection of a point of non-zero
    depth is its normalised camera-frame position scaled by the focal
    length 1.2 * width on both axes, without the principal point. *)
Theorem estimated_intrinsics_project_without_principal_point
  env image w intrinsics width height w' point3D camera :
  estimateCameraIntrinsics env (Some image) w = (Returns (intrinsics, width, height), w') ->
  THREE.z (THREE.applyMatrix3 (THREE.sub point3D (position camera)) (rotation camera))
  <> 0 ->
  THREE.entry intrinsics 0 2 = INR width / 2 /\
  THREE.entry intrinsics 1 2 = INR height / 2 /\
  projectPoint point3D camera intrinsics
  = Some (THREE.x (THREE.applyMatrix3 (THREE.sub point3D (position camera))
                                      (rotation camera))
          / THREE.z (THREE.applyMatrix3 (THREE.sub point3D (position camera))
                                        (rotation camera))
          * (INR width * 1.2),
          THREE.y (THREE.applyMatrix3 (THREE.sub point3D (position camera))
                                      (rotation camera))
          / THREE.z (THREE.applyMatrix3 (THREE.sub point3D (position camera))
                                        (rotation camera))
          * (INR width * 1.2)).
Proof.
  unfold estimateCameraIntrinsics. intros Hrun Hz.
  apply bind_inv in Hrun. destruct Hrun as [(mat & w1 & _ & Hrun) | (e & _ & He)];
    [|discriminate].
  apply ret_inv in Hrun. destruct Hrun as [Hr _]. inversion Hr; subst; clear Hr.
  split; [reflexivity|]. split; [reflexivity|].
  unfold projectPoint.
  destruct (Req_dec_T _ 0) as [Hz0|_]; [contradiction|].
  cbn [THREE.set THREE.te0 THREE.te2 THREE.te4 THREE.te5].
  f_equal. f_equal; ring.
Qed.

Lemma estimated_intrinsics_witness :
  THREE.entry sampleIntrinsics 0 2 = INR 3 / 2 /\
  THREE.entry sampleIntrinsics 1 2 = INR 3 / 2 /\
  projectPoint (THREE.mkVector3 0 0 1) (makeCamera1 sampleIntrinsics) sampleIntrinsics
  = Some (THREE.x (THREE.applyMatrix3
                     (THREE.sub (THREE.mkVector3 0 0 1)
                                (position (makeCamera1 sampleIntrinsics)))
                     (rotation (makeCamera1 sampleIntrinsics)))
          / THREE.z (THREE.applyMatrix3
                       (THREE.sub (THREE.mkVector3 0 0 1)
                                  (position (makeCamera1 sampleIntrinsics)))
                       (rotation (makeCamera1 sampleIntrinsics)))
          * (INR 3 * 1.2),
          THREE.y (THREE.applyMatrix3
                     (THREE.sub (THREE.mkVector3 0 0 1)
                                (position (makeCamera1 sampleIntrinsics)))
                     (rotation (makeCamera1 sampleIntrinsics)))
          / THREE.z (THREE.applyMatrix3
                       (THREE.sub (THREE.mkVector3 0 0 1)
                                  (position (makeCamera1 sampleIntrinsics)))
                       (rotation (makeCamera1 sampleIntrinsics)))
          * (INR 3 * 1.2)).
Proof.
  apply (estimated_intrinsics_project_without_principal_point sampleEnv sampleImage
           emptyWorld sampleIntrinsics 3 3 _ (THREE.mkVector3 0 0 1)
           (makeCamera1 sampleIntrinsics) (intrinsics_run [] sampleMat samplePose emptyWorld)).
  cbn. lra.
Defined.

(** ** Rays and projections *)

Lemma applyMatrix3_scaled v s m :
  THREE.applyMatrix3 (Vector3_multiplyScalar v s) m
  = Vector3_multiplyScalar (THREE.applyMatrix3 v m) s.
Proof.
  unfold THREE.applyMatrix3, Vector3_multiplyScalar. simpl. apply vector3_eq; ring.
Qed.

Lemma Vector3_length_pixel_ray x y : 1 <= Vector3_length (THREE.mkVector3 x y 1).
Proof.
  unfold Vector3_length, JS.sqrt. simpl.
  rewrite <- sqrt_1 at 1. apply sqrt_le_1_alt. nra.
Qed.

(** X10.  For a camera whose rotation matrix undoes its transpose and an
    intrinsic matrix with non-zero focal lengths, [unprojectPoint]
    returns a ray from the camera position, and [projectPoint] maps every
    point of that ray in front of the camera back to the pixel the ray
    was made from. *)
Theorem unprojected_ray_projects_back_to_its_pixel point camera intrinsics s :
  undoesItsTranspose (rotation camera) ->
  THREE.te0 intrinsics <> 0 ->
  THREE.te4 intrinsics <> 0 ->
  0 < s ->
  exists ray,
    unprojectPoint point camera intrinsics = Some ray /\
    origin ray = position camera /\
    projectPoint (pointAt ray s) camera intrinsics
    = Some (FeaturePoint.x point, FeaturePoint.y point).
Proof.
  intros Hrot Hfx Hfy Hs. unfold unprojectPoint.
  destruct (Req_dec_T (THREE.te0 intrinsics) 0) as [H|_]; [contradiction|].
  destruct (Req_dec_T (THREE.te4 intrinsics) 0) as [H|_]; [contradiction|].
  eexists. split; [reflexivity|]. split; [reflexivity|].
  set (px := (FeaturePoint.x point - THREE.te2 intrinsics) / THREE.te0 intrinsics).
  set (py := (FeaturePoint.y point - THREE.te5 intrinsics) / THREE.te4 intrinsics).
  pose proof (Vector3_length_pixel_ray px py) as Hlen.
  unfold Vector3_normalize.
  destruct (Req_dec_T (Vector3_length (THREE.mkVector3 px py 1)) 0) as [H0|_]; [lra|].
  set (len := Vector3_length (THREE.mkVector3 px py 1)) in *.
  unfold projectPoint, pointAt. cbn [origin direction].
  assert (Hcam :
    THREE.applyMatrix3
      (THREE.sub
         (THREE.add (position camera)
            (Vector3_multiplyScalar
               (THREE.applyMatrix3 (Vector3_divideScalar (THREE.mkVector3 px py 1) len)
                                   (THREE.transpose (rotation camera))) s))
         (position camera)) (rotation camera)
    = THREE.mkVector3 (px * (1 / len) * s) (py * (1 / len) * s) (1 * (1 / len) * s)).
  { set (d := Vector3_divideScalar (THREE.mkVector3 px py 1) len).
    replace (THREE.sub _ (position camera))
      with (Vector3_multiplyScalar
              (THREE.applyMatrix3 d (THREE.transpose (rotation camera))) s)
      by (unfold THREE.sub, THREE.add, Vector3_multiplyScalar; simpl;
          apply vector3_eq; ring).
    rewrite applyMatrix3_scaled, Hrot. reflexivity. }
  rewrite Hcam. cbn [THREE.x THREE.y THREE.z].
  destruct (Req_dec_T (1 * (1 / len) * s) 0) as [Hz|_].
  - exfalso. assert (0 < 1 * (1 / len) * s); [|lra].
    apply Rmult_lt_0_compat; [|exact Hs].
    apply Rmult_lt_0_compat; [lra|]. apply Rdiv_lt_0_compat; lra.
  - f_equal. unfold px, py. f_equal; field; repeat split; trivial; lra.
Qed.

Lemma identity_undoesItsTranspose : undoesItsTranspose THREE.identity.
Proof.
  intros [a b c]. unfold THREE.applyMatrix3, THREE.transpose, THREE.identity. simpl.
  apply vector3_eq; ring.
Qed.

Lemma unprojected_ray_witness :
  exists ray,
    unprojectPoint origin2D (makeCamera1 sampleIntrinsics) sampleIntrinsics = Some ray /\
    origin ray = position (makeCamera1 sampleIntrinsics) /\
    projectPoint (pointAt ray 1) (makeCamera1 sampleIntrinsics) sampleIntrinsics
    = Some (FeaturePoint.x origin2D, FeaturePoint.y origin2D).
Proof.
  apply (unprojected_ray_projects_back_to_its_pixel origin2D (makeCamera1 sampleIntrinsics)
           sampleIntrinsics 1 identity_undoesItsTranspose).
  - cbn. lra.
  - cbn. lra.
  - lra.
Defined.

(** * The simplified pipeline *)

(** ** Sorting with a comparator *)

Lemma Array_insert_perm {A} (compare : A -> A -> number) a l :
  Permutation (a :: l) (Array_insert compare a l).
Proof.
  induction l as [|b l IH]; simpl; [reflexivity|].
  destruct (JS.gtb (compare a b) 0); [|reflexivity].
  rewrite perm_swap. constructor. exact IH.
Qed.

Lemma Array_sort_perm {A} (compare : A -> A -> number) l :
  Permutation l (Array_sort compare l).
Proof.
  induction l as [|a l IH]; simpl; [reflexivity|].
  rewrite <- Array_insert_perm. constructor. exact IH.
Qed.

Section SortByKey.

Context {A : Type}.
Variable compare : A -> A -> number.
Variable key : A -> number.
Hypothesis compare_key : forall a b, compare a b = key a - key b.

Lemma Array_insert_sorted a l :
  StronglySorted (fun a b => key a <= key b) l ->
  StronglySorted (fun a b => key a <= key b) (Array_insert compare a l).
Proof.
  induction 1 as [|b l Hs IH Hb]; simpl; [repeat constructor|].
  destruct (JS.gtb (compare a b) 0) eqn:Hc.
  - apply gtb_true_iff in Hc. rewrite compare_key in Hc.
    constructor; [exact IH|].
    apply Forall_forall. intros c Hin.
    apply (Permutation_in _ (Permutation_sym (Array_insert_perm compare a l))) in Hin.
    destruct Hin as [<- | Hin]; [lra|].
    rewrite Forall_forall in Hb. exact (Hb c Hin).
  - assert (Hle : key a <= key b).
    { unfold JS.gtb in Hc. apply ltb_false_iff in Hc. rewrite compare_key in Hc. lra. }
    constructor; [constructor; trivial|].
    constructor; [exact Hle|].
    eapply Forall_impl; [|exact Hb]. intros c Hc'. simpl in Hc'. lra.
Qed.

Lemma Array_sort_sorted l :
  StronglySorted (fun a b => key a <= key b) (Array_sort compare l).
Proof.
  induction l as [|a l IH]; simpl; [constructor|]. apply Array_insert_sorted. exact IH.
Qed.

(** The sort is stable: elements with equal keys keep their order. *)
Lemma Array_sort_equal_keys l :
  (forall a b, In a l -> In b l -> key a = key b) -> Array_sort compare l = l.
Proof.
  induction l as [|a l IH]; simpl; intros Heq; [reflexivity|].
  rewrite IH by (intros; apply Heq; auto).
  destruct l as [|b l]; simpl; [reflexivity|].
  replace (JS.gtb (compare a b) 0) with false; [reflexivity|].
  symmetry. unfold JS.gtb. apply ltb_false_iff. rewrite compare_key.
  rewrite (Heq a b); [lra | auto | simpl; auto].
Qed.

End SortByKey.

Lemma firstn_sorted {A} (R : A -> A -> Prop) n : forall l,
  StronglySorted R l -> StronglySorted R (firstn n l).
Proof.
  induction n as [|n IH]; intros l Hs; simpl; [constructor|].
  destruct l as [|a l]; [constructor|]. inversion Hs; subst.
  constructor; [apply IH; trivial|].
  apply Forall_forall. intros b Hb.
  rewrite Forall_forall in H2. apply H2.
  rewrite <- (firstn_skipn n l). apply in_or_app. left. exact Hb.
Qed.

Lemma firstn_incl {A} n (l : list A) a : In a (firstn n l) -> In a l.
Proof.
  intros H. rewrite <- (firstn_skipn n l). apply in_or_app. left. exact H.
Qed.

(** ** The simplified matcher *)

Lemma featureDistance_nonneg f g : 0 <= featureDistance f g.
Proof. unfold featureDistance, Simplified.computeDescriptorDistance, JS.sqrt. apply sqrt_pos. Qed.

Lemma nearestStep_nearestAfter feature1 processed st feature2 :
  nearestAfter feature1 processed st ->
  nearestAfter feature1 (processed ++ [feature2]) (Simplified.nearestStep feature1 st feature2).
Proof.
  unfold Simplified.nearestStep. fold (featureDistance feature1 feature2).
  destruct processed as [|p0 processed].
  - simpl. intros ->. simpl.
    exists [], feature2, []. simpl. repeat split; try tauto.
  - intros (before & best & after & Hsplit & Hbest & Hdist & Hbefore & Hafter & Hsecond).
    rewrite Hsplit.
    assert (Hshape : exists q rest, (before ++ best :: after) ++ [feature2] = q :: rest).
    { destruct before; simpl; eauto. }
    destruct Hshape as (q & rest & Hshape). unfold nearestAfter. rewrite Hshape, <- Hshape.
    clear q rest Hshape. rewrite Hdist. simpl Simplified.below.
    destruct (JS.ltb (featureDistance feature1 feature2) (featureDistance feature1 best))
      eqn:Hlt.
    + apply ltb_true_iff in Hlt.
      exists (before ++ best :: after), feature2, []. simpl.
      repeat split; try tauto.
      * intros f Hf. apply in_app_or in Hf. destruct Hf as [Hf | [<- | Hf]].
        -- specialize (Hbefore f Hf). lra.
        -- exact Hlt.
        -- specialize (Hafter f Hf). lra.
      * right. exists best. rewrite app_nil_r. repeat split.
        -- apply in_or_app. right. left. reflexivity.
        -- intros g Hg. apply in_app_or in Hg. destruct Hg as [Hg | [<- | Hg]].
           ++ specialize (Hbefore g Hg). lra.
           ++ lra.
           ++ exact (Hafter g Hg).
    + apply ltb_false_iff in Hlt.
      assert (Hafter' : forall f, In f (after ++ [feature2]) ->
                featureDistance feature1 best <= featureDistance feature1 f).
      { intros f Hf. apply in_app_or in Hf. destruct Hf as [Hf | [<- | []]]; auto. }
      assert (Hsplit' : (before ++ best :: after) ++ [feature2]
                        = before ++ best :: after ++ [feature2]).
      { rewrite <- app_assoc. reflexivity. }
      destruct Hsecond as [(Hnone & Hinf) | (f & Hf & Hfin & Hmin)].
      * rewrite Hinf. simpl Simplified.below. cbv iota.
        exists before, best, (after ++ [feature2]). simpl.
        repeat split; trivial.
        right. exists feature2. repeat split.
        -- rewrite app_assoc. apply in_or_app. right. left. reflexivity.
        -- intros g Hg. rewrite app_assoc, Hnone in Hg. destruct Hg as [<- | []]. lra.
      * rewrite Hfin. simpl Simplified.below.
        destruct (JS.ltb (featureDistance feature1 feature2) (featureDistance feature1 f))
          eqn:Hlt2.
        -- apply ltb_true_iff in Hlt2.
           exists before, best, (after ++ [feature2]). simpl.
           repeat split; trivial.
           right. exists feature2. repeat split.
           ++ rewrite app_assoc. apply in_or_app. right. left. reflexivity.
           ++ intros g Hg. rewrite app_assoc in Hg. apply in_app_or in Hg.
              destruct Hg as [Hg | [<- | []]]; [|lra]. specialize (Hmin g Hg). lra.
        -- apply ltb_false_iff in Hlt2.
           exists before, best, (after ++ [feature2]).
           repeat split; trivial.
           right. exists f. repeat split; trivial.
           ++ rewrite app_assoc. apply in_or_app. left. exact Hf.
           ++ intros g Hg. rewrite app_assoc in Hg. apply in_app_or in Hg.
              destruct Hg as [Hg | [<- | []]]; [exact (Hmin g Hg) | exact Hlt2].
Qed.

Lemma fold_nearestStep feature1 : forall rest processed st,
  nearestAfter feature1 processed st ->
  nearestAfter feature1 (processed ++ rest)
               (fold_left (Simplified.nearestStep feature1) rest st).
Proof.
  induction rest as [|f rest IH]; intros processed st H; simpl.
  - rewrite app_nil_r. exact H.
  - replace (processed ++ f :: rest) with ((processed ++ [f]) ++ rest)
      by (rewrite <- app_assoc; reflexivity).
    apply IH. apply nearestStep_nearestAfter. exact H.
Qed.

Lemma nearest_nearestAfter feature1 features2 :
  nearestAfter feature1 features2 (Simplified.nearest feature1 features2).
Proof. apply (fold_nearestStep feature1 features2 []). reflexivity. Qed.

(** What the ratio test pushes for one feature of the first image. *)
Lemma matchFeature_cases i j features2 matches feature1 :
  Simplified.matchFeature i j features2 matches feature1 = matches \/
  exists mf before after,
    Simplified.matchFeature i j features2 matches feature1 = matches ++ [mf] /\
    Simplified.point1 mf = feature1 /\
    Simplified.image1Index mf = i /\
    Simplified.image2Index mf = j /\
    features2 = before ++ Simplified.point2 mf :: after /\
    (forall f, In f (before ++ after) ->
       featureDistance feature1 (Simplified.point2 mf) < 0.7 * featureDistance feature1 f) /\
    ((before ++ after = [] /\ Simplified.confidence mf = 1) \/
     (exists f, In f (before ++ after) /\
        (forall g, In g (before ++ after) ->
           featureDistance feature1 f <= featureDistance feature1 g) /\
        Simplified.confidence mf
        = 1 - featureDistance feature1 (Simplified.point2 mf) / featureDistance feature1 f)) /\
    0.3 < Simplified.confidence mf <= 1.
Proof.
  unfold Simplified.matchFeature.
  pose proof (nearest_nearestAfter feature1 features2) as Hn.
  destruct features2 as [|f0 features2].
  - simpl in Hn. rewrite Hn. simpl. auto.
  - destruct Hn as (before & best & after & Hsplit & Hbest & Hdist & _ & _ & Hsecond).
    rewrite Hbest, Hdist.
    destruct Hsecond as [(Hnone & Hinf) | (f & Hf & Hfin & Hmin)].
    + rewrite Hinf. right. eexists. exists before, after.
      split; [reflexivity|]. simpl. repeat split; trivial; try lra.
      * rewrite Hnone. intros g [].
      * left. split; [exact Hnone | lra].
    + rewrite Hfin.
      destruct (JS.ltb (featureDistance feature1 best) (0.7 * featureDistance feature1 f))
        eqn:Hratio; [|auto].
      apply ltb_true_iff in Hratio.
      pose proof (featureDistance_nonneg feature1 best) as Hpos.
      assert (Hquot : 0 <= featureDistance feature1 best / featureDistance feature1 f < 0.7).
      { split.
        - apply Rmult_le_reg_r with (r := featureDistance feature1 f); [lra|].
          field_simplify; lra.
        - apply Rmult_lt_reg_r with (r := featureDistance feature1 f); [lra|].
          field_simplify; lra. }
      right. eexists. exists before, after.
      split; [reflexivity|]. simpl. repeat split; trivial; try lra.
      * intros g Hg. specialize (Hmin g Hg). lra.
      * right. exists f. auto.
Qed.

Section SimplifiedMatching.

Variable all : list Simplified.ImageFeatures.

Lemma matchPair_nearest i j fi fj :
  (i < j)%nat ->
  nth_error all i = Some fi ->
  nth_error all j = Some fj ->
  forall features1 matches,
  (forall f, In f features1 -> In f (Simplified.features fi)) ->
  Forall (nearestNeighbourMatch all) matches ->
  Forall (nearestNeighbourMatch all)
         (fold_left (Simplified.matchFeature i j (Simplified.features fj)) features1 matches).
Proof.
  intros Hij Hi Hj. induction features1 as [|feature1 rest IH]; simpl; intros matches Hsub Hall;
    [exact Hall|].
  apply IH; [auto|].
  destruct (matchFeature_cases i j (Simplified.features fj) matches feature1)
    as [-> | (mf & before & after & -> & H1 & Hi1 & Hi2 & Hsplit & Hratio & Hconf & Hrange)];
    [exact Hall|].
  apply Forall_app. split; [exact Hall|]. constructor; [|constructor].
  split; [lia|]. exists fi, fj, before, after.
  rewrite Hi1, Hi2, H1. repeat split; auto; lra.
Qed.

Lemma matchWith_nearest fi i : forall others j matches,
  (i < j)%nat ->
  nth_error all i = Some fi ->
  (forall k, nth_error others k = nth_error all (j + k)) ->
  Forall (nearestNeighbourMatch all) matches ->
  Forall (nearestNeighbourMatch all) (Simplified.matchWith fi i j others matches).
Proof.
  induction others as [|fj rest IH]; simpl; intros j matches Hij Hi Hothers Hall;
    [exact Hall|].
  assert (Hj : nth_error all j = Some fj).
  { rewrite <- (Nat.add_0_r j). symmetry. apply (Hothers 0%nat). }
  apply IH; trivial; [lia | |].
  - intros k. change (nth_error rest k) with (nth_error (fj :: rest) (S k)).
    rewrite Hothers. f_equal. lia.
  - unfold Simplified.matchPair. apply (matchPair_nearest i j fi fj); auto.
Qed.

Lemma matchFrom_nearest : forall imageFeatures i matches,
  (forall k, nth_error imageFeatures k = nth_error all (i + k)) ->
  Forall (nearestNeighbourMatch all) matches ->
  Forall (nearestNeighbourMatch all) (Simplified.matchFrom i imageFeatures matches).
Proof.
  induction imageFeatures as [|fi rest IH]; simpl; intros i matches Hpos Hall; [exact Hall|].
  assert (Hi : nth_error all i = Some fi).
  { rewrite <- (Nat.add_0_r i). symmetry. apply (Hpos 0%nat). }
  assert (Hrest : forall k, nth_error rest k = nth_error all (S i + k)).
  { intros k. change (nth_error rest k) with (nth_error (fi :: rest) (S k)).
    rewrite Hpos. f_equal. lia. }
  apply IH; [exact Hrest|]. apply matchWith_nearest; auto.
Qed.

End SimplifiedMatching.

(** X11.  Every correspondence that the simplified [matchFeatures]
    returns joins a feature of one image to a feature of a later image
    that is its nearest neighbour by descriptor distance and passes the
    ratio test against every other feature of that image (its distance is
    below 0.7 times theirs); its confidence is one minus the quotient of
    the best by the second-best distance, 1 when the later image has no
    other feature, and lies above 0.3 and at most at 1. *)
Theorem simplified_matches_pass_ratio_test imageFeatures mf :
  In mf (Simplified.matchFeatures imageFeatures) ->
  nearestNeighbourMatch imageFeatures mf.
Proof.
  unfold Simplified.matchFeatures. intros Hin.
  apply firstn_incl in Hin.
  apply (Permutation_in _ (Permutation_sym (Array_sort_perm _ _))) in Hin.
  pose proof (matchFrom_nearest imageFeatures imageFeatures 0 [] (fun k => eq_refl)
                (Forall_nil _)) as Hall.
  rewrite Forall_forall in Hall. exact (Hall mf Hin).
Qed.

Lemma simplified_matches_witness :
  nearestNeighbourMatch [oneFeatureImage 0; oneFeatureImage 1]
    (Simplified.mkMatchedFeature cornerFeature cornerFeature 0 1 (1 - 0)).
Proof.
  apply (simplified_matches_pass_ratio_test [oneFeatureImage 0; oneFeatureImage 1]).
  simpl. left. reflexivity.
Defined.

(** X12.  The simplified [matchFeatures] returns at most 1000
    correspondences, in the order of descending confidence. *)
Theorem simplified_matches_sorted_and_capped imageFeatures :
  (length (Simplified.matchFeatures imageFeatures) <= 1000)%nat /\
  StronglySorted (fun a b => Simplified.confidence b <= Simplified.confidence a)
                 (Simplified.matchFeatures imageFeatures).
Proof.
  unfold Simplified.matchFeatures. split.
  - rewrite length_firstn. lia.
  - apply firstn_sorted.
    assert (Hkey : forall a b : Simplified.MatchedFeature,
              Simplified.confidence b - Simplified.confidence a
              = - Simplified.confidence a - - Simplified.confidence b)
      by (intros; ring).
    pose proof (Array_sort_sorted
                  (fun a b => Simplified.confidence b - Simplified.confidence a)
                  (fun a => - Simplified.confidence a) Hkey
                  (Simplified.matchFrom 0 imageFeatures [])) as Hs.
    revert Hs. apply StronglySorted_ind.
    + constructor.
    + intros a l _ IH Hall. constructor; [exact IH|].
      eapply Forall_impl; [|exact Hall]. intros b Hb. simpl in Hb. lra.
Qed.

Lemma fold_matchFeature_lone i j g : forall features1 matches,
  fold_left (Simplified.matchFeature i j [g]) features1 matches
  = matches ++ map (fun f => Simplified.mkMatchedFeature f g i j (1 - 0)) features1.
Proof.
  induction features1 as [|f rest IH]; intros matches; simpl.
  - rewrite app_nil_r. reflexivity.
  - rewrite IH. unfold Simplified.matchFeature. simpl. rewrite <- app_assoc. reflexivity.
Qed.

(** X13.  The ratio test needs a second candidate to reject anything:
    when the second of two images has a single feature, the simplified
    [matchFeatures] matches every feature of the first image to it, with
    confidence 1 and in the order of the features, up to the limit of
    1000. *)
Theorem lone_candidate_is_matched_by_every_feature fi fj g :
  Simplified.features fj = [g] ->
  Simplified.matchFeatures [fi; fj]
  = firstn 1000 (map (fun f => Simplified.mkMatchedFeature f g 0 1 1)
                     (Simplified.features fi)).
Proof.
  intros Hg. unfold Simplified.matchFeatures. f_equal.
  simpl Simplified.matchFrom. unfold Simplified.matchPair.
  rewrite Hg, fold_matchFeature_lone. simpl app.
  replace (1 - 0) with 1 by ring.
  apply (Array_sort_equal_keys
           (fun a b => Simplified.confidence b - Simplified.confidence a)
           (fun a => - Simplified.confidence a)).
  - intros a b. ring.
  - intros a b Ha Hb. apply in_map_iff in Ha, Hb.
    destruct Ha as (fa & <- & _). destruct Hb as (fb & <- & _). reflexivity.
Qed.

Lemma lone_candidate_witness :
  Simplified.matchFeatures [oneFeatureImage 0; oneFeatureImage 1]
  = firstn 1000 (map (fun f => Simplified.mkMatchedFeature f cornerFeature 0 1 1)
                     (Simplified.features (oneFeatureImage 0))).
Proof.
  exact (lone_candidate_is_matched_by_every_feature (oneFeatureImage 0) (oneFeatureImage 1)
           cornerFeature eq_refl).
Defined.

(** ** Camera poses of the simplified pipeline *)

Lemma poseOf_on_circle_or_line n matches i :
  Simplified.focalLength (Simplified.poseOf n matches i) = 800 /\
  THREE.y (Simplified.position (Simplified.poseOf n matches i)) = 0 /\
  ((Vector3_length (Simplified.position (Simplified.poseOf n matches i)) = 3 /\
    Simplified.rotation (Simplified.poseOf n matches i)
    = Simplified.mkEuler 0 (- (INR i / INR n * 2 * PI)) 0) \/
   (Simplified.position (Simplified.poseOf n matches i)
    = THREE.mkVector3 (INR i * 0.5 - INR n * 0.25) 0 2 /\
    Simplified.rotation (Simplified.poseOf n matches i) = Simplified.mkEuler 0 0 0)).
Proof.
  unfold Simplified.poseOf.
  destruct (8 <=? length _)%nat; simpl; repeat split; auto.
  left. split; [|reflexivity].
  unfold Vector3_length, JS.sqrt. simpl.
  set (angle := INR i / INR n * 2 * PI).
  replace (3 * cos angle * (3 * cos angle) + 0 * 0 + 3 * sin angle * (3 * sin angle))
    with (3 * 3 * ((sin angle)² + (cos angle)²)) by (unfold Rsqr; ring).
  rewrite sin2_cos2, Rmult_1_r. apply sqrt_square. lra.
Qed.

(** X14.  [estimateCameraPoses] returns one pose per image and one pose
    when there is no image; the first pose is at the origin without
    rotation; every pose has the focal length 800 and the height 0, and
    each pose after the first is either at distance 3 from the origin,
    turned about the vertical axis by minus its angle, or unrotated on
    the line of depth 2. *)
Theorem simplified_poses_on_circle_or_line imageFeatures matches :
  length (Simplified.estimateCameraPoses imageFeatures matches)
  = Nat.max 1 (length imageFeatures) /\
  nth_error (Simplified.estimateCameraPoses imageFeatures matches) 0
  = Some (Simplified.mkCameraPose (THREE.mkVector3 0 0 0) (Simplified.mkEuler 0 0 0) 800) /\
  Forall (fun pose => Simplified.focalLength pose = 800 /\
                      THREE.y (Simplified.position pose) = 0)
         (Simplified.estimateCameraPoses imageFeatures matches) /\
  Forall (fun pose => Vector3_length (Simplified.position pose) = 3 \/
                      (THREE.z (Simplified.position pose) = 2 /\
                       Simplified.rotation pose = Simplified.mkEuler 0 0 0))
         (tl (Simplified.estimateCameraPoses imageFeatures matches)).
Proof.
  unfold Simplified.estimateCameraPoses. simpl. repeat split.
  - rewrite length_map, length_seq. destruct (length imageFeatures); lia.
  - constructor; [simpl; auto|].
    apply Forall_forall. intros pose Hin. apply in_map_iff in Hin.
    destruct Hin as (i & <- & _).
    destruct (poseOf_on_circle_or_line (length imageFeatures) matches i) as (H1 & H2 & _).
    auto.
  - apply Forall_forall. intros pose Hin. apply in_map_iff in Hin.
    destruct Hin as (i & <- & _).
    destruct (poseOf_on_circle_or_line (length imageFeatures) matches i)
      as (_ & _ & [[H _] | [H1 H2]]); [left; exact H|].
    right. rewrite H1, H2. auto.
Qed.

(** ** The shape analysis *)

Lemma quotient_le_upper a b c : 0 < c -> a <= b * c -> a / c <= b.
Proof.
  intros Hc H. apply Rmult_le_reg_r with (r := c); [exact Hc|].
  unfold Rdiv. rewrite Rmult_assoc, Rinv_l by lra. lra.
Qed.

Lemma quotient_lt_upper a b c : 0 < c -> a < b * c -> a / c < b.
Proof.
  intros Hc H. apply Rmult_lt_reg_r with (r := c); [exact Hc|].
  unfold Rdiv. rewrite Rmult_assoc, Rinv_l by lra. lra.
Qed.

Lemma quotient_ge_lower a b c : 0 < c -> b * c <= a -> b <= a / c.
Proof.
  intros Hc H. apply Rmult_le_reg_r with (r := c); [exact Hc|].
  unfold Rdiv. rewrite Rmult_assoc, Rinv_l by lra. lra.
Qed.

Lemma fold_left_seq_invariant {S} (f : S -> nat -> S) (P : S -> Prop) n :
  (forall s i, (i < n)%nat -> P s -> P (f s i)) ->
  forall s, P s -> P (fold_left f (seq 0 n) s).
Proof.
  intros Hstep.
  assert (H : forall len start s, (start + len <= n)%nat -> P s ->
                P (fold_left f (seq start len) s)).
  { induction len as [|len IH]; intros start s Hle Hs; simpl; [exact Hs|].
    apply IH; [lia|]. apply Hstep; [lia | exact Hs]. }
  intros s Hs. apply H; [lia | exact Hs].
Qed.

Lemma fold_left_count {S} (f : S -> nat -> S) (count : S -> nat) (step : nat) l :
  (forall s i, (count (f s i) <= count s + step)%nat) ->
  forall s, (count (fold_left f l s) <= count s + step * length l)%nat.
Proof.
  intros Hstep. induction l as [|i l IH]; intros s; simpl; [lia|].
  specialize (IH (f s i)). specialize (Hstep s i). lia.
Qed.

Lemma scanPixel_transparent imageData x y st :
  transparent imageData ->
  (x < Simplified.width imageData)%nat -> (y < Simplified.height imageData)%nat ->
  Simplified.scanPixel imageData y st x = st.
Proof.
  intros Hclear Hx Hy. unfold Simplified.scanPixel.
  destruct (nth_error _ _) as [alpha|] eqn:Ha; [|reflexivity].
  specialize (Hclear x y alpha Hx Hy Ha).
  destruct (Nat.ltb_spec 128 alpha); [lia | reflexivity].
Qed.

Lemma scanImage_transparent imageData :
  transparent imageData -> Simplified.scanImage imageData = emptyScan imageData.
Proof.
  intros Hclear. unfold Simplified.scanImage.
  apply (fold_left_seq_invariant (Simplified.scanRow imageData)
           (fun st => st = emptyScan imageData)); [|reflexivity].
  intros st y Hy ->. unfold Simplified.scanRow.
  apply (fold_left_seq_invariant (Simplified.scanPixel imageData y)
           (fun st => st = emptyScan imageData)); [|reflexivity].
  intros st x Hx ->. apply scanPixel_transparent; trivial.
Qed.

Lemma byte_at data i : Forall (fun b => (b <= 255)%nat) data -> (nth i data 0%nat <= 255)%nat.
Proof.
  intros Hall. destruct (Nat.lt_ge_cases i (length data)) as [Hlt | Hge].
  - rewrite Forall_forall in Hall. apply Hall. apply nth_In. exact Hlt.
  - rewrite nth_overflow by exact Hge. lia.
Qed.

Lemma scanPixel_scanned imageData x y st :
  Forall (fun b => (b <= 255)%nat) (Simplified.data imageData) ->
  (x < Simplified.width imageData)%nat -> (y < Simplified.height imageData)%nat ->
  scanned imageData st -> scanned imageData (Simplified.scanPixel imageData y st x).
Proof.
  intros Hbytes Hx Hy Hst. unfold Simplified.scanPixel.
  destruct (nth_error _ _) as [alpha|]; [|exact Hst].
  destruct (128 <? alpha)%nat; [|exact Hst].
  destruct Hst as (Hinit & Hbounds & HR & HG & HB).
  pose proof (byte_at _ ((y * Simplified.width imageData + x) * 4) Hbytes) as H0.
  pose proof (byte_at _ ((y * Simplified.width imageData + x) * 4 + 1) Hbytes) as H1.
  pose proof (byte_at _ ((y * Simplified.width imageData + x) * 4 + 2) Hbytes) as H2.
  unfold scanned. simpl. repeat split; try discriminate; try lia.
  - destruct (Nat.eq_dec (Simplified.pixelCount st) 0) as [E|E]; [|lia].
    rewrite (Hinit E). simpl. lia.
  - destruct (Nat.eq_dec (Simplified.pixelCount st) 0) as [E|E]; [|lia].
    rewrite (Hinit E). simpl. lia.
Qed.

Lemma scanImage_scanned imageData :
  Forall (fun b => (b <= 255)%nat) (Simplified.data imageData) ->
  scanned imageData (Simplified.scanImage imageData).
Proof.
  intros Hbytes. unfold Simplified.scanImage.
  apply (fold_left_seq_invariant (Simplified.scanRow imageData) (scanned imageData)).
  - intros st y Hy Hst. unfold Simplified.scanRow.
    apply (fold_left_seq_invariant (Simplified.scanPixel imageData y) (scanned imageData));
      [|exact Hst].
    intros st' x Hx Hst'. apply scanPixel_scanned; trivial.
  - unfold scanned, emptyScan. simpl. repeat split; lia.
Qed.

Lemma scanImage_count imageData :
  (Simplified.pixelCount (Simplified.scanImage imageData)
   <= Simplified.width imageData * Simplified.height imageData)%nat.
Proof.
  unfold Simplified.scanImage.
  pose proof (fold_left_count (Simplified.scanRow imageData) Simplified.pixelCount
                (Simplified.width imageData) (seq 0 (Simplified.height imageData))) as H.
  rewrite length_seq in H. apply H. clear H. intros st y. unfold Simplified.scanRow.
  pose proof (fold_left_count (Simplified.scanPixel imageData y) Simplified.pixelCount
                1 (seq 0 (Simplified.width imageData))) as Hrow.
  rewrite length_seq in Hrow. etransitivity; [apply Hrow|lia].
  intros st' x. unfold Simplified.scanPixel.
  destruct (nth_error _ _) as [alpha|]; [|lia].
  destruct (128 <? alpha)%nat; simpl; lia.
Qed.

(** X15.  For an image in which no pixel has an alpha above 128,
    [extractObjectBounds] reports a degenerate object: its width and
    height are -1 (the bounds never moved from their initial values), its
    centre is the middle of the image, its density is 0, its colour the
    default grey and its aspect ratio 1. *)
Theorem transparent_image_has_degenerate_bounds imageData :
  (0 < Simplified.width imageData)%nat ->
  (0 < Simplified.height imageData)%nat ->
  transparent imageData ->
  exists shape,
    Simplified.extractObjectBounds imageData = Some shape /\
    Simplified.objectWidth shape = -1 /\
    Simplified.objectHeight shape = -1 /\
    Simplified.centerX shape = 1 / 2 /\
    Simplified.centerY shape = 1 / 2 /\
    Simplified.density shape = 0 /\
    Simplified.avgColor shape = THREE.mkColor 0.5 0.5 0.5 /\
    Simplified.aspectRatio shape = 1.
Proof.
  intros Hw Hh Hclear. unfold Simplified.extractObjectBounds.
  destruct (Nat.eqb_spec (Simplified.width imageData) 0) as [E|_]; [lia|].
  destruct (Nat.eqb_spec (Simplified.height imageData) 0) as [E|_]; [lia|].
  cbv beta iota zeta. simpl orb. cbv iota.
  rewrite (scanImage_transparent imageData Hclear). unfold emptyScan.
  cbn [Simplified.minX Simplified.maxX Simplified.minY Simplified.maxY
       Simplified.pixelCount Nat.ltb Nat.leb].
  apply lt_INR in Hw, Hh. simpl INR in Hw, Hh.
  eexists. split; [reflexivity|].
  cbn [Simplified.objectWidth Simplified.objectHeight Simplified.centerX Simplified.centerY
       Simplified.density Simplified.avgColor Simplified.aspectRatio INR].
  assert (Hneg : (0 - INR (Simplified.height imageData)) / INR (Simplified.height imageData)
                 = -1) by (field; lra).
  repeat split; try (field; lra).
  rewrite Hneg. replace (JS.gtb (-1) 0) with false; [reflexivity|].
  symmetry. unfold JS.gtb. apply ltb_false_iff. lra.
Qed.

Lemma clearPixel_transparent : transparent clearPixel.
Proof.
  intros x y alpha Hx Hy. unfold alphaAt. simpl in Hx, Hy.
  assert (x = 0%nat) by lia. assert (y = 0%nat) by lia. subst. simpl.
  intros H. inversion H. lia.
Qed.

Lemma transparent_image_witness :
  exists shape,
    Simplified.extractObjectBounds clearPixel = Some shape /\
    Simplified.objectWidth shape = -1 /\
    Simplified.objectHeight shape = -1 /\
    Simplified.centerX shape = 1 / 2 /\
    Simplified.centerY shape = 1 / 2 /\
    Simplified.density shape = 0 /\
    Simplified.avgColor shape = THREE.mkColor 0.5 0.5 0.5 /\
    Simplified.aspectRatio shape = 1.
Proof.
  apply (transparent_image_has_degenerate_bounds clearPixel).
  - simpl. lia.
  - simpl. lia.
  - exact clearPixel_transparent.
Defined.

(** X16.  For an image with pixels whose bytes are at most 255,
    [extractObjectBounds] returns a density between 0 and 1 and an
    average colour with components between 0 and 1; when the density is
    positive the object is inside the image: its width and height are in
    [0, 1), its centre is in [0, 1) on both axes and its aspect ratio is
    not negative. *)
Theorem object_bounds_are_inside_the_image imageData :
  (0 < Simplified.width imageData)%nat ->
  (0 < Simplified.height imageData)%nat ->
  Forall (fun b => (b <= 255)%nat) (Simplified.data imageData) ->
  exists shape,
    Simplified.extractObjectBounds imageData = Some shape /\
    0 <= Simplified.density shape <= 1 /\
    0 <= THREE.r (Simplified.avgColor shape) <= 1 /\
    0 <= THREE.g (Simplified.avgColor shape) <= 1 /\
    0 <= THREE.b (Simplified.avgColor shape) <= 1 /\
    (0 < Simplified.density shape ->
     0 <= Simplified.objectWidth shape < 1 /\
     0 <= Simplified.objectHeight shape < 1 /\
     0 <= Simplified.centerX shape < 1 /\
     0 <= Simplified.centerY shape < 1 /\
     0 <= Simplified.aspectRatio shape).
Proof.
  intros Hw Hh Hbytes. unfold Simplified.extractObjectBounds.
  destruct (Nat.eqb_spec (Simplified.width imageData) 0) as [E|_]; [lia|].
  destruct (Nat.eqb_spec (Simplified.height imageData) 0) as [E|_]; [lia|].
  cbv beta iota zeta. simpl orb. cbv iota.
  pose proof (scanImage_scanned imageData Hbytes) as (Hinit & Hbounds & HR & HG & HB).
  pose proof (scanImage_count imageData) as Hcount.
  set (st := Simplified.scanImage imageData) in *.
  set (w := Simplified.width imageData) in *.
  set (h := Simplified.height imageData) in *.
  assert (HW : 0 < INR w) by (apply (lt_INR 0); exact Hw).
  assert (HH : 0 < INR h) by (apply (lt_INR 0); exact Hh).
  assert (HWH : 0 < INR w * INR h) by (apply Rmult_lt_0_compat; trivial).
  eexists. split; [reflexivity|].
  cbn [Simplified.objectWidth Simplified.objectHeight Simplified.centerX Simplified.centerY
       Simplified.density Simplified.avgColor Simplified.aspectRatio].
  assert (Hcolour : forall total, (total <= 255 * Simplified.pixelCount st)%nat ->
            (0 < Simplified.pixelCount st)%nat ->
            0 <= INR total / INR (Simplified.pixelCount st) / 255 <= 1).
  { intros total Ht Hp. apply le_INR in Ht. rewrite mult_INR in Ht.
    apply (lt_INR 0) in Hp. simpl INR in Hp.
    replace (INR 255) with 255 in Ht by (simpl; lra).
    pose proof (pos_INR total) as Hpos. split.
    - apply quotient_ge_lower; [lra|]. rewrite Rmult_0_l.
      apply quotient_ge_lower; [lra|]. lra.
    - apply quotient_le_upper; [lra|]. apply quotient_le_upper; [lra|]. lra. }
  split.
  { split.
    - apply quotient_ge_lower; [lra|]. rewrite Rmult_0_l. apply pos_INR.
    - apply quotient_le_upper; [lra|]. rewrite Rmult_1_l, <- mult_INR. apply le_INR.
      exact Hcount. }
  destruct (Nat.ltb_spec 0 (Simplified.pixelCount st)) as [Hp|Hp].
  - cbn [THREE.r THREE.g THREE.b].
    repeat (split; [apply Hcolour; trivial|]).
    intros _. destruct (Hbounds Hp) as ((Hx1 & Hx2) & (Hy1 & Hy2)).
    apply le_INR in Hx1, Hy1. apply lt_INR in Hx2, Hy2.
    pose proof (pos_INR (Simplified.minX st)). pose proof (pos_INR (Simplified.minY st)).
    assert (Hwidth : 0 <= (INR (Simplified.maxX st) - INR (Simplified.minX st)) / INR w < 1).
    { split; [apply quotient_ge_lower | apply quotient_lt_upper]; lra. }
    assert (Hheight : 0 <= (INR (Simplified.maxY st) - INR (Simplified.minY st)) / INR h < 1).
    { split; [apply quotient_ge_lower | apply quotient_lt_upper]; lra. }
    repeat split; try tauto.
    + apply quotient_ge_lower; [lra|]. rewrite Rmult_0_l.
      apply quotient_ge_lower; lra.
    + apply quotient_lt_upper; [lra|]. apply quotient_lt_upper; lra.
    + apply quotient_ge_lower; [lra|]. rewrite Rmult_0_l.
      apply quotient_ge_lower; lra.
    + apply quotient_lt_upper; [lra|]. apply quotient_lt_upper; lra.
    + destruct (JS.gtb _ 0) eqn:Hgt; [|lra].
      apply gtb_true_iff in Hgt.
      apply quotient_ge_lower; [lra|]. lra.
  - cbn [THREE.r THREE.g THREE.b]. repeat (split; [lra|]).
    intros Hd. exfalso. assert (Hz : Simplified.pixelCount st = 0%nat) by lia.
    rewrite Hz in Hd. simpl INR in Hd. unfold Rdiv in Hd. rewrite Rmult_0_l in Hd. lra.
Qed.

Lemma object_bounds_witness :
  exists shape,
    Simplified.extractObjectBounds opaquePixel = Some shape /\
    0 <= Simplified.density shape <= 1 /\
    0 <= THREE.r (Simplified.avgColor shape) <= 1 /\
    0 <= THREE.g (Simplified.avgColor shape) <= 1 /\
    0 <= THREE.b (Simplified.avgColor shape) <= 1 /\
    (0 < Simplified.density shape ->
     0 <= Simplified.objectWidth shape < 1 /\
     0 <= Simplified.objectHeight shape < 1 /\
     0 <= Simplified.centerX shape < 1 /\
     0 <= Simplified.centerY shape < 1 /\
     0 <= Simplified.aspectRatio shape).
Proof.
  apply (object_bounds_are_inside_the_image opaquePixel).
  - simpl. lia.
  - simpl. lia.
  - simpl. repeat constructor; lia.
Defined.

(** ** The generated point clouds *)

Section PushTimes.

Variable body : M Simplified.Point3D.
Variable P : Simplified.Point3D -> Prop.
Variable k : nat.

Hypothesis body_returns : forall w r w',
  body w = (r, w') ->
  exists p, r = Returns p /\ P p /\ draws w' = (draws w + k)%nat /\ calls w' = calls w.

Lemma pushTimes_returns : forall n points3D w r w',
  Simplified.pushTimes n body points3D w = (r, w') ->
  exists more,
    r = Returns (points3D ++ more) /\ length more = n /\ Forall P more /\
    draws w' = (draws w + k * n)%nat /\ calls w' = calls w.
Proof.
  induction n as [|n IH]; simpl; intros points3D w r w' Hrun.
  - apply ret_inv in Hrun. destruct Hrun as [-> ->]. exists [].
    rewrite app_nil_r. repeat split; trivial; lia.
  - apply bind_inv in Hrun. destruct Hrun as [(p & w1 & Hbody & Hrun) | (e & Hbody & _)].
    + destruct (body_returns _ _ _ Hbody) as (p' & Hr & Hp & Hd & Hc).
      inversion Hr; subst p'.
      destruct (IH _ _ _ _ Hrun) as (more & -> & Hlen & Hall & Hd' & Hc').
      exists (p :: more). rewrite <- app_assoc. simpl. repeat split; auto; try lia.
      congruence.
    + destruct (body_returns _ _ _ Hbody) as (p' & Hr & _). discriminate.
Qed.

End PushTimes.

Lemma defaultPoint_returns env w r w' :
  unitRandom env ->
  Simplified.defaultPoint env w = (r, w') ->
  exists p, r = Returns p /\ defaultShapePoint p /\
            draws w' = (draws w + 3)%nat /\ calls w' = calls w.
Proof.
  intros Hunit Hrun. unfold Simplified.defaultPoint in Hrun.
  apply bind_inv in Hrun. destruct Hrun as [(r1 & w1 & H1 & Hrun) | (e & H1 & _)];
    apply random_inv in H1; destruct H1 as [H1 Hw1]; [|discriminate].
  apply bind_inv in Hrun. destruct Hrun as [(r2 & w2 & H2 & Hrun) | (e & H2 & _)];
    apply random_inv in H2; destruct H2 as [H2 Hw2]; [|discriminate].
  apply bind_inv in Hrun. destruct Hrun as [(r3 & w3 & H3 & Hrun) | (e & H3 & _)];
    apply random_inv in H3; destruct H3 as [H3 Hw3]; [|discriminate].
  apply ret_inv in Hrun. destruct Hrun as [-> ->].
  inversion H1; inversion H2; inversion H3; subst. simpl.
  eexists. split; [reflexivity|].
  pose proof (Hunit (draws w)). pose proof (Hunit (S (draws w))).
  pose proof (Hunit (S (S (draws w)))).
  unfold defaultShapePoint. simpl. repeat split; try lra. lia.
Qed.

Lemma generateShapeBasedPointCloud_nil env offsetHSL :
  Simplified.generateShapeBasedPointCloud env offsetHSL []
  = Simplified.pushTimes 800 (Simplified.defaultPoint env) [].
Proof. reflexivity. Qed.

(** X17.  Without shapes, [generateShapeBasedPointCloud] returns the
    default shape: exactly 800 points made from three random numbers
    each, all inside the cube of side 2 about the origin, with the colour
    (0.6, 0.6, 0.7) and the confidence 0.5. *)
Theorem no_shape_gives_the_default_cube env offsetHSL w r w' :
  unitRandom env ->
  Simplified.generateShapeBasedPointCloud env offsetHSL [] w = (r, w') ->
  exists points3D,
    r = Returns points3D /\
    length points3D = 800%nat /\
    Forall defaultShapePoint points3D /\
    draws w' = (draws w + 3 * 800)%nat.
Proof.
  intros Hunit Hrun.
  rewrite generateShapeBasedPointCloud_nil in Hrun.
  destruct (pushTimes_returns (Simplified.defaultPoint env) defaultShapePoint 3
              (fun w0 r0 w0' H => defaultPoint_returns env w0 r0 w0' Hunit H)
              800 [] w r w' Hrun) as (more & Hr & Hlen & Hall & Hd & _).
  exists more. split; [exact Hr|]. split; [exact Hlen|]. split; [exact Hall|].
  rewrite Hd. reflexivity.
Qed.

Lemma sampleEnv_unitRandom : unitRandom sampleEnv.
Proof. intros n. simpl. lra. Qed.

Lemma no_shape_witness :
  exists points3D,
    fst (Simplified.generateShapeBasedPointCloud sampleEnv (fun c _ _ _ => c) [] emptyWorld)
    = Returns points3D /\
    length points3D = 800%nat /\
    Forall defaultShapePoint points3D /\
    draws (snd (Simplified.generateShapeBasedPointCloud sampleEnv (fun c _ _ _ => c) []
                  emptyWorld))
    = (draws emptyWorld + 3 * 800)%nat.
Proof.
  exact (no_shape_gives_the_default_cube sampleEnv (fun c _ _ _ => c) emptyWorld _ _
           sampleEnv_unitRandom (surjective_pairing _)).
Defined.

Lemma shapeAt_in_range shapeBounds r :
  shapeBounds <> [] -> 0 <= r < 1 ->
  exists shape,
    Simplified.shapeAt shapeBounds (Zfloor (r * INR (length shapeBounds))) = Some shape.
Proof.
  intros Hne Hr. unfold Simplified.shapeAt.
  assert (Hlen : 0 < INR (length shapeBounds)).
  { apply (lt_INR 0). destruct shapeBounds; [contradiction | simpl; lia]. }
  set (v := r * INR (length shapeBounds)).
  assert (Hv : 0 <= v < INR (length shapeBounds)).
  { unfold v. split; [apply Rmult_le_pos; lra|]. nra. }
  pose proof (Zfloor_bound v) as Hb.
  assert (H0 : (0 <= Zfloor v)%Z) by (apply Zfloor_lub; simpl; lra).
  destruct (Z.ltb_spec (Zfloor v) 0) as [Hneg|_]; [lia|].
  assert (Hlt : (Z.to_nat (Zfloor v) < length shapeBounds)%nat).
  { apply INR_lt. rewrite INR_IZR_INZ, Z2Nat.id by exact H0. lra. }
  destruct (nth_error shapeBounds (Z.to_nat (Zfloor v))) as [shape|] eqn:Hn; [eauto|].
  apply nth_error_None in Hn. lia.
Qed.

Lemma on_the_unit_sphere theta phi :
  JS.pow2 (sin theta * cos phi) + JS.pow2 (sin theta * sin phi) + JS.pow2 (cos theta) = 1.
Proof.
  unfold JS.pow2.
  replace (sin theta * cos phi * (sin theta * cos phi)
           + sin theta * sin phi * (sin theta * sin phi) + cos theta * cos theta)
    with ((sin theta)² * ((sin phi)² + (cos phi)²) + (cos theta)²) by (unfold Rsqr; ring).
  rewrite sin2_cos2, Rmult_1_r. apply sin2_cos2.
Qed.

(** The semi-axes of the ellipsoid for the scales and the mean aspect
    ratio, and the points that the loop body makes. *)
Lemma shapePoint_returns env offsetHSL shapeBounds scaleX scaleY scaleZ avgAspectRatio :
  unitRandom env -> shapeBounds <> [] ->
  0.5 <= scaleX -> 0.5 <= scaleY -> 0.5 <= scaleZ ->
  exists a b c,
    0.4 <= a /\ 0.35 <= b /\ 0.5 <= c /\
    forall w r w',
      Simplified.shapePoint env offsetHSL shapeBounds scaleX scaleY scaleZ avgAspectRatio w
      = (r, w') ->
      exists p, r = Returns p /\ onEllipsoid a b c p /\
                draws w' = (draws w + 7)%nat /\ calls w' = calls w.
Proof.
  intros Hunit Hne HX HY HZ.
  set (a := if JS.ltb avgAspectRatio 0.7 then scaleX
            else if JS.gtb avgAspectRatio 1.4 then scaleX * 0.8 else scaleX).
  set (b := if JS.ltb avgAspectRatio 0.7 then scaleY * 0.7
            else if JS.gtb avgAspectRatio 1.4 then scaleY * 1.3 else scaleY).
  set (c := if JS.ltb avgAspectRatio 0.7 then scaleZ * 1.2
            else if JS.gtb avgAspectRatio 1.4 then scaleZ else scaleZ).
  exists a, b, c.
  assert (Ha : 0.4 <= a)
    by (unfold a; destruct (JS.ltb _ _); [|destruct (JS.gtb _ _)]; lra).
  assert (Hb : 0.35 <= b)
    by (unfold b; destruct (JS.ltb _ _); [|destruct (JS.gtb _ _)]; lra).
  assert (Hc : 0.5 <= c)
    by (unfold c; destruct (JS.ltb _ _); [|destruct (JS.gtb _ _)]; lra).
  repeat split; trivial.
  intros w r w' Hrun. unfold Simplified.shapePoint in Hrun.
  apply bind_inv in Hrun. destruct Hrun as [(r1 & w1 & H1 & Hrun) | (e & H1 & _)];
    apply random_inv in H1; destruct H1 as [H1 ->]; [|discriminate].
  apply bind_inv in Hrun. destruct Hrun as [(r2 & w2 & H2 & Hrun) | (e & H2 & _)];
    apply random_inv in H2; destruct H2 as [H2 ->]; [|discriminate].
  apply bind_inv in Hrun. destruct Hrun as [(r3 & w3 & H3 & Hrun) | (e & H3 & _)];
    apply random_inv in H3; destruct H3 as [H3 ->]; [|discriminate].
  inversion H3; subst r3. cbn [draws calls] in Hrun.
  destruct (shapeAt_in_range shapeBounds (Math_random env (S (S (draws w)))) Hne
              (Hunit _)) as (shape & Hshape).
  rewrite Hshape in Hrun.
  apply bind_inv in Hrun. destruct Hrun as [(r4 & w4 & H4 & Hrun) | (e & H4 & _)];
    apply random_inv in H4; destruct H4 as [H4 ->]; [|discriminate].
  apply bind_inv in Hrun. destruct Hrun as [(r5 & w5 & H5 & Hrun) | (e & H5 & _)];
    apply random_inv in H5; destruct H5 as [H5 ->]; [|discriminate].
  apply bind_inv in Hrun. destruct Hrun as [(r6 & w6 & H6 & Hrun) | (e & H6 & _)];
    apply random_inv in H6; destruct H6 as [H6 ->]; [|discriminate].
  apply bind_inv in Hrun. destruct Hrun as [(r7 & w7 & H7 & Hrun) | (e & H7 & _)];
    apply random_inv in H7; destruct H7 as [H7 ->]; [|discriminate].
  apply ret_inv in Hrun. destruct Hrun as [-> ->]. cbn [draws calls].
  eexists. split; [reflexivity|]. split; [|split; [lia | reflexivity]].
  inversion H7; subst r7. pose proof (Hunit (S (S (S (S (S (S (draws w)))))))) as Hr7.
  unfold onEllipsoid. cbn [Simplified.point_position Simplified.point_confidence].
  split; [|lra].
  set (theta := acos (2 * r2 - 1)). set (phi := r1 * PI * 2).
  rewrite <- (on_the_unit_sphere theta phi).
  unfold a, b, c.
  destruct (JS.ltb avgAspectRatio 0.7); [|destruct (JS.gtb avgAspectRatio 1.4)];
    cbn [THREE.x THREE.y THREE.z]; unfold JS.pow2;
    repeat match goal with
           | |- _ + _ = _ + _ => f_equal
           end; field; lra.
Qed.

(** X18.  For a non-empty list of shapes of non-negative density,
    [generateShapeBasedPointCloud] returns between 500 and 2000 points,
    made from seven random numbers each; all of them lie on one ellipsoid
    about the origin whose semi-axes are at least 0.4, 0.35 and 0.5, and
    their confidences are in [0.7, 1). *)
Theorem shape_cloud_lies_on_an_ellipsoid env offsetHSL shapeBounds w r w' :
  unitRandom env ->
  shapeBounds <> [] ->
  Forall (fun shape => 0 <= Simplified.density shape) shapeBounds ->
  Simplified.generateShapeBasedPointCloud env offsetHSL shapeBounds w = (r, w') ->
  exists points3D a b c,
    r = Returns points3D /\
    (500 <= length points3D <= 2000)%nat /\
    0.4 <= a /\ 0.35 <= b /\ 0.5 <= c /\
    Forall (onEllipsoid a b c) points3D /\
    draws w' = (draws w + 7 * length points3D)%nat.
Proof.
  intros Hunit Hne _ Hrun. unfold Simplified.generateShapeBasedPointCloud in Hrun.
  destruct shapeBounds as [|s0 rest]; [contradiction|].
  change (length (s0 :: rest) =? 0)%nat with false in Hrun. cbv iota zeta in Hrun.
  set (shapeBounds := s0 :: rest) in *.
  destruct (shapePoint_returns env offsetHSL shapeBounds
              (Rmax 0.5 (Simplified.average Simplified.objectWidth shapeBounds * 3))
              (Rmax 0.5 (Simplified.average Simplified.objectHeight shapeBounds * 3))
              (Rmax 0.5 (JS.sqrt (Simplified.average Simplified.density shapeBounds) * 2))
              (Simplified.average Simplified.aspectRatio shapeBounds)
              Hunit Hne (Rmax_l _ _) (Rmax_l _ _) (Rmax_l _ _))
    as (a & b & c & Ha & Hb & Hc & Hbody).
  apply (pushTimes_returns _ (onEllipsoid a b c) 7 Hbody) in Hrun.
  destruct Hrun as (more & Hr & Hlen & Hall & Hd & _).
  exists more, a, b, c. simpl in Hr. rewrite Hlen.
  unfold Simplified.numPointsOf in *.
  repeat split; trivial; try lia.
Qed.

Lemma shape_cloud_witness :
  exists points3D a b c,
    fst (Simplified.generateShapeBasedPointCloud sampleEnv (fun c _ _ _ => c) [pixelShape]
           emptyWorld) = Returns points3D /\
    (500 <= length points3D <= 2000)%nat /\
    0.4 <= a /\ 0.35 <= b /\ 0.5 <= c /\
    Forall (onEllipsoid a b c) points3D /\
    draws (snd (Simplified.generateShapeBasedPointCloud sampleEnv (fun c _ _ _ => c)
                  [pixelShape] emptyWorld))
    = (draws emptyWorld + 7 * length points3D)%nat.
Proof.
  apply (shape_cloud_lies_on_an_ellipsoid sampleEnv (fun c _ _ _ => c) [pixelShape]
           emptyWorld _ _ sampleEnv_unitRandom).
  - discriminate.
  - repeat constructor. simpl. lra.
  - apply surjective_pairing.
Defined.

(** ** The mesh of the simplified pipeline *)

Lemma ToUint32_INR k : (Z.of_nat k < 4294967296)%Z -> Simplified.ToUint32 (INR k) = k.
Proof.
  intros Hk. unfold Simplified.ToUint32, Simplified.truncate.
  destruct (Rlt_dec (INR k) 0) as [Hneg|_]; [pose proof (pos_INR k); lra|].
  rewrite INR_IZR_INZ, ZfloorZ, Z.mod_small by lia. apply Nat2Z.id.
Qed.

Lemma ToUint32_below x n :
  (Z.of_nat n < 4294967296)%Z -> 0 <= x < INR n -> (Simplified.ToUint32 x < n)%nat.
Proof.
  intros Hn Hx. unfold Simplified.ToUint32, Simplified.truncate.
  destruct (Rlt_dec x 0) as [Hneg|_]; [lra|].
  pose proof (Zfloor_bound x) as Hb.
  assert (H0 : (0 <= Zfloor x)%Z) by (apply Zfloor_lub; simpl; lra).
  assert (Hlt : (Zfloor x < Z.of_nat n)%Z).
  { apply lt_IZR. rewrite <- INR_IZR_INZ. lra. }
  rewrite Z.mod_small by lia. lia.
Qed.

Lemma remainder_bounds a b :
  0 <= a -> 0 < b -> 0 <= Simplified.remainder a b < b.
Proof.
  intros Ha Hb. unfold Simplified.remainder, Simplified.truncate.
  assert (Hq : 0 <= a / b) by (apply quotient_ge_lower; lra).
  destruct (Rlt_dec (a / b) 0) as [Hneg|_]; [lra|].
  pose proof (Zfloor_bound (a / b)) as [Hlo Hhi].
  assert (Heq : a = a / b * b) by (field; lra).
  set (q := IZR (Zfloor (a / b))) in *.
  split; nra.
Qed.

Lemma indexFrom_indices : forall cloud index,
  Forall (fun e => (index <= Simplified.index e < index + length cloud)%nat)
         (Simplified.indexFrom index cloud) /\
  length (Simplified.indexFrom index cloud) = length cloud.
Proof.
  induction cloud as [|p rest IH]; intros index; simpl; [split; [constructor | reflexivity]|].
  destruct (IH (S index)) as [Hall Hlen]. split; [|lia].
  constructor; [simpl; lia|].
  eapply Forall_impl; [|exact Hall]. intros e He. simpl in He. lia.
Qed.

Lemma sortPoints_indices points3D :
  Forall (fun e => (Simplified.index e < length points3D)%nat)
         (Simplified.sortPoints points3D) /\
  length (Simplified.sortPoints points3D) = length points3D.
Proof.
  unfold Simplified.sortPoints.
  destruct (indexFrom_indices points3D 0) as [Hall Hlen].
  pose proof (Array_sort_perm (fun a b => Simplified.distance a - Simplified.distance b)
                (Simplified.indexFrom 0 points3D)) as Hperm.
  split.
  - eapply Permutation_Forall; [exact Hperm|].
    eapply Forall_impl; [|exact Hall]. intros e He. simpl in He. lia.
  - rewrite <- (Permutation_length Hperm). exact Hlen.
Qed.

Section Layers.

Variable sortedPoints : list Simplified.Indexed.
Variable n : nat.
Variable layerSize : nat.

Hypothesis n_small : (Z.of_nat n < 4294967296)%Z.
Hypothesis indices_below :
  Forall (fun e => (Simplified.index e < n)%nat) sortedPoints.

Lemma index_valid i e :
  nth_error sortedPoints i = Some e -> (Simplified.ToUint32 (INR (Simplified.index e)) < n)%nat.
Proof.
  intros He. apply nth_error_In in He.
  rewrite Forall_forall in indices_below. specialize (indices_below e He).
  rewrite ToUint32_INR; lia.
Qed.

Lemma connect_valid faces i :
  (i < length sortedPoints)%nat ->
  validFaces n faces ->
  exists faces', Simplified.connect sortedPoints layerSize (Some faces) i = Some faces' /\
                 validFaces n faces'.
Proof.
  intros Hi [(k & Hk) Hall]. unfold Simplified.connect.
  destruct (nth_error sortedPoints i) as [current|] eqn:Hcur;
    [|apply nth_error_None in Hcur; lia].
  destruct (nth_error sortedPoints (i + 1)) as [r|] eqn:Hr; simpl;
    [|eexists; split; [reflexivity | split; eauto]].
  destruct (nth_error sortedPoints (i + layerSize)) as [d|] eqn:Hd; simpl;
    [|eexists; split; [reflexivity | split; eauto]].
  pose proof (index_valid _ _ Hcur). pose proof (index_valid _ _ Hr).
  pose proof (index_valid _ _ Hd).
  destruct (nth_error sortedPoints (i + layerSize + 1)) as [g|] eqn:Hg; simpl.
  - pose proof (index_valid _ _ Hg).
    eexists. split; [reflexivity|]. split.
    + exists (S (S k)). rewrite !length_app, Hk. simpl. lia.
    + repeat (apply Forall_app; split); trivial; repeat constructor; trivial.
  - eexists. split; [reflexivity|]. split.
    + exists (S k). rewrite !length_app, Hk. simpl. lia.
    + repeat (apply Forall_app; split); trivial; repeat constructor; trivial.
Qed.

Lemma connectLayer_valid faces layer :
  validFaces n faces ->
  exists faces', Simplified.connectLayer sortedPoints layerSize (Some faces) layer
                 = Some faces' /\ validFaces n faces'.
Proof.
  unfold Simplified.connectLayer.
  set (startIdx := (layer * layerSize * layerSize)%nat).
  set (endIdx := Nat.min ((layer + 1) * layerSize * layerSize) (length sortedPoints)).
  assert (Hend : (endIdx <= length sortedPoints)%nat) by (unfold endIdx; lia).
  assert (Hgen : forall len start faces,
            (start + len <= endIdx - layerSize - 1)%nat \/ len = 0%nat ->
            validFaces n faces ->
            exists faces',
              fold_left (Simplified.connect sortedPoints layerSize) (seq start len)
                        (Some faces) = Some faces' /\ validFaces n faces').
  { induction len as [|len IH]; intros start fs Hle Hfs; cbn [fold_left seq]; [eauto|].
    destruct Hle as [Hle|Hle]; [|discriminate].
    destruct (connect_valid fs start) as (fs1 & -> & Hfs1); [lia | exact Hfs|].
    apply IH; [left; lia | exact Hfs1]. }
  intros Hfs. apply Hgen; [lia | exact Hfs].
Qed.

Lemma connectLayers_valid : forall layers faces,
  validFaces n faces ->
  exists faces', fold_left (Simplified.connectLayer sortedPoints layerSize) layers
                           (Some faces) = Some faces' /\ validFaces n faces'.
Proof.
  induction layers as [|layer rest IH]; intros faces Hfs; cbn [fold_left]; [eauto|].
  destruct (connectLayer_valid faces layer Hfs) as (fs1 & -> & Hfs1).
  apply IH. exact Hfs1.
Qed.

End Layers.

Lemma connectRadially_valid n numRadialConnections :
  (Z.of_nat n < 4294967296)%Z ->
  numRadialConnections <= INR n / 10 ->
  forall fuel i faces,
  validFaces n faces ->
  validFaces n (Simplified.connectRadially fuel i n numRadialConnections faces).
Proof.
  intros Hn Hnrc. induction fuel as [|fuel IH]; intros i faces Hfs; simpl; [exact Hfs|].
  destruct (JS.ltb (INR i) numRadialConnections) eqn:Hi; [|exact Hfs].
  apply ltb_true_iff in Hi. apply IH.
  destruct (JS.ltb _ (INR n)); [|exact Hfs].
  destruct Hfs as [(k & Hk) Hall].
  pose proof (pos_INR i) as Hi0.
  assert (Hpos : 0 < INR n) by lra.
  assert (Hcenter : (Simplified.ToUint32 0 < n)%nat).
  { apply ToUint32_below; [exact Hn | lra]. }
  assert (Hthis : (Simplified.ToUint32 (INR i) < n)%nat).
  { apply ToUint32_below; [exact Hn | lra]. }
  assert (Hnext : (Simplified.ToUint32
                     (Simplified.remainder (INR (i + 1)) numRadialConnections) < n)%nat).
  { apply ToUint32_below; [exact Hn|].
    pose proof (remainder_bounds (INR (i + 1)) numRadialConnections (pos_INR _)) as Hr.
    specialize (Hr ltac:(lra)). lra. }
  split.
  - exists (S k). rewrite length_app, Hk. simpl. lia.
  - apply Forall_app. split; [exact Hall|]. repeat constructor; trivial.
Qed.

Lemma generateDelaunayTriangulation_valid points3D :
  (Z.of_nat (length points3D) < 4294967296)%Z ->
  exists faces,
    Simplified.generateDelaunayTriangulation points3D = Some faces /\
    (exists k, length faces = (3 * k)%nat) /\
    Forall (fun index => (index < length points3D)%nat) faces.
Proof.
  intros Hn. unfold Simplified.generateDelaunayTriangulation.
  destruct (sortPoints_indices points3D) as [Hindices _].
  destruct (connectLayers_valid (Simplified.sortPoints points3D) (length points3D)
              (Z.to_nat (Zfloor (JS.sqrt (INR (length points3D) / 4)))) Hn Hindices
              [0; 1; 2; 3]%nat [])
    as (faces & -> & Hfaces).
  { split; [exists 0%nat; reflexivity | constructor]. }
  eexists. split; [reflexivity|].
  destruct (connectRadially_valid (length points3D)
              (Rmin 100 (INR (length points3D) / 10)) Hn (Rmin_r _ _) 100 1 faces Hfaces)
    as [(k & Hk) Hall].
  split.
  - exists k. rewrite length_map. exact Hk.
  - apply Forall_map. exact Hall.
Qed.

(** X19.  [generateMesh] does not throw on fewer than 2^32 points.  The
    vertex and colour buffers of its model hold three numbers per point,
    the faces are the index of the geometry, there are three indices per
    face and every index refers to one of the points; the model records
    the number of source images. *)
Theorem simplified_mesh_indexes_its_points points3D sourceImageCount :
  (Z.of_nat (length points3D) < 4294967296)%Z ->
  exists model,
    Simplified.generateMesh points3D sourceImageCount = Some model /\
    length (Simplified.vertices model) = (3 * length points3D)%nat /\
    THREE.position (Simplified.geometry model) = Simplified.vertices model /\
    (exists colors, THREE.color (Simplified.geometry model) = Some colors /\
                    length colors = (3 * length points3D)%nat) /\
    THREE.index (Simplified.geometry model) = Some (Simplified.faces model) /\
    (exists k, length (Simplified.faces model) = (3 * k)%nat) /\
    Forall (fun index => (index < length points3D)%nat) (Simplified.faces model) /\
    Simplified.sourceImageCount model = Some sourceImageCount.
Proof.
  intros Hn. unfold Simplified.generateMesh.
  destruct (generateDelaunayTriangulation_valid points3D Hn) as (faces & -> & Hk & Hall).
  eexists. split; [reflexivity|]. simpl.
  repeat split; trivial.
  - apply flat_map_length_3. reflexivity.
  - eexists. split; [reflexivity|]. apply flat_map_length_3. reflexivity.
Qed.

Lemma simplified_mesh_witness :
  exists model,
    Simplified.generateMesh [greyPoint 0 0 0; greyPoint 1 0 0; greyPoint 0 1 0] 2
    = Some model /\
    length (Simplified.vertices model)
    = (3 * length [greyPoint 0 0 0; greyPoint 1 0 0; greyPoint 0 1 0])%nat /\
    THREE.position (Simplified.geometry model) = Simplified.vertices model /\
    (exists colors, THREE.color (Simplified.geometry model) = Some colors /\
                    length colors
                    = (3 * length [greyPoint 0 0 0; greyPoint 1 0 0; greyPoint 0 1 0])%nat) /\
    THREE.index (Simplified.geometry model) = Some (Simplified.faces model) /\
    (exists k, length (Simplified.faces model) = (3 * k)%nat) /\
    Forall (fun index =>
              (index < length [greyPoint 0 0 0; greyPoint 1 0 0; greyPoint 0 1 0])%nat)
           (Simplified.faces model) /\
    Simplified.sourceImageCount model = Some 2%nat.
Proof.
  apply (simplified_mesh_indexes_its_points
           [greyPoint 0 0 0; greyPoint 1 0 0; greyPoint 0 1 0] 2).
  simpl. lia.
Defined.

(** The loop of the radial connections has ended when its fuel is
    used up: more fuel gives the same faces. *)
Lemma connectRadially_fuel n numRadialConnections :
  numRadialConnections <= 100 ->
  forall fuel i faces more,
  (100 <= i + fuel)%nat ->
  Simplified.connectRadially (fuel + more) i n numRadialConnections faces
  = Simplified.connectRadially fuel i n numRadialConnections faces.
Proof.
  intros Hnrc. induction fuel as [|fuel IH]; intros i faces more Hi; simpl.
  - destruct more as [|more]; simpl; [reflexivity|].
    replace (JS.ltb (INR i) numRadialConnections) with false; [reflexivity|].
    symmetry. apply ltb_false_iff.
    assert (100 <= INR i); [|lra].
    replace 100 with (INR 100) by (simpl; lra). apply le_INR. lia.
  - destruct (JS.ltb (INR i) numRadialConnections); [|reflexivity].
    apply IH. lia.
Qed.

(** ** The export *)

Lemma writeVertices_returns toFixed6 : forall n vertices objContent,
  length vertices = (3 * n)%nat ->
  exists text, writeVertices toFixed6 vertices objContent = Returns text.
Proof.
  induction n as [|n IH]; intros vertices objContent Hlen.
  - destruct vertices; [simpl; eauto | discriminate].
  - destruct vertices as [|x [|y [|z rest]]]; try (simpl in Hlen; lia).
    simpl. apply IH. simpl in Hlen. lia.
Qed.

Lemma writeVertices_throws toFixed6 : forall n vertices objContent,
  (length vertices <= 3 * n)%nat ->
  (forall k, length vertices <> (3 * k)%nat) ->
  exists e, writeVertices toFixed6 vertices objContent = Throws e.
Proof.
  induction n as [|n IH]; intros vertices objContent Hle Hnot.
  - destruct vertices; [exfalso; apply (Hnot 0%nat); reflexivity | simpl in Hle; lia].
  - destruct vertices as [|x [|y [|z rest]]].
    + exfalso. apply (Hnot 0%nat). reflexivity.
    + simpl. eauto.
    + simpl. eauto.
    + simpl. apply IH; [simpl in Hle; lia|].
      intros k Hk. apply (Hnot (S k)). simpl. lia.
Qed.

(** X20.  [exportToOBJ] returns the text of the model exactly when the
    vertex buffer holds a multiple of three numbers, and throws
    otherwise; whatever the face buffer holds does not make it throw. *)
Theorem obj_export_returns_iff_whole_vertices toFixed6 model :
  (exists text, exportToOBJ toFixed6 model = Returns text) <->
  (exists n, length (vertices model) = (3 * n)%nat).
Proof.
  unfold exportToOBJ. split.
  - intros (text & Htext).
    destruct (Nat.eq_dec (length (vertices model) mod 3) 0) as [Hmod|Hmod].
    + exists (length (vertices model) / 3)%nat.
      pose proof (Nat.div_mod_eq (length (vertices model)) 3). lia.
    + exfalso.
      destruct (writeVertices_throws toFixed6 (length (vertices model)) (vertices model)
                  ("# Vision3D Generated Model" ++ newline
                   ++ "# Created by Vision3D Photogrammetry" ++ newline ++ newline
                   ++ "# Vertices" ++ newline)%string) as (e & He).
      * lia.
      * intros k Hk. apply Hmod. rewrite Hk, Nat.mul_comm. apply Nat.Div0.mod_mul.
      * simpl in Htext, He. rewrite He in Htext. discriminate.
  - intros (n & Hn).
    destruct (writeVertices_returns toFixed6 n (vertices model)
                ("# Vision3D Generated Model" ++ newline
                 ++ "# Created by Vision3D Photogrammetry" ++ newline ++ newline
                 ++ "# Vertices" ++ newline)%string Hn) as (text & Htext).
    simpl in Htext |- *. rewrite Htext. eauto.
Qed.

Lemma generateModel_renderable env fuel processedImages w m w' :
  generateModel env fuel processedImages w = Some (Returns m, w') -> renderable m.
Proof.
  unfold generateModel. destruct (waitForOpenCV env fuel 0); [|discriminate].
  intros H. inversion H as [Hrun]; clear H.
  apply try_catch_inv in Hrun.
  destruct Hrun as [(m' & Hrun & Hr) | (e & w1 & _ & Hh)].
  - inversion Hr; subst m'. apply runPipeline_returns in Hrun.
    destruct Hrun as [-> | (points3D & _ & ->)].
    + apply createEmptyModel_renderable.
    + apply generateMeshFromPointCloud_renderable.
  - apply ret_inv in Hh. destruct Hh as [Hr _]. inversion Hr.
    apply createEmptyModel_renderable.
Qed.

(** X21.  The model that [generateModel] returns can always be exported:
    [exportToOBJ] returns a text for it. *)
Theorem pipeline_model_exports_to_obj toFixed6 env fuel processedImages w m w' :
  generateModel env fuel processedImages w = Some (Returns m, w') ->
  exists text, exportToOBJ toFixed6 m = Returns text.
Proof.
  intros Hrun. apply generateModel_renderable in Hrun.
  destruct Hrun as [(n & _ & Hn) _].
  unfold exportToOBJ.
  destruct (writeVertices_returns toFixed6 n (vertices m)
              ("# Vision3D Generated Model" ++ newline
               ++ "# Created by Vision3D Photogrammetry" ++ newline ++ newline
               ++ "# Vertices" ++ newline)%string Hn) as (text & Htext).
  simpl in Htext |- *. rewrite Htext. eauto.
Qed.

Lemma pipeline_model_exports_witness :
  exists text,
    exportToOBJ (fun _ => "0.000000"%string) (generateMeshFromPointCloud [samplePoint])
    = Returns text.
Proof.
  exact (pipeline_model_exports_to_obj (fun _ => "0.000000"%string) cloudEnv 0 twoImages
           emptyWorld _ _ top_run_cloud).
Defined.

(** ** Descriptors *)

Lemma reduceSquares_from descriptor : forall start,
  fold_left (fun sum val =>
               match sum, val with
               | Some sum, Some val => Some (sum + val * val)
               | _, _ => None
               end) descriptor (Some start)
  = match fold_left (fun sum val =>
                       match sum, val with
                       | Some sum, Some val => Some (sum + val * val)
                       | _, _ => None
                       end) descriptor (Some 0) with
    | Some sum => Some (start + sum)
    | None => None
    end.
Proof.
  induction descriptor as [|val rest IH]; intros start; simpl.
  - f_equal. ring.
  - destruct val as [val|].
    + rewrite IH. rewrite (IH (0 + val * val)).
      destruct (fold_left _ rest (Some 0)); [f_equal; ring | reflexivity].
    + clear IH. induction rest as [|v rest IH]; simpl; [reflexivity | exact IH].
Qed.

Lemma reduceSquares_defined descriptor sum :
  Simplified.reduceSquares descriptor = Some sum ->
  exists values,
    descriptor = map Some values /\ sum = squaredNorm values.
Proof.
  unfold Simplified.reduceSquares. revert sum.
  induction descriptor as [|val rest IH]; intros sum; simpl.
  - intros H. inversion H. exists []. auto.
  - destruct val as [val|].
    + rewrite reduceSquares_from.
      destruct (fold_left _ rest (Some 0)) as [s|] eqn:Hrest; [|discriminate].
      intros H. inversion H; subst sum.
      destruct (IH s eq_refl) as (values & -> & ->).
      exists (val :: values). simpl. split; [reflexivity | ring].
    + intros H. exfalso. clear IH. revert H.
      induction rest as [|v rest IH]; simpl; [discriminate | exact IH].
Qed.

Lemma squaredNorm_nonneg values : 0 <= squaredNorm values.
Proof. induction values as [|v rest IH]; simpl; [lra | nra]. Qed.

Lemma squaredNorm_scaled values m :
  m <> 0 ->
  squaredNorm (map (fun val => val / m) values) = squaredNorm values / (m * m).
Proof.
  intros Hm. induction values as [|v rest IH]; simpl; [field; trivial|].
  rewrite IH. field. trivial.
Qed.

Lemma patch_length gray x y width height :
  length (Simplified.patch gray x y width height) = 81%nat.
Proof. reflexivity. Qed.

(** X22.  [computeDescriptor] returns 81 numbers, and they form a unit
    vector or the zero vector: the sum of their squares is 1 or each of
    them is 0. *)
Theorem descriptor_is_unit_or_zero gray x y width height :
  length (Simplified.computeDescriptor gray x y width height) = 81%nat /\
  (squaredNorm (Simplified.computeDescriptor gray x y width height) = 1 \/
   Forall (fun val => val = 0) (Simplified.computeDescriptor gray x y width height)).
Proof.
  unfold Simplified.computeDescriptor.
  pose proof (patch_length gray x y width height) as Hlen.
  destruct (Simplified.reduceSquares (Simplified.patch gray x y width height)) as [sum|] eqn:Hsum.
  - apply reduceSquares_defined in Hsum. destruct Hsum as (values & Hvalues & ->).
    rewrite Hvalues in *. rewrite length_map in *. rewrite map_map.
    split; [rewrite length_map; exact Hlen|].
    destruct (JS.gtb (JS.sqrt (squaredNorm values)) 0) eqn:Hpos.
    + left. apply gtb_true_iff in Hpos. unfold JS.sqrt in *.
      rewrite squaredNorm_scaled by lra.
      rewrite sqrt_sqrt by apply squaredNorm_nonneg.
      apply Rinv_r. intros Hz. rewrite Hz, sqrt_0 in Hpos. lra.
    + right. apply Forall_forall. intros val Hin. apply in_map_iff in Hin.
      destruct Hin as (v & <- & _). reflexivity.
  - split; [rewrite length_map; exact Hlen|].
    right. apply Forall_forall. intros val Hin. apply in_map_iff in Hin.
    destruct Hin as (v & <- & _). reflexivity.
Qed.

(** * The earlier version of the simplified pipeline *)

Lemma fold_triangulateMatch cameraPoses : forall matches points3D,
  exists fromMatches,
    fold_left (Earlier.triangulateMatch cameraPoses) matches points3D
    = points3D ++ fromMatches /\
    (length fromMatches <= length matches)%nat /\
    Forall (midpointOf cameraPoses) fromMatches /\
    (Forall (fun m => (Simplified.image1Index m < length cameraPoses)%nat /\
                      (Simplified.image2Index m < length cameraPoses)%nat) matches ->
     length fromMatches = length matches).
Proof.
  induction matches as [|m rest IH]; intros points3D; simpl.
  - exists []. rewrite app_nil_r. repeat split; auto.
  - unfold Earlier.triangulateMatch at 2.
    destruct (nth_error cameraPoses (Simplified.image1Index m)) as [pose1|] eqn:H1.
    + destruct (nth_error cameraPoses (Simplified.image2Index m)) as [pose2|] eqn:H2.
      * simpl.
        destruct (IH (points3D ++ [Simplified.mkPoint3D
                       (Vector3_multiplyScalar
                          (THREE.add (Simplified.position pose1) (Simplified.position pose2))
                          0.5) (THREE.mkColor 0.7 0.7 0.7) 0.8]))
          as (more & -> & Hlen & Hall & Hfull).
        eexists (_ :: more). rewrite <- app_assoc. split; [reflexivity|].
        repeat split.
        -- simpl. lia.
        -- constructor; [|exact Hall].
           exists pose1, pose2. simpl. repeat split; eauto using nth_error_In.
        -- intros Hidx. inversion Hidx; subst. simpl. rewrite Hfull; trivial.
      * destruct (IH points3D) as (more & -> & Hlen & Hall & Hfull).
        exists more. repeat split; trivial; [lia|].
        intros Hidx. inversion Hidx as [|? ? [_ Hlt] ?]; subst.
        apply nth_error_None in H2. lia.
    + destruct (IH points3D) as (more & -> & Hlen & Hall & Hfull).
      exists more. repeat split; trivial; [lia|].
      intros Hidx. inversion Hidx as [|? ? [Hlt _] ?]; subst.
      apply nth_error_None in H1. lia.
Qed.

Lemma additionalPoint_returns env w r w' :
  unitRandom env ->
  Earlier.additionalPoint env w = (r, w') ->
  exists p, r = Returns p /\ additionalBoxPoint p /\
            draws w' = (draws w + 7)%nat /\ calls w' = calls w.
Proof.
  intros Hunit Hrun. unfold Earlier.additionalPoint in Hrun.
  apply bind_inv in Hrun. destruct Hrun as [(r1 & w1 & H1 & Hrun) | (e & H1 & _)];
    apply random_inv in H1; destruct H1 as [H1 ->]; [|discriminate].
  apply bind_inv in Hrun. destruct Hrun as [(r2 & w2 & H2 & Hrun) | (e & H2 & _)];
    apply random_inv in H2; destruct H2 as [H2 ->]; [|discriminate].
  apply bind_inv in Hrun. destruct Hrun as [(r3 & w3 & H3 & Hrun) | (e & H3 & _)];
    apply random_inv in H3; destruct H3 as [H3 ->]; [|discriminate].
  apply bind_inv in Hrun. destruct Hrun as [(r4 & w4 & H4 & Hrun) | (e & H4 & _)];
    apply random_inv in H4; destruct H4 as [H4 ->]; [|discriminate].
  apply bind_inv in Hrun. destruct Hrun as [(r5 & w5 & H5 & Hrun) | (e & H5 & _)];
    apply random_inv in H5; destruct H5 as [H5 ->]; [|discriminate].
  apply bind_inv in Hrun. destruct Hrun as [(r6 & w6 & H6 & Hrun) | (e & H6 & _)];
    apply random_inv in H6; destruct H6 as [H6 ->]; [|discriminate].
  apply bind_inv in Hrun. destruct Hrun as [(r7 & w7 & H7 & Hrun) | (e & H7 & _)];
    apply random_inv in H7; destruct H7 as [H7 ->]; [|discriminate].
  apply ret_inv in Hrun. destruct Hrun as [-> ->].
  inversion H1; inversion H2; inversion H3; inversion H4; inversion H5; inversion H6;
    inversion H7; subst. cbn [draws calls].
  eexists. split; [reflexivity|].
  pose proof (Hunit (draws w)). pose proof (Hunit (S (draws w))).
  pose proof (Hunit (S (S (draws w)))). pose proof (Hunit (S (S (S (draws w))))).
  pose proof (Hunit (S (S (S (S (draws w)))))).
  pose proof (Hunit (S (S (S (S (S (draws w))))))).
  pose proof (Hunit (S (S (S (S (S (S (draws w)))))))).
  unfold additionalBoxPoint. simpl. repeat split; try lra. lia.
Qed.

Lemma triangulatePoints_eq env imageFeatures matches cameraPoses :
  Earlier.triangulatePoints env imageFeatures matches cameraPoses
  = Simplified.pushTimes 2000 (Earlier.additionalPoint env)
      (fold_left (Earlier.triangulateMatch cameraPoses) matches []).
Proof. reflexivity. Qed.

(** X23.  The earlier [triangulatePoints] returns one point for each
    match whose two images have a camera pose, in the order of the
    matches, each the middle of two camera positions with the colour
    (0.7, 0.7, 0.7) and the confidence 0.8, followed by exactly 2000
    additional points made from seven random numbers each, inside the box
    of sides 4, 2 and 4 about the origin. *)
Theorem earlier_cloud_is_midpoints_and_2000_random_points
  env imageFeatures matches cameraPoses w r w' :
  unitRandom env ->
  Earlier.triangulatePoints env imageFeatures matches cameraPoses w = (r, w') ->
  exists fromMatches additional,
    r = Returns (fromMatches ++ additional) /\
    (length fromMatches <= length matches)%nat /\
    (Forall (fun m => (Simplified.image1Index m < length cameraPoses)%nat /\
                      (Simplified.image2Index m < length cameraPoses)%nat) matches ->
     length fromMatches = length matches) /\
    Forall (midpointOf cameraPoses) fromMatches /\
    length additional = 2000%nat /\
    Forall additionalBoxPoint additional /\
    draws w' = (draws w + 7 * 2000)%nat.
Proof.
  intros Hunit Hrun. rewrite triangulatePoints_eq in Hrun.
  destruct (fold_triangulateMatch cameraPoses matches [])
    as (fromMatches & Hfold & Hlen & Hall & Hfull).
  rewrite Hfold, app_nil_l in Hrun.
  destruct (pushTimes_returns (Earlier.additionalPoint env) additionalBoxPoint 7
              (fun w0 r0 w0' H => additionalPoint_returns env w0 r0 w0' Hunit H)
              2000 fromMatches w r w' Hrun) as (additional & Hr & Hlen' & Hall' & Hd & _).
  exists fromMatches, additional.
  split; [exact Hr|]. split; [exact Hlen|]. split; [exact Hfull|]. split; [exact Hall|].
  split; [exact Hlen'|]. split; [exact Hall'|]. exact Hd.
Qed.

Lemma earlier_cloud_witness :
  exists fromMatches additional,
    fst (Earlier.triangulatePoints sampleEnv [oneFeatureImage 0; oneFeatureImage 1]
           [Simplified.mkMatchedFeature cornerFeature cornerFeature 0 1 1]
           (Simplified.estimateCameraPoses [oneFeatureImage 0; oneFeatureImage 1] [])
           emptyWorld)
    = Returns (fromMatches ++ additional) /\
    (length fromMatches
     <= length [Simplified.mkMatchedFeature cornerFeature cornerFeature 0 1 1])%nat /\
    (Forall (fun m =>
               (Simplified.image1Index m
                < length (Simplified.estimateCameraPoses
                            [oneFeatureImage 0; oneFeatureImage 1] []))%nat /\
               (Simplified.image2Index m
                < length (Simplified.estimateCameraPoses
                            [oneFeatureImage 0; oneFeatureImage 1] []))%nat)
            [Simplified.mkMatchedFeature cornerFeature cornerFeature 0 1 1] ->
     length fromMatches
     = length [Simplified.mkMatchedFeature cornerFeature cornerFeature 0 1 1]) /\
    Forall (midpointOf (Simplified.estimateCameraPoses
                          [oneFeatureImage 0; oneFeatureImage 1] [])) fromMatches /\
    length additional = 2000%nat /\
    Forall additionalBoxPoint additional /\
    draws (snd (Earlier.triangulatePoints sampleEnv [oneFeatureImage 0; oneFeatureImage 1]
                  [Simplified.mkMatchedFeature cornerFeature cornerFeature 0 1 1]
                  (Simplified.estimateCameraPoses [oneFeatureImage 0; oneFeatureImage 1] [])
                  emptyWorld))
    = (draws emptyWorld + 7 * 2000)%nat.
Proof.
  exact (earlier_cloud_is_midpoints_and_2000_random_points sampleEnv
           [oneFeatureImage 0; oneFeatureImage 1]
           [Simplified.mkMatchedFeature cornerFeature cornerFeature 0 1 1]
           (Simplified.estimateCameraPoses [oneFeatureImage 0; oneFeatureImage 1] [])
           emptyWorld _ _ sampleEnv_unitRandom (surjective_pairing _)).
Defined.

Lemma matchFeatures_indices imageFeatures :
  Forall (fun m => (Simplified.image1Index m < length imageFeatures)%nat /\
                   (Simplified.image2Index m < length imageFeatures)%nat)
         (Simplified.matchFeatures imageFeatures).
Proof.
  apply Forall_forall. intros mf Hin. unfold Simplified.matchFeatures in Hin.
  apply firstn_incl in Hin.
  apply (Permutation_in _ (Permutation_sym (Array_sort_perm _ _))) in Hin.
  pose proof (matchFrom_nearest imageFeatures imageFeatures 0 [] (fun k => eq_refl)
                (Forall_nil _)) as Hall.
  rewrite Forall_forall in Hall.
  destruct (Hall mf Hin) as (_ & fi & fj & _ & _ & H1 & H2 & _).
  split; apply nth_error_Some; congruence.
Qed.

(** X24.  In the earlier pipeline the matcher, the pose estimation and
    the triangulation fit together: every correspondence of
    [matchFeatures] has a camera pose for both of its images, so the
    cloud has one point per correspondence and 2000 more, between 2000
    and 3000 points. *)
Theorem earlier_pipeline_triangulates_every_match env imageFeatures w r w' :
  unitRandom env ->
  Earlier.triangulatePoints env imageFeatures (Simplified.matchFeatures imageFeatures)
    (Simplified.estimateCameraPoses imageFeatures (Simplified.matchFeatures imageFeatures)) w
  = (r, w') ->
  exists points3D,
    r = Returns points3D /\
    length points3D = (length (Simplified.matchFeatures imageFeatures) + 2000)%nat /\
    (2000 <= length points3D <= 3000)%nat.
Proof.
  intros Hunit Hrun. rewrite triangulatePoints_eq in Hrun.
  set (matches := Simplified.matchFeatures imageFeatures) in *.
  set (cameraPoses := Simplified.estimateCameraPoses imageFeatures matches) in *.
  destruct (fold_triangulateMatch cameraPoses matches [])
    as (fromMatches & Hfold & _ & _ & Hfull).
  rewrite Hfold, app_nil_l in Hrun.
  destruct (pushTimes_returns (Earlier.additionalPoint env) additionalBoxPoint 7
              (fun w0 r0 w0' H => additionalPoint_returns env w0 r0 w0' Hunit H)
              2000 fromMatches w r w' Hrun) as (additional & Hr & Hlen & _).
  assert (Hposes : (length imageFeatures <= length cameraPoses)%nat).
  { unfold cameraPoses, Simplified.estimateCameraPoses. cbn [length].
    rewrite length_map, length_seq. lia. }
  assert (Hall : length fromMatches = length matches).
  { apply Hfull. eapply Forall_impl; [|apply matchFeatures_indices].
    intros m [H1 H2]. cbv beta. lia. }
  assert (Hcap : (length matches <= 1000)%nat).
  { unfold matches, Simplified.matchFeatures. rewrite length_firstn. lia. }
  exists (fromMatches ++ additional). rewrite length_app, Hall, Hlen.
  split; [exact Hr|]. split; [reflexivity|]. lia.
Qed.

Lemma earlier_pipeline_witness :
  exists points3D,
    fst (Earlier.triangulatePoints sampleEnv [oneFeatureImage 0; oneFeatureImage 1]
           (Simplified.matchFeatures [oneFeatureImage 0; oneFeatureImage 1])
           (Simplified.estimateCameraPoses [oneFeatureImage 0; oneFeatureImage 1]
              (Simplified.matchFeatures [oneFeatureImage 0; oneFeatureImage 1]))
           emptyWorld) = Returns points3D /\
    length points3D
    = (length (Simplified.matchFeatures [oneFeatureImage 0; oneFeatureImage 1]) + 2000)%nat /\
    (2000 <= length points3D <= 3000)%nat.
Proof.
  exact (earlier_pipeline_triangulates_every_match sampleEnv
           [oneFeatureImage 0; oneFeatureImage 1] emptyWorld _ _
           sampleEnv_unitRandom (surjective_pairing _)).
Defined.

(** ** The earlier mesh *)

Lemma consecutiveFaces_below n : forall fuel i faces,
  indicesBelow n faces -> indicesBelow n (Earlier.consecutiveFaces fuel i n faces).
Proof.
  induction fuel as [|fuel IH]; intros i faces Hfs; simpl; [exact Hfs|].
  destruct (Z.ltb_spec (Z.of_nat i) (Z.of_nat n - 2)) as [Hlt|_]; [|exact Hfs].
  apply IH. destruct Hfs as [(k & Hk) Hall]. split.
  - exists (S k). rewrite length_app, Hk. simpl. lia.
  - apply Forall_app. split; [exact Hall|]. repeat constructor; lia.
Qed.

(** The first loop has ended when its fuel is used up. *)
Lemma consecutiveFaces_fuel n : forall fuel i faces more,
  (n <= i + 3 * fuel)%nat ->
  Earlier.consecutiveFaces (fuel + more) i n faces = Earlier.consecutiveFaces fuel i n faces.
Proof.
  induction fuel as [|fuel IH]; intros i faces more Hi; simpl.
  - destruct more as [|more]; simpl; [reflexivity|].
    destruct (Z.ltb_spec (Z.of_nat i) (Z.of_nat n - 2)); [lia | reflexivity].
  - destruct (Z.of_nat i <? Z.of_nat n - 2)%Z; [|reflexivity]. apply IH. lia.
Qed.

Lemma randomIndex_below env n w r w' :
  unitRandom env -> (0 < n)%nat ->
  Earlier.randomIndex env n w = (r, w') ->
  exists a, r = Returns a /\ (0 <= a < Z.of_nat n)%Z /\
            draws w' = S (draws w) /\ calls w' = calls w.
Proof.
  intros Hunit Hn Hrun. unfold Earlier.randomIndex in Hrun.
  apply bind_inv in Hrun. destruct Hrun as [(r1 & w1 & H1 & Hrun) | (e & H1 & _)];
    apply random_inv in H1; destruct H1 as [H1 ->]; [|discriminate].
  apply ret_inv in Hrun. destruct Hrun as [-> ->]. inversion H1; subst r1.
  eexists. split; [reflexivity|]. cbn [draws calls]. repeat split.
  - apply Zfloor_lub. simpl. pose proof (Hunit (draws w)). pose proof (pos_INR n).
    apply Rmult_le_pos; lra.
  - apply lt_IZR. rewrite <- INR_IZR_INZ.
    pose proof (Zfloor_bound (Math_random env (draws w) * INR n)) as [Hlo _].
    pose proof (Hunit (draws w)) as Hr. apply (lt_INR 0) in Hn. simpl INR in Hn. nra.
Qed.

Lemma additionalFaces_below env pointCount :
  unitRandom env -> (0 < pointCount)%nat ->
  forall n faces w r w',
  Earlier.additionalFaces env n pointCount faces w = (r, w') ->
  indicesBelow pointCount faces ->
  exists faces', r = Returns faces' /\ indicesBelow pointCount faces' /\
                 draws w' = (draws w + 3 * n)%nat.
Proof.
  intros Hunit Hpos. induction n as [|n IH]; simpl; intros faces w r w' Hrun Hfs.
  - apply ret_inv in Hrun. destruct Hrun as [-> ->]. exists faces.
    split; [reflexivity|]. split; [exact Hfs | lia].
  - apply bind_inv in Hrun. destruct Hrun as [(a & w1 & Ha & Hrun) | (e & Ha & _)];
      destruct (randomIndex_below env pointCount _ _ _ Hunit Hpos Ha)
        as (a' & Hra & Hbound_a & Hda & _); [|discriminate].
    inversion Hra; subst a'.
    apply bind_inv in Hrun. destruct Hrun as [(b & w2 & Hb & Hrun) | (e & Hb & _)];
      destruct (randomIndex_below env pointCount _ _ _ Hunit Hpos Hb)
        as (b' & Hrb & Hbound_b & Hdb & _); [|discriminate].
    inversion Hrb; subst b'.
    apply bind_inv in Hrun. destruct Hrun as [(c & w3 & Hc & Hrun) | (e & Hc & _)];
      destruct (randomIndex_below env pointCount _ _ _ Hunit Hpos Hc)
        as (c' & Hrc & Hbound_c & Hdc & _); [|discriminate].
    inversion Hrc; subst c'.
    apply IH in Hrun.
    + destruct Hrun as (faces' & -> & Hfs' & Hd). exists faces'.
      split; [reflexivity|]. split; [exact Hfs' | lia].
    + destruct (negb (a =? b)%Z && negb (b =? c)%Z && negb (a =? c)%Z); [|exact Hfs].
      destruct Hfs as [(k & Hk) Hall]. split.
      * exists (S k). rewrite length_app, Hk. simpl. lia.
      * apply Forall_app. split; [exact Hall|]. repeat constructor; lia.
Qed.

(** The faces that the earlier [generateDelaunayTriangulation] returns
    and the random numbers it draws. *)
Lemma earlier_triangulation_returns env points3D w r w' :
  unitRandom env ->
  (Z.of_nat (length points3D) < 4294967296)%Z ->
  Earlier.generateDelaunayTriangulation env points3D w = (r, w') ->
  exists faces, r = Returns faces /\
    (exists k, length faces = (3 * k)%nat) /\
    Forall (fun index => (index < length points3D)%nat) faces /\
    draws w' = (draws w + 3 * Nat.min 1000 (length points3D / 2))%nat.
Proof.
  intros Hunit Hsmall H. unfold Earlier.generateDelaunayTriangulation in H.
  set (n := length points3D) in *.
  assert (Hfirst : indicesBelow n (Earlier.consecutiveFaces n 0 n [])).
  { apply consecutiveFaces_below. split; [exists 0%nat; reflexivity | constructor]. }
  apply bind_inv in H. destruct H as [(faces & w1 & Hadd & H) | (e & Hadd & _)].
  - apply ret_inv in H. destruct H as [-> ->].
    assert (Hres : indicesBelow n faces /\
                   draws w1 = (draws w + 3 * Nat.min 1000 (n / 2))%nat).
    { destruct (Nat.eq_dec n 0) as [Hz|Hnz].
      - rewrite Hz in Hadd. simpl in Hadd. apply ret_inv in Hadd.
        destruct Hadd as [Hr ->]. inversion Hr. rewrite Hz. simpl.
        split; [|lia]. split; [exists 0%nat; reflexivity | constructor].
      - destruct (additionalFaces_below env n Hunit ltac:(lia) _ _ _ _ _ Hadd Hfirst)
          as (faces' & Hr & Hfs & Hd). inversion Hr; subst faces'. auto. }
    destruct Hres as [[(k & Hk) Hall] Hd].
    eexists. split; [reflexivity|]. repeat split; trivial.
    + exists k. rewrite length_map. exact Hk.
    + apply Forall_map. eapply Forall_impl; [|exact Hall].
      intros a Ha. cbv beta in Ha. unfold Earlier.toUint32.
      rewrite Z.mod_small by lia. lia.
  - exfalso. destruct (Nat.eq_dec n 0) as [Hz|Hnz].
    + rewrite Hz in Hadd. simpl in Hadd. apply ret_inv in Hadd.
      destruct Hadd as [Hr _]. discriminate.
    + destruct (additionalFaces_below env n Hunit ltac:(lia) _ _ _ _ _ Hadd Hfirst)
        as (faces' & Hr & _). discriminate.
Qed.

(** X25.  On fewer than 2^32 points the earlier [generateMesh] returns
    a model whose vertex buffer holds three numbers per point and whose
    faces, the index of its geometry, hold three indices per face, each
    the index of one of the points.  The faces are those that
    [generateDelaunayTriangulation] returns when it is called, before
    [generateMesh] makes its geometry and its material; that call draws
    three random numbers for each of its min(1000, floor(n / 2))
    additional faces. *)
Theorem earlier_mesh_indexes_its_points env points3D sourceImageCount w r w' :
  unitRandom env ->
  (Z.of_nat (length points3D) < 4294967296)%Z ->
  Earlier.generateMesh env points3D sourceImageCount w = (r, w') ->
  exists model,
    r = Returns model /\
    length (Simplified.vertices model) = (3 * length points3D)%nat /\
    THREE.position (Simplified.geometry model) = Simplified.vertices model /\
    THREE.index (Simplified.geometry model) = Some (Simplified.faces model) /\
    (exists k, length (Simplified.faces model) = (3 * k)%nat) /\
    Forall (fun index => (index < length points3D)%nat) (Simplified.faces model) /\
    Simplified.sourceImageCount model = Some sourceImageCount /\
    exists w1,
      Earlier.generateDelaunayTriangulation env points3D w
      = (Returns (Simplified.faces model), w1) /\
      draws w1 = (draws w + 3 * Nat.min 1000 (length points3D / 2))%nat.
Proof.
  intros Hunit Hsmall Hrun. unfold Earlier.generateMesh in Hrun.
  apply bind_inv in Hrun.
  destruct Hrun as [(faces & w1 & Hdel & Hrun) | (e & Hdel & _)];
    destruct (earlier_triangulation_returns env points3D _ _ _ Hunit Hsmall Hdel)
      as (faces' & Hr & Hk & Hall & Hd); [|discriminate].
  inversion Hr; subst faces'.
  apply ret_inv in Hrun. destruct Hrun as [-> ->].
  eexists. split; [reflexivity|]. cbn [Simplified.vertices Simplified.geometry
    Simplified.faces Simplified.sourceImageCount THREE.position THREE.index].
  split; [apply flat_map_length_3; reflexivity|].
  split; [reflexivity|]. split; [reflexivity|]. split; [exact Hk|].
  split; [exact Hall|]. split; [reflexivity|].
  exists w1. split; [exact Hdel | exact Hd].
Qed.

Lemma earlier_mesh_witness :
  exists model,
    fst (Earlier.generateMesh sampleEnv [greyPoint 0 0 0; greyPoint 1 0 0; greyPoint 0 1 0] 2
           emptyWorld) = Returns model /\
    length (Simplified.vertices model)
    = (3 * length [greyPoint 0 0 0; greyPoint 1 0 0; greyPoint 0 1 0])%nat /\
    THREE.position (Simplified.geometry model) = Simplified.vertices model /\
    THREE.index (Simplified.geometry model) = Some (Simplified.faces model) /\
    (exists k, length (Simplified.faces model) = (3 * k)%nat) /\
    Forall (fun index =>
              (index < length [greyPoint 0 0 0; greyPoint 1 0 0; greyPoint 0 1 0])%nat)
           (Simplified.faces model) /\
    Simplified.sourceImageCount model = Some 2%nat /\
    exists w1,
      Earlier.generateDelaunayTriangulation sampleEnv
        [greyPoint 0 0 0; greyPoint 1 0 0; greyPoint 0 1 0] emptyWorld
      = (Returns (Simplified.faces model), w1) /\
      draws w1
      = (draws emptyWorld
         + 3 * Nat.min 1000 (length [greyPoint 0 0 0; greyPoint 1 0 0; greyPoint 0 1 0] / 2))%nat.
Proof.
  apply (earlier_mesh_indexes_its_points sampleEnv
           [greyPoint 0 0 0; greyPoint 1 0 0; greyPoint 0 1 0] 2 emptyWorld _
           (snd (Earlier.generateMesh sampleEnv
                   [greyPoint 0 0 0; greyPoint 1 0 0; greyPoint 0 1 0] 2 emptyWorld))
           sampleEnv_unitRandom).
  - simpl. lia.
  - apply surjective_pairing.
Defined.

(** * The OpenCV pipeline as a whole *)

Lemma robustFeatureMatching_cap env imageFeatures w matches w' :
  robustFeatureMatching env imageFeatures w = (Returns matches, w') ->
  forall a b, (pairCount matches a b <= 200)%nat.
Proof.
  unfold robustFeatureMatching. intros Hrun.
  apply bind_inv in Hrun. destruct Hrun as [(u & w1 & _ & Hrun) | (e & _ & He)];
    [|discriminate].
  apply matchFrom_cap in Hrun.
  - destruct Hrun as (matches' & Hr & Hcap). inversion Hr; subst matches'. exact Hcap.
  - constructor.
  - intros a' b'. unfold pairCount. simpl. lia.
Qed.

Lemma performTwoViewReconstruction_front env matches features1 features2 intrinsics
  w res w' :
  performTwoViewReconstruction env matches features1 features2 intrinsics w
  = (Returns res, w') ->
  Forall inFront (TwoViewResult.points3D res) /\
  (length (TwoViewResult.points3D res) <= length matches)%nat.
Proof.
  unfold performTwoViewReconstruction. intros Hrun.
  assert (Hfail : forall w0, ret twoViewFailure w0 = (Returns res, w') ->
            Forall inFront (TwoViewResult.points3D res) /\
            (length (TwoViewResult.points3D res) <= length matches)%nat).
  { intros w0 H. apply ret_inv in H. destruct H as [Hr _]. inversion Hr. simpl.
    split; [constructor | lia]. }
  apply try_catch_inv in Hrun.
  destruct Hrun as [(res' & Hrun & Hres) | (e & w1 & _ & Hh)]; [|eapply Hfail; eauto].
  inversion Hres; subst res'; clear Hres.
  apply bind_inv in Hrun. destruct Hrun as [(E & w1 & _ & Hrun) | (e & _ & He)];
    [|discriminate].
  destruct (cv.rows E =? 0)%nat; [eapply Hfail; eauto|].
  apply bind_inv in Hrun. destruct Hrun as [(pose & w2 & _ & Hrun) | (e & _ & He)];
    [|discriminate].
  destruct (cv.inlierCount pose <? 50)%Z; [eapply Hfail; eauto|].
  apply bind_inv in Hrun. destruct Hrun as [(pts & w3 & Hpts & Hrun) | (e & _ & He)];
    [|discriminate].
  apply ret_inv in Hrun. destruct Hrun as [Hr _]. inversion Hr; subst res. simpl.
  pose proof Hpts as Hcount.
  apply triangulatePointsOpenCV_validated in Hpts.
  destruct Hpts as (pts' & Hr' & Hall). inversion Hr'; subst pts'.
  apply triangulatePointsOpenCV_count in Hcount.
  destruct Hcount as (pts' & Hr'' & Hlen & _). inversion Hr''; subst pts'.
  split; [|lia].
  eapply Forall_impl; [|exact Hall]. intros p Hp. exact (proj1 Hp).
Qed.

Lemma performSfMReconstruction_front env imageFeatures matches intrinsics w rec w' :
  (forall a b, (pairCount matches a b <= 200)%nat) ->
  performSfMReconstruction env imageFeatures matches intrinsics w = (Returns rec, w') ->
  Forall inFront (points3D rec) /\ (length (points3D rec) <= 200)%nat.
Proof.
  intros Hcap. unfold performSfMReconstruction. intros Hrun.
  assert (Hfail : forall msg w0, ret (sfmFailure msg) w0 = (Returns rec, w') ->
            Forall inFront (points3D rec) /\ (length (points3D rec) <= 200)%nat).
  { intros msg w0 H. apply ret_inv in H. destruct H as [Hr _]. inversion Hr. simpl.
    split; [constructor | lia]. }
  destruct (length matches <? 50)%nat; [eapply Hfail; eauto|].
  apply try_catch_inv in Hrun.
  destruct Hrun as [(res & Hrun & Hres) | (e & w1 & _ & Hh)]; [|eapply Hfail; eauto].
  inversion Hres; subst res; clear Hres.
  destruct (findBestInitialPair matches) as [initPair|] eqn:Hbest;
    [|eapply Hfail; eauto].
  apply bind_inv in Hrun. destruct Hrun as [(two & w1 & Htwo & Hrun) | (e & _ & He)];
    [|discriminate].
  apply performTwoViewReconstruction_front in Htwo. destruct Htwo as [Hall Hlen].
  destruct (negb (TwoViewResult.success two)); [eapply Hfail; eauto|].
  apply ret_inv in Hrun. destruct Hrun as [Hr _]. inversion Hr. simpl.
  split; [exact Hall|].
  apply findBestInitialPair_some in Hbest. destruct Hbest as (m0 & _ & -> & _).
  simpl in Hlen. specialize (Hcap (image1Index m0) (image2Index m0)).
  unfold pairCount in Hcap. lia.
Qed.

(** X26.  The model that [generateModel] returns is the fallback box or
    a point cloud of at most 200 points (the correspondences of the one
    selected image pair), each of them in front of the first camera; its
    vertex buffer never holds more than 600 numbers. *)
Theorem pipeline_cloud_has_at_most_200_points_in_front env fuel processedImages w m w' :
  generateModel env fuel processedImages w = Some (Returns m, w') ->
  (length (vertices m) <= 600)%nat /\
  (m = createEmptyModel \/
   exists cloud,
     cloud <> [] /\ m = generateMeshFromPointCloud cloud /\
     (length cloud <= 200)%nat /\ Forall inFront cloud).
Proof.
  unfold generateModel. destruct (waitForOpenCV env fuel 0); [|discriminate].
  intros H. inversion H as [Hrun]; clear H.
  assert (Hbox : (length (vertices createEmptyModel) <= 600)%nat /\
                 (createEmptyModel = createEmptyModel \/
                  exists cloud,
                    cloud <> [] /\ createEmptyModel = generateMeshFromPointCloud cloud /\
                    (length cloud <= 200)%nat /\ Forall inFront cloud)).
  { split; [|left; reflexivity].
    destruct createEmptyModel_shape as (Hlen & _). rewrite Hlen. lia. }
  apply try_catch_inv in Hrun.
  destruct Hrun as [(m' & Hrun & Hr) | (e & w1 & _ & Hh)];
    [|apply ret_inv in Hh; destruct Hh as [Hr _]; inversion Hr; exact Hbox].
  inversion Hr; subst m'; clear Hr. unfold runPipeline in Hrun.
  apply bind_inv in Hrun. destruct Hrun as [(ifs & w1 & _ & Hrun) | (e & _ & He)];
    [|discriminate].
  apply bind_inv in Hrun. destruct Hrun as [(ms & w2 & Hms & Hrun) | (e & _ & He)];
    [|discriminate].
  apply bind_inv in Hrun. destruct Hrun as [([[K wd] ht] & w3 & _ & Hrun) | (e & _ & He)];
    [|discriminate].
  apply bind_inv in Hrun. destruct Hrun as [(rec & w4 & Hrec & Hrun) | (e & _ & He)];
    [|discriminate].
  apply (performSfMReconstruction_front _ _ _ _ _ _ _ (robustFeatureMatching_cap _ _ _ _ _ Hms))
    in Hrec.
  destruct Hrec as [Hall Hlen].
  destruct (negb (success rec)); apply ret_inv in Hrun; destruct Hrun as [Hr _];
    inversion Hr; [exact Hbox|].
  destruct (points3D rec) as [|p rest] eqn:Hpts; [exact Hbox|].
  destruct (generateMeshFromPointCloud_cloud (p :: rest)) as (Hv & _); [discriminate|].
  split.
  - rewrite Hv. lia.
  - right. exists (p :: rest). repeat split; trivial. discriminate.
Qed.

Lemma pipeline_cloud_witness :
  (length (vertices (generateMeshFromPointCloud [samplePoint])) <= 600)%nat /\
  (generateMeshFromPointCloud [samplePoint] = createEmptyModel \/
   exists cloud,
     cloud <> [] /\ generateMeshFromPointCloud [samplePoint] = generateMeshFromPointCloud cloud /\
     (length cloud <= 200)%nat /\ Forall inFront cloud).
Proof.
  exact (pipeline_cloud_has_at_most_200_points_in_front cloudEnv 0 twoImages emptyWorld
           _ _ top_run_cloud).
Defined.

Lemma extractORBFeatures_length env processedImages w imageFeatures w' :
  extractORBFeatures env processedImages w = (Returns imageFeatures, w') ->
  (length imageFeatures <= length processedImages)%nat.
Proof.
  unfold extractORBFeatures. intros Hrun.
  apply bind_inv in Hrun. destruct Hrun as [(u & w1 & _ & Hrun) | (e & _ & He)];
    [|discriminate].
  apply (extractFrom_invariant env processedImages) in Hrun;
    [| reflexivity | constructor | constructor].
  destruct Hrun as (out & Hr & _ & _ & Hlen). inversion Hr; subst out. simpl in Hlen. lia.
Qed.

Lemma robustFeatureMatching_single env imageFeatures w matches w' :
  (length imageFeatures <= 1)%nat ->
  robustFeatureMatching env imageFeatures w = (Returns matches, w') ->
  matches = [].
Proof.
  intros Hlen. unfold robustFeatureMatching. intros Hrun.
  apply bind_inv in Hrun. destruct Hrun as [(u & w1 & _ & Hrun) | (e & _ & He)];
    [|discriminate].
  destruct imageFeatures as [|fi [|fj rest]]; [| |simpl in Hlen; lia].
  - apply ret_inv in Hrun. destruct Hrun as [Hr _]. inversion Hr. reflexivity.
  - simpl in Hrun. apply bind_inv in Hrun.
    destruct Hrun as [(ms & w2 & H1 & Hrun) | (e & H1 & He)].
    + apply ret_inv in H1. destruct H1 as [H1 _]. inversion H1; subst ms.
      apply ret_inv in Hrun. destruct Hrun as [Hr _]. inversion Hr. reflexivity.
    + apply ret_inv in H1. destruct H1 as [H1 _]. discriminate.
Qed.

(** X27.  With fewer than two images there is no pair to match: whatever
    OpenCV answers, [generateModel] returns the fallback box. *)
Theorem fewer_than_two_images_give_the_fallback env fuel processedImages w m w' :
  (length processedImages <= 1)%nat ->
  generateModel env fuel processedImages w = Some (Returns m, w') ->
  m = createFallbackModel processedImages.
Proof.
  intros Hfew. unfold generateModel. destruct (waitForOpenCV env fuel 0); [|discriminate].
  intros H. inversion H as [Hrun]; clear H.
  apply try_catch_inv in Hrun.
  destruct Hrun as [(m' & Hrun & Hr) | (e & w1 & _ & Hh)];
    [|apply ret_inv in Hh; destruct Hh as [Hr _]; inversion Hr; reflexivity].
  inversion Hr; subst m'; clear Hr. unfold runPipeline in Hrun.
  apply bind_inv in Hrun. destruct Hrun as [(ifs & w1 & Hifs & Hrun) | (e & _ & He)];
    [|discriminate].
  apply extractORBFeatures_length in Hifs.
  apply bind_inv in Hrun. destruct Hrun as [(ms & w2 & Hms & Hrun) | (e & _ & He)];
    [|discriminate].
  apply robustFeatureMatching_single in Hms; [|lia]. subst ms.
  apply bind_inv in Hrun. destruct Hrun as [([[K wd] ht] & w3 & _ & Hrun) | (e & _ & He)];
    [|discriminate].
  apply bind_inv in Hrun. destruct Hrun as [(rec & w4 & Hrec & Hrun) | (e & _ & He)];
    [|discriminate].
  unfold performSfMReconstruction in Hrec. simpl in Hrec.
  apply ret_inv in Hrec. destruct Hrec as [Hr _]. inversion Hr; subst rec. simpl in Hrun.
  apply ret_inv in Hrun. destruct Hrun as [Hr' _]. inversion Hr'. reflexivity.
Qed.

Lemma run_on_one_image :
  generateModel sampleEnv 0 [sampleImage] emptyWorld
  = Some (Returns (createFallbackModel [sampleImage]),
          mkWorld [ORB_create; loadCall; detectAndCompute; BFMatcher; loadCall] 0).
Proof. reflexivity. Qed.

Lemma fewer_than_two_images_witness :
  createFallbackModel [sampleImage] = createFallbackModel [sampleImage].
Proof.
  exact (fewer_than_two_images_give_the_fallback sampleEnv 0 [sampleImage] emptyWorld _ _
           (Nat.le_refl 1) run_on_one_image).
Defined.

(** ** Waiting for OpenCV *)

(** X28.  [waitForOpenCV] has no timeout: [generateModel] is still
    pending after [fuel + 1] reads of [window.cvReady] exactly when each
    of these reads was false, whatever the images are; once a read is
    true the promise settles. *)
Theorem generateModel_pending_iff_opencv_never_ready env fuel processedImages w :
  generateModel env fuel processedImages w = None <-> neverReady env fuel.
Proof.
  unfold generateModel, neverReady.
  destruct (waitForOpenCV env fuel 0) as [[]|] eqn:Hwait.
  - split; [discriminate|]. intros H. exfalso.
    assert (Hnone : waitForOpenCV env fuel 0 = None).
    { apply (proj2 (waitForOpenCV_pending env fuel 0)). exact H. }
    congruence.
  - split; [|reflexivity]. intros _.
    exact (proj1 (waitForOpenCV_pending env fuel 0) Hwait).
Qed.

(** * The simplified pipeline as a whole *)

Lemma generateShapeBasedPointCloud_count env offsetHSL shapeBounds w r w' :
  unitRandom env ->
  Simplified.generateShapeBasedPointCloud env offsetHSL shapeBounds w = (r, w') ->
  exists cloud, r = Returns cloud /\ (500 <= length cloud <= 2000)%nat.
Proof.
  intros Hunit Hrun. destruct shapeBounds as [|s0 rest].
  - rewrite generateShapeBasedPointCloud_nil in Hrun.
    destruct (pushTimes_returns (Simplified.defaultPoint env) defaultShapePoint 3
                (fun w0 r0 w0' H => defaultPoint_returns env w0 r0 w0' Hunit H)
                800 [] w r w' Hrun) as (more & Hr & Hlen & _).
    exists more. split; [exact Hr|]. rewrite Hlen. lia.
  - unfold Simplified.generateShapeBasedPointCloud in Hrun.
    change (length (s0 :: rest) =? 0)%nat with false in Hrun. cbv iota zeta in Hrun.
    set (shapeBounds := s0 :: rest) in *.
    destruct (shapePoint_returns env offsetHSL shapeBounds
                (Rmax 0.5 (Simplified.average Simplified.objectWidth shapeBounds * 3))
                (Rmax 0.5 (Simplified.average Simplified.objectHeight shapeBounds * 3))
                (Rmax 0.5 (JS.sqrt (Simplified.average Simplified.density shapeBounds) * 2))
                (Simplified.average Simplified.aspectRatio shapeBounds)
                Hunit ltac:(discriminate) (Rmax_l _ _) (Rmax_l _ _) (Rmax_l _ _))
      as (a & b & c & _ & _ & _ & Hbody).
    apply (pushTimes_returns _ (onEllipsoid a b c) 7 Hbody) in Hrun.
    destruct Hrun as (more & Hr & Hlen & _).
    exists more. split; [exact Hr|]. rewrite Hlen.
    unfold Simplified.numPointsOf. lia.
Qed.

(** X29.  The last two steps of the simplified [generateModel] fit
    together: for shapes of non-negative density, the cloud of
    [generateShapeBasedPointCloud] has between 500 and 2000 points and
    [generateMesh] turns it into a model, without throwing, whose vertex
    buffer holds three numbers per point, whose face indices all refer to
    points of the cloud and which records the number of source images. *)
Theorem shape_cloud_becomes_a_mesh_of_500_to_2000_vertices
  env offsetHSL shapeBounds sourceImageCount w r w' :
  unitRandom env ->
  Forall (fun shape => 0 <= Simplified.density shape) shapeBounds ->
  Simplified.generateShapeBasedPointCloud env offsetHSL shapeBounds w = (r, w') ->
  exists cloud model,
    r = Returns cloud /\
    Simplified.generateMesh cloud sourceImageCount = Some model /\
    (500 <= length cloud <= 2000)%nat /\
    length (Simplified.vertices model) = (3 * length cloud)%nat /\
    Forall (fun index => (index < length cloud)%nat) (Simplified.faces model) /\
    Simplified.sourceImageCount model = Some sourceImageCount.
Proof.
  intros Hunit _ Hrun.
  destruct (generateShapeBasedPointCloud_count env offsetHSL shapeBounds w r w' Hunit Hrun)
    as (cloud & Hr & Hlen).
  assert (Hsmall : (Z.of_nat (length cloud) < 4294967296)%Z) by lia.
  destruct (generateDelaunayTriangulation_valid cloud Hsmall) as (faces & Hfaces & _ & Hall).
  exists cloud. unfold Simplified.generateMesh. rewrite Hfaces.
  eexists. split; [exact Hr|]. split; [reflexivity|]. split; [exact Hlen|].
  cbn [Simplified.vertices Simplified.faces Simplified.sourceImageCount].
  split; [apply flat_map_length_3; reflexivity|]. split; [exact Hall | reflexivity].
Qed.

Lemma shape_cloud_mesh_witness :
  exists cloud model,
    fst (Simplified.generateShapeBasedPointCloud sampleEnv (fun c _ _ _ => c) [pixelShape]
           emptyWorld) = Returns cloud /\
    Simplified.generateMesh cloud 1 = Some model /\
    (500 <= length cloud <= 2000)%nat /\
    length (Simplified.vertices model) = (3 * length cloud)%nat /\
    Forall (fun index => (index < length cloud)%nat) (Simplified.faces model) /\
    Simplified.sourceImageCount model = Some 1%nat.
Proof.
  apply (shape_cloud_becomes_a_mesh_of_500_to_2000_vertices sampleEnv (fun c _ _ _ => c)
           [pixelShape] 1 emptyWorld _
           (snd (Simplified.generateShapeBasedPointCloud sampleEnv (fun c _ _ _ => c)
                   [pixelShape] emptyWorld)) sampleEnv_unitRandom).
  - repeat constructor. simpl. lra.
  - apply surjective_pairing.
Defined.
